(** * Fo: monomorphisation of generic declarations

    A shallow embedding of the generic subsystem of the Fo compiler:

    - [types/generics.go]: the per-package registry of generic declarations
      and usages ([addGenericDecl], [addGenericUsage], [usageKey]), the
      substitution engine ([replaceTypes] and its helpers) and the checker
      entry points [createTypeMap] and [concreteType];
    - [transform] (the transformer): the two passes of [Transformer.File].

    Go values are modelled as finite trees: a [*T] pointer is the value it
    points to, a [nil] interface value of type [Type] is the constructor
    [TNil], a [nil] map or slice is the empty one (the sources only read
    from possibly-nil maps or guard the first write with an allocation).
    A Go panic is the [Panic] result. *)

From Stdlib Require Import ZArith Bool Ascii String.
From stdpp Require Import gmap strings list fin_maps pretty.

Set Warnings "-register-all".
Set Default Proof Using "Type".
Open Scope string_scope.

(** ** Results of partial (panicking) computations *)

(** The panics the modelled code can raise. *)
Inductive panic : Type :=
| NilDereference
    (* runtime error: invalid memory address or nil pointer dereference *)
| DeclarationNotFound (pkg : option string) (name : string)
    (* "declaration not found for generic object %s" *)
| MultipleFields            (* "multiple fields with the same name" *)
| MoreTagsThanFields        (* "more tags than fields" *)
| VariadicNoParameter
    (* "types.NewSignature: variadic function must have at least one parameter" *)
| VariadicNotSlice
    (* "types.NewSignature: variadic parameter must be of unnamed slice type" *)
| DuplicateTypeParameter
    (* "types.NewSignature: cannot have multiple type parameters with the same name" *)
| UnexpectedMethodType      (* "unexpected meth.typ: %T" *)
| TypeArgsNotSupported      (* "type arguments for expr %v of type %T are not yet supported" *)
| InvalidReceiver           (* "invalid receiver type expression: %T %s" *)
| GenericNotFound (key : string)
    (* "could not find generic type declaration for %s" *)
| BadCursorEdit             (* astutil: Delete/InsertBefore outside a slice *)
| BadReplacement            (* reflect: value not assignable to the field *)
| NonFileResult.            (* "astutil.Apply returned a non-file type: %T" *)

Inductive result (A : Type) : Type :=
| Ok (a : A)
| Panic (p : panic).
Arguments Ok {A} a.
Arguments Panic {A} p.

#[global] Instance result_ret : MRet result := fun A a => Ok a.
#[global] Instance result_bind : MBind result := fun A B k r =>
  match r with
  | Ok a => k a
  | Panic p => Panic p
  end.
#[global] Instance result_fmap : FMap result := fun A B f r =>
  match r with
  | Ok a => Ok (f a)
  | Panic p => Panic p
  end.

(** ** Syntax trees ([ast]) *)

Module ast.

(** [*ast.Ident]; positions and resolved objects are not modelled. *)
Record Ident : Type := NewIdent { Name : string }.

Inductive ChanDir : Type := SEND | RECV | SENDRECV.

(** [*ast.Field]: the names and the type of a parameter or struct field. *)
Record Field_ (E : Type) : Type := mkField {
  Names : list Ident;
  FType : E;
}.
Arguments mkField {E} _ _.
Arguments Names {E} _.
Arguments FType {E} _.

(** The expression and type-expression nodes the transformer meets.
    [FieldList] nodes are lists of fields; a [nil] field list is [None]
    where the parser may leave it out. *)
Inductive Expr : Type :=
| EIdent (id : Ident)
| BasicLit (Value : string)
| CompositeLit (Type_ : option Expr) (Elts : list Expr)
| ParenExpr (X : Expr)
| SelectorExpr (X : Expr) (Sel : Ident)
| IndexExpr (X : Expr) (Index : Expr)
| TypeArgExpr (X : Expr) (Types : list Expr)
| CallExpr (Fun : Expr) (Args : list Expr)
| StarExpr (X : Expr)
| KeyValueExpr (Key : Expr) (Value : Expr)
| ArrayType (Len : option Expr) (Elt : Expr)
| StructType (Fields : list (Field_ Expr))
| FuncType (Params : list (Field_ Expr)) (Results : option (list (Field_ Expr)))
| MapType (Key : Expr) (Value : Expr)
| ChanType (Dir : ChanDir) (Value : Expr).

Definition Field : Type := Field_ Expr.
Definition FieldList : Type := list Field.

(** [*ast.TypeParamDecl]: the bracketed parameter names after a name. *)
Record TypeParamDecl : Type := mkTypeParamDecl { TPNames : list Ident }.

Record TypeSpec : Type := mkTypeSpec {
  TSName : Ident;
  TSTypeParams : option TypeParamDecl;
  TSAssign : bool;                    (* [type S = T] *)
  TSType : Expr;
}.

Inductive Spec : Type :=
| ImportSpec (Path : string)
| ValueSpec (VNames : list Ident) (VType : option Expr) (Values : list Expr)
| STypeSpec (ts : TypeSpec).

Inductive Token : Type := IMPORT | CONST | TYPE | VAR.

Record GenDecl : Type := mkGenDecl {
  Tok : Token;
  Specs : list Spec;
}.

Inductive Stmt : Type :=
| DeclStmt (Decl : GenDecl)
| ExprStmt (X : Expr)
| AssignStmt (Lhs : list Expr) (Define : bool) (Rhs : list Expr)
| ReturnStmt (Results : list Expr)
| BlockStmt (List : list Stmt).

Record FuncDecl : Type := mkFuncDecl {
  Recv : option FieldList;            (* receiver (methods); or nil (functions) *)
  FName : Ident;
  FTypeParams : option TypeParamDecl;
  FParams : FieldList;                (* Type.Params *)
  FResults : option FieldList;        (* Type.Results *)
  Body : option (list Stmt);          (* function body; or nil *)
}.

Inductive Decl : Type :=
| DGen (d : GenDecl)
| DFunc (d : FuncDecl).

Record File : Type := mkFile {
  PkgName : Ident;
  Decls : list Decl;
}.

(** The induction principle of [Expr] that reaches the expressions nested
    in lists, options and fields. *)
Section Expr_induction.
Variable P : Expr → Prop.

Definition PFields (l : list Field) : Prop := Forall (fun f => P (FType f)) l.

Definition POpt (o : option Expr) : Prop :=
  match o with
  | Some x => P x
  | None => True
  end.

Hypothesis HIdent : ∀ id, P (EIdent id).
Hypothesis HBasicLit : ∀ v, P (BasicLit v).
Hypothesis HCompositeLit : ∀ typ elts,
  POpt typ → Forall P elts → P (CompositeLit typ elts).
Hypothesis HParenExpr : ∀ x, P x → P (ParenExpr x).
Hypothesis HSelectorExpr : ∀ x sel, P x → P (SelectorExpr x sel).
Hypothesis HIndexExpr : ∀ x i, P x → P i → P (IndexExpr x i).
Hypothesis HTypeArgExpr : ∀ x ts, P x → Forall P ts → P (TypeArgExpr x ts).
Hypothesis HCallExpr : ∀ f args, P f → Forall P args → P (CallExpr f args).
Hypothesis HStarExpr : ∀ x, P x → P (StarExpr x).
Hypothesis HKeyValueExpr : ∀ k v, P k → P v → P (KeyValueExpr k v).
Hypothesis HArrayType : ∀ len elt, POpt len → P elt → P (ArrayType len elt).
Hypothesis HStructType : ∀ fs, PFields fs → P (StructType fs).
Hypothesis HFuncType : ∀ ps rs,
  PFields ps → match rs with Some rs => PFields rs | None => True end →
  P (FuncType ps rs).
Hypothesis HMapType : ∀ k v, P k → P v → P (MapType k v).
Hypothesis HChanType : ∀ dir v, P v → P (ChanType dir v).

Fixpoint Expr_ind' (e : Expr) : P e :=
  let exprs :=
    fix exprs (l : list Expr) : Forall P l :=
      match l with
      | [] => @List.Forall_nil _ _
      | x :: l' => @List.Forall_cons _ _ _ _ (Expr_ind' x) (exprs l')
      end in
  let fields :=
    fix fields (l : list Field) : PFields l :=
      match l with
      | [] => @List.Forall_nil _ _
      | f :: l' => @List.Forall_cons _ _ _ _ (Expr_ind' (FType f)) (fields l')
      end in
  let opt (o : option Expr) : POpt o :=
    match o with
    | Some x => Expr_ind' x
    | None => I
    end in
  match e with
  | EIdent id => HIdent id
  | BasicLit v => HBasicLit v
  | CompositeLit typ elts => HCompositeLit typ elts (opt typ) (exprs elts)
  | ParenExpr x => HParenExpr x (Expr_ind' x)
  | SelectorExpr x sel => HSelectorExpr x sel (Expr_ind' x)
  | IndexExpr x i => HIndexExpr x i (Expr_ind' x) (Expr_ind' i)
  | TypeArgExpr x ts => HTypeArgExpr x ts (Expr_ind' x) (exprs ts)
  | CallExpr f args => HCallExpr f args (Expr_ind' f) (exprs args)
  | StarExpr x => HStarExpr x (Expr_ind' x)
  | KeyValueExpr k v => HKeyValueExpr k v (Expr_ind' k) (Expr_ind' v)
  | ArrayType len elt => HArrayType len elt (opt len) (Expr_ind' elt)
  | StructType fs => HStructType fs (fields fs)
  | FuncType ps rs =>
      HFuncType ps rs (fields ps)
        (match rs as o return match o with Some rs => PFields rs | None => True end
         with
         | Some rs => fields rs
         | None => I
         end)
  | MapType k v => HMapType k v (Expr_ind' k) (Expr_ind' v)
  | ChanType dir v => HChanType dir v (Expr_ind' v)
  end.
End Expr_induction.

(** A [TypeArgExpr] node occurs in the tree. *)
Fixpoint exprHasTypeArg (e : Expr) : bool :=
  let fields (l : list Field) := existsb (fun f => exprHasTypeArg (FType f)) l in
  match e with
  | EIdent _ | BasicLit _ => false
  | CompositeLit typ elts =>
      match typ with Some t => exprHasTypeArg t | None => false end
      || existsb exprHasTypeArg elts
  | ParenExpr x | StarExpr x | SelectorExpr x _ | ChanType _ x => exprHasTypeArg x
  | IndexExpr x y | KeyValueExpr x y | MapType x y =>
      exprHasTypeArg x || exprHasTypeArg y
  | TypeArgExpr _ _ => true
  | CallExpr f args => exprHasTypeArg f || existsb exprHasTypeArg args
  | ArrayType len elt =>
      match len with Some l => exprHasTypeArg l | None => false end
      || exprHasTypeArg elt
  | StructType fs => fields fs
  | FuncType ps rs =>
      fields ps || match rs with Some rs => fields rs | None => false end
  end.

Definition fieldsHaveTypeArg (l : FieldList) : bool :=
  existsb (fun f => exprHasTypeArg (FType f)) l.

Definition specHasTypeArg (s : Spec) : bool :=
  match s with
  | ImportSpec _ => false
  | ValueSpec _ typ values =>
      match typ with Some t => exprHasTypeArg t | None => false end
      || existsb exprHasTypeArg values
  | STypeSpec ts => exprHasTypeArg (TSType ts)
  end.

Fixpoint stmtHasTypeArg (s : Stmt) : bool :=
  match s with
  | DeclStmt d => existsb specHasTypeArg (Specs d)
  | ExprStmt x => exprHasTypeArg x
  | AssignStmt lhs _ rhs => existsb exprHasTypeArg lhs || existsb exprHasTypeArg rhs
  | ReturnStmt results => existsb exprHasTypeArg results
  | BlockStmt l => existsb stmtHasTypeArg l
  end.

Definition declHasTypeArg (d : Decl) : bool :=
  match d with
  | DGen g => existsb specHasTypeArg (Specs g)
  | DFunc f =>
      match Recv f with Some r => fieldsHaveTypeArg r | None => false end
      || fieldsHaveTypeArg (FParams f)
      || match FResults f with Some r => fieldsHaveTypeArg r | None => false end
      || match Body f with Some l => existsb stmtHasTypeArg l | None => false end
  end.

Definition fileHasTypeArg (f : File) : bool := existsb declHasTypeArg (Decls f).

(** The induction principle of [Stmt] that reaches the statements of a
    block. *)
Section Stmt_induction.
Variable P : Stmt → Prop.
Hypothesis HDeclStmt : ∀ d, P (DeclStmt d).
Hypothesis HExprStmt : ∀ x, P (ExprStmt x).
Hypothesis HAssignStmt : ∀ lhs define rhs, P (AssignStmt lhs define rhs).
Hypothesis HReturnStmt : ∀ results, P (ReturnStmt results).
Hypothesis HBlockStmt : ∀ l, Forall P l → P (BlockStmt l).

Fixpoint Stmt_ind' (s : Stmt) : P s :=
  match s with
  | DeclStmt d => HDeclStmt d
  | ExprStmt x => HExprStmt x
  | AssignStmt lhs define rhs => HAssignStmt lhs define rhs
  | ReturnStmt results => HReturnStmt results
  | BlockStmt l =>
      HBlockStmt l
        ((fix stmts (l : list Stmt) : Forall P l :=
            match l with
            | [] => @List.Forall_nil _ _
            | s :: l' => @List.Forall_cons _ _ _ _ (Stmt_ind' s) (stmts l')
            end) l)
  end.
End Stmt_induction.

End ast.

(** ** The type model ([types/type.go]) *)

Module types.

Inductive BasicKind : Type :=
| Invalid
| Bool | Int | Int8 | Int16 | Int32 | Int64
| Uint | Uint8 | Uint16 | Uint32 | Uint64 | Uintptr
| Float32 | Float64 | Complex64 | Complex128
| String | UnsafePointer
| UntypedBool | UntypedInt | UntypedRune | UntypedFloat
| UntypedComplex | UntypedString | UntypedNil.

Inductive ChanDir : Type := SendRecv | SendOnly | RecvOnly.

(** The part of [object] the generic subsystem reads: the owning package
    (a [*Package], named by its path; [None] is the nil pointer) and the
    name. The [typ] back-pointer of an object is left out: the model is a
    finite tree. *)
Record object : Type := mkObject {
  o_pkg : option string;
  o_name : string;
}.

(** [*Var]: a field, parameter, result or receiver. *)
Record Var_ (T : Type) : Type := mkVar {
  v_obj : object;
  v_typ : T;
  v_anonymous : bool;
}.
Arguments mkVar {T} _ _ _.
Arguments v_obj {T} _.
Arguments v_typ {T} _.
Arguments v_anonymous {T} _.

(** [*Func]: a method object with its type. *)
Record Func_ (T : Type) : Type := mkFunc {
  f_obj : object;
  f_typ : T;
}.
Arguments mkFunc {T} _ _.
Arguments f_obj {T} _.
Arguments f_typ {T} _.

(** The fields of [Signature] in the version [generics.go] is written
    against (receiver, parameters, results, the variadic flag, the two
    type-parameter lists and the declaring object; the scope is dropped
    by [NewSignature]). A nil [*Tuple] is the empty list: "a nil *Tuple
    is a valid (empty) tuple". *)
Record Sig_ (T : Type) : Type := mkSig {
  s_recv : option (Var_ T);
  s_params : list (Var_ T);
  s_results : list (Var_ T);
  s_variadic : bool;
  s_typeParams : list string;
  s_recvTypeParams : list string;
  s_obj : option object;
}.
Arguments mkSig {T} _ _ _ _ _ _ _.
Arguments s_recv {T} _.
Arguments s_params {T} _.
Arguments s_results {T} _.
Arguments s_variadic {T} _.
Arguments s_typeParams {T} _.
Arguments s_recvTypeParams {T} _.
Arguments s_obj {T} _.

(** The fields of [Named] (with the type parameters of a generic named
    type, as [generics.go] reads them). *)
Record Named_ (T : Type) : Type := mkNamed {
  n_obj : object;
  n_underlying : T;
  n_methods : list (Func_ T);
  n_typeParams : list string;
}.
Arguments mkNamed {T} _ _ _ _.
Arguments n_obj {T} _.
Arguments n_underlying {T} _.
Arguments n_methods {T} _.
Arguments n_typeParams {T} _.

(** [Type]: the sum of the type variants. A [*TypeParam] is its
    identifier. *)
Inductive Type_ : Type :=
| TNil
| Basic (kind : BasicKind)
| Array (len : Z) (elem : Type_)
| Slice (elem : Type_)
| TypeParam (name : string)
| Struct (fields : list (Var_ Type_)) (tags : list string)
| Pointer (base : Type_)
| Tuple (vars : list (Var_ Type_))
| Signature (sig : Sig_ Type_)
| ConcreteSignature (sig : Sig_ Type_) (typeParams : list string)
    (typeMap : gmap string Type_)
| Interface (methods : list (Func_ Type_)) (embeddeds : list Type_)
    (allMethods : option (list (Func_ Type_)))
| Map (key : Type_) (elem : Type_)
| Chan (dir : ChanDir) (elem : Type_)
| Named (named : Named_ Type_)
| ConcreteNamed (named : Named_ Type_) (typeParams : list string)
    (typeMap : gmap string Type_).

Definition Var : Type := Var_ Type_.
Definition Func : Type := Func_ Type_.
Definition Sig : Type := Sig_ Type_.
Definition NamedT : Type := Named_ Type_.

(** The type assertion of [typ] to a type parameter succeeds. *)
Definition isTypeParam (t : Type_) : bool :=
  match t with
  | TypeParam _ => true
  | _ => false
  end.

(** A map index expression [m[k]]: the zero value [nil] when [k] is
    absent. *)
Definition index (m : gmap string Type_) (k : string) : Type_ :=
  default TNil (m !! k).

(** [Underlying] ([type.go]): a named type gives its underlying type, a
    type parameter the empty interface, the other variants themselves;
    the method of a nil value panics. *)
Definition Underlying (t : Type_) : result Type_ :=
  match t with
  | TNil => Panic NilDereference
  | Named named | ConcreteNamed named _ _ => Ok (n_underlying named)
  | ConcreteSignature sig _ _ => Ok (Signature sig)
  | TypeParam _ => Ok (Interface [] [] None)
  | _ => Ok t
  end.

(** *** The generic registry *)

Record GenericUsage : Type := mkGenericUsage {
  u_typeMap : gmap string Type_;
  u_typ : Type_;
}.

Record GenericDecl : Type := mkGenericDecl {
  d_name : string;
  d_typ : Type_;
  d_typeParams : list string;
  d_usages : gmap string GenericUsage;
}.

(** The checker's diagnostics that the generic subsystem reports. *)
Inductive error : Type :=
| WrongNumberOfTypeParameters (expected got : nat)
| UnexpectedGeneric (X : ast.Expr) (genType : Type_).

(** The text of the arity diagnostic:
    "wrong number of type parameters (expected %d but got %d)". *)
Definition wrongNumberMessage (expected got : nat) : string :=
  "wrong number of type parameters (expected " +:+ pretty expected
    +:+ " but got " +:+ pretty got +:+ ")".

(** The mutable state the modelled functions share: [packages] holds
    [pkg.generics] of every package reachable through [Object.Pkg], by
    package path (a package that is absent has a nil [generics] map);
    [pos] and [errors] are the checker's current position and the
    diagnostics reported through [check.errorf]. *)
Record State : Type := mkState {
  packages : gmap string (gmap string GenericDecl);
  pos : nat;
  errors : list (nat * error);
}.

Definition set_packages (p : gmap string (gmap string GenericDecl))
    (st : State) : State :=
  {| packages := p; pos := pos st; errors := errors st |}.

(** Computations over the state that may panic. *)
Definition M (A : Type) : Type := State -> result (A * State).

#[global] Instance M_ret : MRet M := fun A a st => Ok (a, st).
#[global] Instance M_bind : MBind M := fun A B k m st =>
  match m st with
  | Ok (a, st') => k a st'
  | Panic p => Panic p
  end.
#[global] Instance M_fmap : FMap M := fun A B f m st =>
  match m st with
  | Ok (a, st') => Ok (f a, st')
  | Panic p => Panic p
  end.

Definition lift {A} (r : result A) : M A := fun st =>
  match r with
  | Ok a => Ok (a, st)
  | Panic p => Panic p
  end.

(** Modelled from the spec: [check.errorf] (the file of the checker that
    reports errors is not among the sources). "Diagnostics accumulate;
    processing continues where possible": the error is recorded at the
    position given and the caller goes on. *)
Definition errorf (at_ : nat) (e : error) : M unit := fun st =>
  Ok (tt, {| packages := packages st; pos := pos st;
             errors := errors st ++ [(at_, e)] |}).

(** [check.pos] *)
Definition checkPos : M nat := fun st => Ok (pos st, st).

(** What [generics.go] needs from files of the package that are not
    modelled here: the string form of a type ([TypeString], behind every
    [String] method but the one of [TypeParam]), the identity of an
    object in an [objset] ([Object.Id]) and the checker's typing of an
    expression ([check.rawExpr], of which only the resulting [x.typ] is
    read). *)
Class Env : Type := {
  TypeString : Type_ -> string;
  Id : object -> string;
  rawExpr : ast.Expr -> M Type_;
}.

(** ** The generic registry and the substitution engine
     ([types/generics.go]) *)

Section generics.
Context `{Env}.

(** [Type.String]: a nil interface value panics, a type parameter is
    its identifier, every other variant goes through [TypeString]. *)
Definition String_ (t : Type_) : result string :=
  match t with
  | TNil => Panic NilDereference
  | TypeParam name => Ok name
  | _ => Ok (TypeString t)
  end.

(** The string form of a type that is not nil. *)
Definition stringForm (t : Type_) : string :=
  match t with
  | TypeParam name => name
  | _ => TypeString t
  end.

Definition addGenericDecl (obj : object) (objTyp : Type_)
    (typeParams : list string) : M unit := fun st =>
  match o_pkg obj with
  | None => Panic NilDereference
  | Some pkg =>
      let name := o_name obj in
      let generics := default ∅ (packages st !! pkg) in
      let decl := {| d_name := name; d_typ := objTyp;
                     d_typeParams := typeParams; d_usages := ∅ |} in
      Ok (tt, set_packages (<[pkg := <[name := decl]> generics]> (packages st)) st)
  end.

(** usageKey returns a unique key for a particular usage which is based
    on its type parameters. *)
Definition usageKey (typeMap : gmap string Type_) (typeParams : list string)
    : result string :=
  stringParams ← mapM (fun param => String_ (index typeMap param)) typeParams;
  Ok (String.concat "," stringParams).

(** The loop that opens [addGenericUsage]: some value of the map is a
    type parameter. *)
Definition hasTypeParam (typeMap : gmap string Type_) : bool :=
  existsb (fun kv => isTypeParam (snd kv)) (map_to_list typeMap).

Definition addGenericUsage (genObj : object) (typ : Type_)
    (typeMap : gmap string Type_) : M unit := fun st =>
  if hasTypeParam typeMap then Ok (tt, st)
  else
    match o_pkg genObj with
    | None => Panic NilDereference
    | Some pkg =>
        let name := o_name genObj in
        let generics := default ∅ (packages st !! pkg) in
        match generics !! name with
        | None => Panic (DeclarationNotFound (o_pkg genObj) name)
        | Some genDecl =>
            key ← usageKey typeMap (d_typeParams genDecl);
            let usage := {| u_typ := typ; u_typeMap := typeMap |} in
            let genDecl' :=
              {| d_name := d_name genDecl; d_typ := d_typ genDecl;
                 d_typeParams := d_typeParams genDecl;
                 d_usages := <[key := usage]> (d_usages genDecl) |} in
            Ok (tt, set_packages
                      (<[pkg := <[name := genDecl']> generics]> (packages st)) st)
        end
    end.

(** [createTypeMap]: on an arity mismatch the error is reported and the
    nil map returned; otherwise every argument is typed and bound to
    the parameter at its index, unless its type is nil. *)
Fixpoint bindTypeArgs (params : list ast.Expr) (genericParams : list string)
    (typeMap : gmap string Type_) : M (gmap string Type_) :=
  match params, genericParams with
  | typ :: params', gp :: genericParams' =>
      x ← rawExpr typ;
      bindTypeArgs params' genericParams'
        (match x with
         | TNil => typeMap
         | _ => <[gp := x]> typeMap
         end)
  | _, _ => mret typeMap
  end.

Definition createTypeMap (params : list ast.Expr) (genericParams : list string)
    : M (gmap string Type_) :=
  if negb (length params =? length genericParams)%nat then
    at_ ← checkPos;
    _ ← errorf at_ (WrongNumberOfTypeParameters (length genericParams) (length params));
    mret ∅
  else bindTypeArgs params genericParams ∅.

Definition createMethodTypeMap (recvType : Type_) (typeMap : gmap string Type_)
    : gmap string Type_ :=
  match recvType with
  | ConcreteNamed _ typeParams recvTypeMap =>
      if (length typeParams =? 0)%nat then typeMap
      else
        map_fold
          (fun name typ newTypeMap =>
             match typ with
             | TypeParam tp => <[tp := index typeMap name]> newTypeMap
             | _ => newTypeMap
             end)
          typeMap recvTypeMap
  | _ => typeMap
  end.

(** [NewStruct] ([type.go]): the fields other than [_] are inserted in
    an [objset], keyed by [Id]. *)
Fixpoint insertFields (fset : gset string) (fields : list Var) : result unit :=
  match fields with
  | [] => Ok tt
  | f :: fields' =>
      if String.eqb (o_name (v_obj f)) "_" then insertFields fset fields'
      else if bool_decide (Id (v_obj f) ∈ fset) then Panic MultipleFields
      else insertFields ({[Id (v_obj f)]} ∪ fset) fields'
  end.

Definition NewStruct (fields : list Var) (tags : list string) : result Type_ :=
  _ ← insertFields ∅ fields;
  if (length fields <? length tags)%nat then Panic MoreTagsThanFields
  else Ok (Struct fields tags).

(** The duplicate check on type-parameter names ([type.go]). *)
Fixpoint insertTypeParams (tset : gset string) (typeParams : list string)
    : result (gset string) :=
  match typeParams with
  | [] => Ok tset
  | t :: typeParams' =>
      if bool_decide (t ∈ tset) then Panic DuplicateTypeParameter
      else insertTypeParams ({[t]} ∪ tset) typeParams'
  end.

(** [NewSignature] as [generics.go] calls it, with the two
    type-parameter lists: the variadic checks of [NewSignature] and the
    duplicate check of the signature constructor that takes type
    parameters ([type.go]). *)
Definition NewSignature (recv : option Var) (params results : list Var)
    (variadic : bool) (typeParams recvTypeParams : list string) : result Sig :=
  _ ← (if variadic then
         match last params with
         | None => Panic VariadicNoParameter
         | Some p =>
             match v_typ p with
             | Slice _ => Ok tt
             | _ => Panic VariadicNotSlice
             end
         end
       else Ok tt);
  _ ← (if (0 <? length typeParams)%nat then
         tset ← insertTypeParams ∅ typeParams;
         _ ← insertTypeParams tset recvTypeParams;
         Ok tt
       else Ok tt);
  Ok {| s_recv := recv; s_params := params; s_results := results;
        s_variadic := variadic; s_typeParams := typeParams;
        s_recvTypeParams := recvTypeParams; s_obj := None |}.

Definition setVarType (v : Var) (t : Type_) : Var :=
  {| v_obj := v_obj v; v_typ := t; v_anonymous := v_anonymous v |}.

Section helpers.
(** The helpers call back into [replaceTypes]. *)
Variable replaceTypes : Type_ -> gmap string Type_ -> M Type_.

Definition replaceVar (typeMap : gmap string Type_) (v : Var) : M Var :=
  newTyp ← replaceTypes (v_typ v) typeMap;
  mret (setVarType v newTyp).

Definition replaceTypesInStruct (fields : list Var) (tags : list string)
    (typeMap : gmap string Type_) : M Type_ :=
  newFields ← mapM (replaceVar typeMap) fields;
  lift (NewStruct newFields tags).

Definition replaceTypesInSignature (root : Sig) (typeMap : gmap string Type_)
    : M Sig :=
  newRecv ← match s_recv root with
            | Some recv => Some <$> replaceVar typeMap recv
            | None => mret None
            end;
  newParams ← mapM (replaceVar typeMap) (s_params root);
  newResults ← mapM (replaceVar typeMap) (s_results root);
  newSig ← lift (NewSignature newRecv newParams newResults (s_variadic root)
                   (s_typeParams root) (s_recvTypeParams root));
  mret {| s_recv := s_recv newSig; s_params := s_params newSig;
          s_results := s_results newSig; s_variadic := s_variadic newSig;
          s_typeParams := s_typeParams newSig;
          s_recvTypeParams := s_recvTypeParams newSig;
          s_obj := s_obj root |}.

Definition replaceMethod (typeMap : gmap string Type_) (meth : Func) : M Func :=
  match f_typ meth with
  | Signature sig =>
      match s_recv sig with
      | None => lift (Panic NilDereference)
      | Some recv =>
          let newTypeMap := createMethodTypeMap (v_typ recv) typeMap in
          newSig ← replaceTypesInSignature sig newTypeMap;
          mret {| f_obj := f_obj meth; f_typ := Signature newSig |}
      end
  | _ => lift (Panic UnexpectedMethodType)
  end.

Definition replaceTypesInMethods (methods : list Func)
    (typeMap : gmap string Type_) : M (list Func) :=
  mapM (replaceMethod typeMap) methods.

Definition replaceTypesInNamed (root : NamedT) (typeMap : gmap string Type_)
    : M NamedT :=
  newUnderlying ← replaceTypes (n_underlying root) typeMap;
  mret {| n_obj := n_obj root; n_underlying := newUnderlying;
          n_methods := n_methods root; n_typeParams := n_typeParams root |}.

(** The rewrite of the inner map of a concrete named type by the
    outer map. *)
Definition inheritTypeMap (rootTypeMap typeMap : gmap string Type_)
    : gmap string Type_ :=
  (fun given =>
     match given with
     | TypeParam param =>
         match typeMap !! param with
         | Some inherited =>
             if isTypeParam inherited then given else inherited
         | None => given
         end
     | _ => given
     end) <$> rootTypeMap.

Definition replaceTypesInConcreteNamed (root : NamedT)
    (rootTypeParams : list string) (rootTypeMap : gmap string Type_)
    (typeMap : gmap string Type_) : M Type_ :=
  let newTypeMap := inheritTypeMap rootTypeMap typeMap in
  newNamed ← replaceTypesInNamed root newTypeMap;
  newMethods ← replaceTypesInMethods (n_methods root) newTypeMap;
  let newType :=
    ConcreteNamed
      {| n_obj := n_obj root; n_underlying := n_underlying newNamed;
         n_methods := newMethods; n_typeParams := [] |}
      rootTypeParams newTypeMap in
  _ ← addGenericUsage (n_obj root) newType newTypeMap;
  mret newType.
End helpers.

(** replaceTypes recursively replaces any type parameters starting at
    root with the corresponding concrete type by looking up in
    typeMap. *)
Fixpoint replaceTypes (root : Type_) (typeMap : gmap string Type_)
    {struct root} : M Type_ :=
  match root with
  | TypeParam name =>
      match typeMap !! name with
      | Some newType =>
          if isTypeParam newType then mret root else mret newType
      | None => mret root
      end
  | Pointer base =>
      newBase ← replaceTypes base typeMap; mret (Pointer newBase)
  | Slice elem =>
      newElem ← replaceTypes elem typeMap; mret (Slice newElem)
  | Map key elem =>
      newKey ← replaceTypes key typeMap;
      newElem ← replaceTypes elem typeMap;
      mret (Map newKey newElem)
  | Array len elem =>
      newElem ← replaceTypes elem typeMap; mret (Array len newElem)
  | Chan dir elem =>
      newElem ← replaceTypes elem typeMap; mret (Chan dir newElem)
  | Struct fields tags => replaceTypesInStruct replaceTypes fields tags typeMap
  | Signature sig => Signature <$> replaceTypesInSignature replaceTypes sig typeMap
  | Named named => Named <$> replaceTypesInNamed replaceTypes named typeMap
  | ConcreteNamed named typeParams rootTypeMap =>
      replaceTypesInConcreteNamed replaceTypes named typeParams rootTypeMap typeMap
  | _ => mret root
  end.

(** concreteType returns a new type with the concrete type parameters
    of e applied. [X] and [Params] are the fields of the type-argument
    expression. *)
Definition concreteType (X : ast.Expr) (Params : list ast.Expr)
    (genType : Type_) : M Type_ :=
  match genType with
  | Named genType =>
      typeMap ← createTypeMap Params (n_typeParams genType);
      newNamed ← replaceTypesInNamed replaceTypes genType typeMap;
      let typeParams := n_typeParams genType in
      newMethods ← replaceTypesInMethods replaceTypes (n_methods genType) typeMap;
      let newType :=
        ConcreteNamed
          {| n_obj := n_obj genType; n_underlying := n_underlying newNamed;
             n_methods := newMethods; n_typeParams := [] |}
          typeParams typeMap in
      _ ← addGenericUsage (n_obj genType) newType typeMap;
      mret newType
  | Signature genType =>
      typeMap ← createTypeMap Params (s_typeParams genType);
      newSig ← replaceTypesInSignature replaceTypes genType typeMap;
      let newSig :=
        {| s_recv := s_recv newSig; s_params := s_params newSig;
           s_results := s_results newSig; s_variadic := s_variadic newSig;
           s_typeParams := []; s_recvTypeParams := s_recvTypeParams newSig;
           s_obj := s_obj genType |} in
      let typeParams := s_typeParams genType in
      let newType := ConcreteSignature newSig typeParams typeMap in
      match s_obj genType with
      | Some newObj =>
          _ ← addGenericUsage newObj newType typeMap;
          mret newType
      | None => mret newType
      end
  | _ =>
      at_ ← checkPos;
      _ ← errorf at_ (UnexpectedGeneric X genType);
      mret TNil
  end.

(** *** The reading of the specification *)

Definition isOk {A} (r : result A) : bool :=
  match r with
  | Ok _ => true
  | Panic _ => false
  end.

(** The substitution of the specification: a type-parameter leaf [p]
    with [M[p]] present and not itself a type parameter becomes [M[p]];
    every other leaf stays; pointer, slice, array, channel, map, struct
    and signature nodes keep their shape and have their components
    substituted. *)
Fixpoint substitute (M : gmap string Type_) (t : Type_) : Type_ :=
  let substVar (v : Var) := setVarType v (substitute M (v_typ v)) in
  match t with
  | TypeParam p =>
      match M !! p with
      | Some u => if isTypeParam u then t else u
      | None => t
      end
  | Pointer base => Pointer (substitute M base)
  | Slice elem => Slice (substitute M elem)
  | Array len elem => Array len (substitute M elem)
  | Chan dir elem => Chan dir (substitute M elem)
  | Map key elem => Map (substitute M key) (substitute M elem)
  | Struct fields tags => Struct (map substVar fields) tags
  | Signature sig =>
      Signature
        {| s_recv := option_map substVar (s_recv sig);
           s_params := map substVar (s_params sig);
           s_results := map substVar (s_results sig);
           s_variadic := s_variadic sig;
           s_typeParams := s_typeParams sig;
           s_recvTypeParams := s_recvTypeParams sig;
           s_obj := s_obj sig |}
  | _ => t
  end.

(** The methods of an interface with their signatures substituted, as the
    specification has them after the engine ran. *)
Definition substituteMethods (M : gmap string Type_) (methods : list Func)
    : list Func :=
  map (fun m => {| f_obj := f_obj m; f_typ := substitute M (f_typ m) |}) methods.

Definition substVar (M : gmap string Type_) (v : Var) : Var :=
  setVarType v (substitute M (v_typ v)).

(** The types built from basic types and type parameters with pointers,
    slices, arrays, channels, maps, structs and signatures, every
    struct and signature being one that its constructor accepts
    (invariants 2 and 6 of the data model). *)
Fixpoint structural (t : Type_) : bool :=
  match t with
  | Basic _ | TypeParam _ => true
  | Pointer base => structural base
  | Slice elem => structural elem
  | Array _ elem => structural elem
  | Chan _ elem => structural elem
  | Map key elem => structural key && structural elem
  | Struct fields tags =>
      forallb (fun v => structural (v_typ v)) fields
      && isOk (NewStruct fields tags)
  | Signature sig =>
      match s_recv sig with
      | Some recv => structural (v_typ recv)
      | None => true
      end
      && forallb (fun v => structural (v_typ v)) (s_params sig)
      && forallb (fun v => structural (v_typ v)) (s_results sig)
      && isOk (NewSignature (s_recv sig) (s_params sig) (s_results sig)
                 (s_variadic sig) (s_typeParams sig) (s_recvTypeParams sig))
  | _ => false
  end.

(** A usage is complete when no value of its map is a type parameter;
    the registry is complete when all its usages are. *)
Definition completeUsage (u : GenericUsage) : Prop :=
  ∀ k t, u_typeMap u !! k = Some t → isTypeParam t = false.

Definition completeRegistry (st : State) : Prop :=
  ∀ pkg generics name decl key u,
    packages st !! pkg = Some generics →
    generics !! name = Some decl →
    d_usages decl !! key = Some u →
    completeUsage u.

(** The registry has a declaration for the object. *)
Definition declared (obj : object) (st : State) : Prop :=
  ∃ pkg generics,
    o_pkg obj = Some pkg ∧ packages st !! pkg = Some generics
    ∧ is_Some (generics !! o_name obj).

(** The writes to the registry: register-decl and record-usage. *)
Inductive registryOp : Type :=
| RegisterDecl (obj : object) (objTyp : Type_) (typeParams : list string)
| RecordUsage (genObj : object) (typ : Type_) (typeMap : gmap string Type_).

Definition runOp (op : registryOp) : M unit :=
  match op with
  | RegisterDecl obj objTyp typeParams => addGenericDecl obj objTyp typeParams
  | RecordUsage genObj typ typeMap => addGenericUsage genObj typ typeMap
  end.

Fixpoint runOps (ops : list registryOp) : M unit :=
  match ops with
  | [] => mret tt
  | op :: ops' => _ ← runOp op; runOps ops'
  end.

(** The usages recorded for an object; none when it is not declared. *)
Definition usagesOf (obj : object) (st : State) : gmap string GenericUsage :=
  match o_pkg obj with
  | Some pkg =>
      match default ∅ (packages st !! pkg) !! o_name obj with
      | Some decl => d_usages decl
      | None => ∅
      end
  | None => ∅
  end.

End generics.

(** The induction principle of [Type_] that reaches the types nested in
    fields, tuples, signatures, methods and embedded types. *)
Section Type_induction.
Variable P : Type_ → Prop.

Definition PSig (s : Sig) : Prop :=
  match s_recv s with
  | Some recv => P (v_typ recv)
  | None => True
  end
  ∧ Forall (fun v => P (v_typ v)) (s_params s)
  ∧ Forall (fun v => P (v_typ v)) (s_results s).

Definition PNamed (n : NamedT) : Prop :=
  P (n_underlying n) ∧ Forall (fun m => P (f_typ m)) (n_methods n).

Hypothesis HNil : P TNil.
Hypothesis HBasic : ∀ kind, P (Basic kind).
Hypothesis HArray : ∀ len elem, P elem → P (Array len elem).
Hypothesis HSlice : ∀ elem, P elem → P (Slice elem).
Hypothesis HTypeParam : ∀ name, P (TypeParam name).
Hypothesis HStruct : ∀ fields tags,
  Forall (fun v => P (v_typ v)) fields → P (Struct fields tags).
Hypothesis HPointer : ∀ base, P base → P (Pointer base).
Hypothesis HTuple : ∀ vars,
  Forall (fun v => P (v_typ v)) vars → P (Tuple vars).
Hypothesis HSignature : ∀ sig, PSig sig → P (Signature sig).
Hypothesis HConcreteSignature : ∀ sig typeParams typeMap,
  PSig sig → P (ConcreteSignature sig typeParams typeMap).
Hypothesis HInterface : ∀ methods embeddeds allMethods,
  Forall (fun m => P (f_typ m)) methods → Forall P embeddeds →
  P (Interface methods embeddeds allMethods).
Hypothesis HMap : ∀ key elem, P key → P elem → P (Map key elem).
Hypothesis HChan : ∀ dir elem, P elem → P (Chan dir elem).
Hypothesis HNamed : ∀ named, PNamed named → P (Named named).
Hypothesis HConcreteNamed : ∀ named typeParams typeMap,
  PNamed named → P (ConcreteNamed named typeParams typeMap).

Fixpoint Type_ind' (t : Type_) : P t :=
  let vars :=
    fix vars (l : list Var) : Forall (fun v => P (v_typ v)) l :=
      match l with
      | [] => @List.Forall_nil _ _
      | v :: l' => @List.Forall_cons _ _ _ _ (Type_ind' (v_typ v)) (vars l')
      end in
  let funcs :=
    fix funcs (l : list Func) : Forall (fun m => P (f_typ m)) l :=
      match l with
      | [] => @List.Forall_nil _ _
      | m :: l' => @List.Forall_cons _ _ _ _ (Type_ind' (f_typ m)) (funcs l')
      end in
  let typs :=
    fix typs (l : list Type_) : Forall P l :=
      match l with
      | [] => @List.Forall_nil _ _
      | t :: l' => @List.Forall_cons _ _ _ _ (Type_ind' t) (typs l')
      end in
  let sig (s : Sig) : PSig s :=
    conj (match s_recv s as r
            return match r with Some recv => P (v_typ recv) | None => True end
          with
          | Some recv => Type_ind' (v_typ recv)
          | None => I
          end)
         (conj (vars (s_params s)) (vars (s_results s))) in
  let named (n : NamedT) : PNamed n :=
    conj (Type_ind' (n_underlying n)) (funcs (n_methods n)) in
  match t with
  | TNil => HNil
  | Basic kind => HBasic kind
  | Array len elem => HArray len elem (Type_ind' elem)
  | Slice elem => HSlice elem (Type_ind' elem)
  | TypeParam name => HTypeParam name
  | Struct fields tags => HStruct fields tags (vars fields)
  | Pointer base => HPointer base (Type_ind' base)
  | Tuple vs => HTuple vs (vars vs)
  | Signature s => HSignature s (sig s)
  | ConcreteSignature s tps tm => HConcreteSignature s tps tm (sig s)
  | Interface ms es am => HInterface ms es am (funcs ms) (typs es)
  | Map key elem => HMap key elem (Type_ind' key) (Type_ind' elem)
  | Chan dir elem => HChan dir elem (Type_ind' elem)
  | Named n => HNamed n (named n)
  | ConcreteNamed n tps tm => HConcreteNamed n tps tm (named n)
  end.
End Type_induction.

(** ** Reference functions for the registry and the substitution engine *)

Section shapes.
Context `{Env}.

(** [pkg.generics[name]] for the package at a path. *)
Definition lookupDecl (pkg name : string) (st : State) : option GenericDecl :=
  default ∅ (packages st !! pkg) !! name.

(** A field, parameter or result with its type mapped. *)
Definition mapVar (g : Type_ → Type_) (v : Var) : Var :=
  setVarType v (g (v_typ v)).

(** What [replaceTypes] computes on types without concrete named types:
    a type-parameter leaf bound to a type that is not a type parameter
    becomes that type, and a named type gets its underlying type
    substituted while its methods stay as they are. *)
Fixpoint subst (M : gmap string Type_) (t : Type_) : Type_ :=
  match t with
  | TypeParam p =>
      match M !! p with
      | Some u => if isTypeParam u then t else u
      | None => t
      end
  | Pointer base => Pointer (subst M base)
  | Slice elem => Slice (subst M elem)
  | Array len elem => Array len (subst M elem)
  | Chan dir elem => Chan dir (subst M elem)
  | Map key elem => Map (subst M key) (subst M elem)
  | Struct fields tags => Struct (map (mapVar (subst M)) fields) tags
  | Signature sig =>
      Signature
        {| s_recv := option_map (mapVar (subst M)) (s_recv sig);
           s_params := map (mapVar (subst M)) (s_params sig);
           s_results := map (mapVar (subst M)) (s_results sig);
           s_variadic := s_variadic sig;
           s_typeParams := s_typeParams sig;
           s_recvTypeParams := s_recvTypeParams sig;
           s_obj := s_obj sig |}
  | Named named =>
      Named {| n_obj := n_obj named; n_underlying := subst M (n_underlying named);
               n_methods := n_methods named; n_typeParams := n_typeParams named |}
  | _ => t
  end.

Definition substSig (M : gmap string Type_) (sig : Sig) : Sig :=
  {| s_recv := option_map (mapVar (subst M)) (s_recv sig);
     s_params := map (mapVar (subst M)) (s_params sig);
     s_results := map (mapVar (subst M)) (s_results sig);
     s_variadic := s_variadic sig;
     s_typeParams := s_typeParams sig;
     s_recvTypeParams := s_recvTypeParams sig;
     s_obj := s_obj sig |}.

Definition substMethods (M : gmap string Type_) (methods : list Func) : list Func :=
  map (fun m => {| f_obj := f_obj m; f_typ := subst M (f_typ m) |}) methods.

(** The types [subst] describes: basic types and type parameters under
    pointers, slices, arrays, channels, maps and named types, and under
    structs and signatures that their constructors accept. *)
Fixpoint regular (t : Type_) : bool :=
  match t with
  | Basic _ | TypeParam _ => true
  | Pointer base => regular base
  | Slice elem => regular elem
  | Array _ elem => regular elem
  | Chan _ elem => regular elem
  | Map key elem => regular key && regular elem
  | Struct fields tags =>
      forallb (fun v => regular (v_typ v)) fields
      && isOk (NewStruct fields tags)
  | Signature sig =>
      match s_recv sig with
      | Some recv => regular (v_typ recv)
      | None => true
      end
      && forallb (fun v => regular (v_typ v)) (s_params sig)
      && forallb (fun v => regular (v_typ v)) (s_results sig)
      && isOk (NewSignature (s_recv sig) (s_params sig) (s_results sig)
                 (s_variadic sig) (s_typeParams sig) (s_recvTypeParams sig))
  | Named named => regular (n_underlying named)
  | _ => false
  end.

(** The map binds no type-parameter leaf of the type to a type that is
    not a type parameter. *)
Fixpoint untouched (M : gmap string Type_) (t : Type_) : bool :=
  match t with
  | TypeParam p =>
      match M !! p with
      | Some u => isTypeParam u
      | None => true
      end
  | Pointer base => untouched M base
  | Slice elem => untouched M elem
  | Array _ elem => untouched M elem
  | Chan _ elem => untouched M elem
  | Map key elem => untouched M key && untouched M elem
  | Struct fields _ => forallb (fun v => untouched M (v_typ v)) fields
  | Signature sig =>
      match s_recv sig with
      | Some recv => untouched M (v_typ recv)
      | None => true
      end
      && forallb (fun v => untouched M (v_typ v)) (s_params sig)
      && forallb (fun v => untouched M (v_typ v)) (s_results sig)
  | Named named => untouched M (n_underlying named)
  | _ => true
  end.

(** The type has no type-parameter leaf. *)
Fixpoint noParams (t : Type_) : bool :=
  match t with
  | Basic _ => true
  | Pointer base => noParams base
  | Slice elem => noParams elem
  | Array _ elem => noParams elem
  | Chan _ elem => noParams elem
  | Map key elem => noParams key && noParams elem
  | Struct fields _ => forallb (fun v => noParams (v_typ v)) fields
  | Signature sig =>
      match s_recv sig with
      | Some recv => noParams (v_typ recv)
      | None => true
      end
      && forallb (fun v => noParams (v_typ v)) (s_params sig)
      && forallb (fun v => noParams (v_typ v)) (s_results sig)
  | Named named => noParams (n_underlying named)
  | _ => false
  end.

(** The map binds every type-parameter leaf of the type to a type
    without type parameters. *)
Fixpoint covered (M : gmap string Type_) (t : Type_) : bool :=
  match t with
  | Basic _ => true
  | TypeParam p =>
      match M !! p with
      | Some u => noParams u
      | None => false
      end
  | Pointer base => covered M base
  | Slice elem => covered M elem
  | Array _ elem => covered M elem
  | Chan _ elem => covered M elem
  | Map key elem => covered M key && covered M elem
  | Struct fields _ => forallb (fun v => covered M (v_typ v)) fields
  | Signature sig =>
      match s_recv sig with
      | Some recv => covered M (v_typ recv)
      | None => true
      end
      && forallb (fun v => covered M (v_typ v)) (s_params sig)
      && forallb (fun v => covered M (v_typ v)) (s_results sig)
  | Named named => covered M (n_underlying named)
  | _ => false
  end.

(** A method as the checker attaches it to a named type: a signature
    with a receiver, regular throughout. *)
Definition plainMethod (meth : Func) : bool :=
  match f_typ meth with
  | Signature sig => bool_decide (is_Some (s_recv sig)) && regular (Signature sig)
  | _ => false
  end.

(** The identities of the fields that are not blank. *)
Definition fieldIds (fields : list Var) : list string :=
  map (fun f => Id (v_obj f))
      (List.filter (fun f => negb (String.eqb (o_name (v_obj f)) "_")) fields).

Definition isSlice (t : Type_) : bool :=
  match t with
  | Slice _ => true
  | _ => false
  end.

(** The concrete named type [concreteType] and
    [replaceTypesInConcreteNamed] build for a map. *)
Definition instantiate (named : NamedT) (typeParams : list string)
    (typeMap : gmap string Type_) : Type_ :=
  ConcreteNamed
    {| n_obj := n_obj named;
       n_underlying := subst typeMap (n_underlying named);
       n_methods := substMethods typeMap (n_methods named);
       n_typeParams := [] |}
    typeParams typeMap.
End shapes.

End types.

(** ** Embedded fields ([types], the checker's type expressions) *)

Module typexpr.
Import ast.

(** [anonymousFieldIdent]: the type name of an embedded field, [None]
    for nil. *)
Fixpoint anonymousFieldIdent (e : Expr) : option Ident :=
  match e with
  | EIdent id => Some id
  | StarExpr x =>
      match x with
      | StarExpr _ => None
      | _ => anonymousFieldIdent x
      end
  | SelectorExpr _ sel => Some sel
  | _ => None
  end.
End typexpr.

(** ** The tree walker ([astutil.Apply]) *)

Module astutil.
Import ast.

(** [ast.Node]: any node of the tree, or the nil node. *)
Inductive Node : Type :=
| NNil
| NExpr (e : Expr)
| NField (f : Field)
| NFieldList (l : FieldList)
| NSpec (s : Spec)
| NStmt (s : Stmt)
| NDecl (d : Decl)
| NFile (f : File).

(** The state of a [Cursor]: the current node, whether it sits in a
    slice of its parent, and the edits made through the cursor so far. *)
Record Cursor : Type := mkCursor {
  node : Node;
  inSlice : bool;
  replaced : option Node;
  deleted : bool;
  inserted : list Node;
}.

Definition newCursor (n : Node) (inSlice : bool) : Cursor :=
  {| node := n; inSlice := inSlice; replaced := None; deleted := false;
     inserted := [] |}.

(** [c.Replace(n)] *)
Definition Replace (c : Cursor) (n : Node) : Cursor :=
  {| node := node c; inSlice := inSlice c; replaced := Some n;
     deleted := deleted c; inserted := inserted c |}.

(** [c.Delete()]: panics when the node is not part of a slice. *)
Definition Delete (c : Cursor) : result Cursor :=
  if inSlice c then
    Ok {| node := node c; inSlice := inSlice c; replaced := replaced c;
          deleted := true; inserted := inserted c |}
  else Panic BadCursorEdit.

(** [c.InsertBefore(n)]: panics when the node is not part of a slice. *)
Definition InsertBefore (c : Cursor) (n : Node) : result Cursor :=
  if inSlice c then
    Ok {| node := node c; inSlice := inSlice c; replaced := replaced c;
          deleted := deleted c; inserted := inserted c ++ [n] |}
  else Panic BadCursorEdit.

(** What the parent holds at the place of the node once the callbacks
    have run: the nodes inserted before it, then the replacement if
    there is one, else the node itself, unless it was deleted. *)
Definition splice (c : Cursor) (walked : Node) : list Node :=
  inserted c ++ (if deleted c then [] else [default walked (replaced c)]).

(** An [ApplyFunc] used as [pre]: the edited cursor and whether the
    children are to be walked. *)
Definition PreFunc : Type := Cursor → result (Cursor * bool).

(** An [ApplyFunc] used as [post]; the callbacks of the transformer
    always return true there, so the result is the edited cursor. *)
Definition PostFunc : Type := Cursor → result Cursor.

Definition noPre : PreFunc := fun c => Ok (c, true).
Definition noPost : PostFunc := fun c => Ok c.

(** The destination of an edit has a static type. *)
Definition asExpr (ns : list Node) : result Expr :=
  match ns with
  | [NExpr e] => Ok e
  | _ => Panic BadReplacement
  end.

Definition asOptExpr (ns : list Node) : result (option Expr) :=
  match ns with
  | [NExpr e] => Ok (Some e)
  | [NNil] => Ok None
  | _ => Panic BadReplacement
  end.

Definition asIdent (ns : list Node) : result Ident :=
  match ns with
  | [NExpr (EIdent id)] => Ok id
  | _ => Panic BadReplacement
  end.

Definition asFieldList (ns : list Node) : result FieldList :=
  match ns with
  | [NFieldList l] => Ok l
  | _ => Panic BadReplacement
  end.

Definition asOptFieldList (ns : list Node) : result (option FieldList) :=
  match ns with
  | [NFieldList l] => Ok (Some l)
  | [NNil] => Ok None
  | _ => Panic BadReplacement
  end.

Definition asGenDecl (ns : list Node) : result GenDecl :=
  match ns with
  | [NDecl (DGen d)] => Ok d
  | _ => Panic BadReplacement
  end.

Definition exprOf (n : Node) : result Expr :=
  match n with NExpr e => Ok e | _ => Panic BadReplacement end.
Definition identOf (n : Node) : result Ident :=
  match n with NExpr (EIdent id) => Ok id | _ => Panic BadReplacement end.
Definition fieldOf (n : Node) : result Field :=
  match n with NField f => Ok f | _ => Panic BadReplacement end.
Definition specOf (n : Node) : result Spec :=
  match n with NSpec s => Ok s | _ => Panic BadReplacement end.
Definition stmtOf (n : Node) : result Stmt :=
  match n with NStmt s => Ok s | _ => Panic BadReplacement end.
Definition declOf (n : Node) : result Decl :=
  match n with NDecl d => Ok d | _ => Panic BadReplacement end.

Section apply.
Variables (pre : PreFunc) (post : PostFunc).

(** Modelled from the spec: the tree walker [astutil.Apply] is not among
    the sources; the transformer "walks the syntax tree" with it. [pre] is
    called on a node before its children; if it returns false the
    children are skipped and [post] is not called; otherwise the children
    of the node [pre] was called on are walked, in the order of the fields
    of its struct, and [post] is called. A node put in place through the
    cursor is not walked. *)
Definition visit (inSlice : bool) (n : Node) (children : result Node)
    : result (list Node) :=
  '(c, continue) ← pre (newCursor n inSlice);
  if continue : bool then
    walked ← children;
    c' ← post {| node := walked; inSlice := astutil.inSlice c;
                 replaced := replaced c; deleted := deleted c;
                 inserted := inserted c |};
    Ok (splice c' walked)
  else Ok (splice c n).

(** [applyList]: the elements of a slice, each with its edits. *)
Definition visitList {A} (visitOne : A → result (list Node)) (l : list A)
    : result (list Node) :=
  @List.concat Node <$> mapM visitOne l.

Definition visitIdent (inSlice : bool) (id : Ident) : result (list Node) :=
  visit inSlice (NExpr (EIdent id)) (Ok (NExpr (EIdent id))).

Definition walkIdents (ids : list Ident) : result (list Ident) :=
  ns ← visitList (visitIdent true) ids; mapM identOf ns.

(** The children of an expression, in the order of the fields of its
    struct. *)
Fixpoint walkExpr (e : Expr) : result Expr :=
  let slot (x : Expr) : result Expr :=
    ns ← visit false (NExpr x) (NExpr <$> walkExpr x); asExpr ns in
  let optSlot (o : option Expr) : result (option Expr) :=
    match o with
    | Some x => ns ← visit false (NExpr x) (NExpr <$> walkExpr x); asOptExpr ns
    | None => ns ← visit false NNil (Ok NNil); asOptExpr ns
    end in
  let exprs (l : list Expr) : result (list Expr) :=
    ns ← visitList (fun x => visit true (NExpr x) (NExpr <$> walkExpr x)) l;
    mapM exprOf ns in
  let field (f : Field) : result Field :=
    names ← walkIdents (Names f);
    typ ← slot (FType f);
    Ok (mkField names typ) in
  let fields (l : list Field) : result FieldList :=
    ns ← visitList (fun f => visit true (NField f) (NField <$> field f)) l;
    mapM fieldOf ns in
  match e with
  | EIdent _ | BasicLit _ => Ok e
  | CompositeLit typ elts =>
      typ' ← optSlot typ; elts' ← exprs elts; Ok (CompositeLit typ' elts')
  | ParenExpr x => x' ← slot x; Ok (ParenExpr x')
  | SelectorExpr x sel =>
      x' ← slot x;
      sel' ← (ns ← visitIdent false sel; asIdent ns);
      Ok (SelectorExpr x' sel')
  | IndexExpr x index =>
      x' ← slot x; index' ← slot index; Ok (IndexExpr x' index')
  | TypeArgExpr x types =>
      x' ← slot x; types' ← exprs types; Ok (TypeArgExpr x' types')
  | CallExpr f args =>
      f' ← slot f; args' ← exprs args; Ok (CallExpr f' args')
  | StarExpr x => x' ← slot x; Ok (StarExpr x')
  | KeyValueExpr k v => k' ← slot k; v' ← slot v; Ok (KeyValueExpr k' v')
  | ArrayType len elt =>
      len' ← optSlot len; elt' ← slot elt; Ok (ArrayType len' elt')
  | StructType fs =>
      fs' ← (ns ← visit false (NFieldList fs) (NFieldList <$> fields fs);
             asFieldList ns);
      Ok (StructType fs')
  | FuncType params results =>
      params' ← (ns ← visit false (NFieldList params)
                        (NFieldList <$> fields params);
                 asFieldList ns);
      results' ← match results with
                 | Some rs =>
                     ns ← visit false (NFieldList rs) (NFieldList <$> fields rs);
                     asOptFieldList ns
                 | None => ns ← visit false NNil (Ok NNil); asOptFieldList ns
                 end;
      Ok (FuncType params' results')
  | MapType k v => k' ← slot k; v' ← slot v; Ok (MapType k' v')
  | ChanType dir v => v' ← slot v; Ok (ChanType dir v')
  end.

Definition visitExpr (inSlice : bool) (x : Expr) : result (list Node) :=
  visit inSlice (NExpr x) (NExpr <$> walkExpr x).

Definition walkExprs (l : list Expr) : result (list Expr) :=
  ns ← visitList (visitExpr true) l; mapM exprOf ns.

Definition walkOptExpr (o : option Expr) : result (option Expr) :=
  match o with
  | Some x => ns ← visitExpr false x; asOptExpr ns
  | None => ns ← visit false NNil (Ok NNil); asOptExpr ns
  end.

Definition walkField (f : Field) : result Field :=
  names ← walkIdents (Names f);
  typ ← (ns ← visitExpr false (FType f); asExpr ns);
  Ok (mkField names typ).

Definition walkFieldList (l : FieldList) : result FieldList :=
  ns ← visitList (fun f => visit true (NField f) (NField <$> walkField f)) l;
  mapM fieldOf ns.

Definition visitFieldList (l : FieldList) : result (list Node) :=
  visit false (NFieldList l) (NFieldList <$> walkFieldList l).

Definition walkOptFieldList (o : option FieldList) : result (option FieldList) :=
  match o with
  | Some l => ns ← visitFieldList l; asOptFieldList ns
  | None => ns ← visit false NNil (Ok NNil); asOptFieldList ns
  end.

Definition walkSpec (s : Spec) : result Spec :=
  match s with
  | ImportSpec path => Ok s
  | ValueSpec names typ values =>
      names' ← walkIdents names;
      typ' ← walkOptExpr typ;
      values' ← walkExprs values;
      Ok (ValueSpec names' typ' values')
  | STypeSpec ts =>
      name' ← (ns ← visitIdent false (TSName ts); asIdent ns);
      typ' ← (ns ← visitExpr false (TSType ts); asExpr ns);
      Ok (STypeSpec {| TSName := name'; TSTypeParams := TSTypeParams ts;
                       TSAssign := TSAssign ts; TSType := typ' |})
  end.

Definition walkGenDecl (d : GenDecl) : result GenDecl :=
  ns ← visitList (fun s => visit true (NSpec s) (NSpec <$> walkSpec s)) (Specs d);
  specs ← mapM specOf ns;
  Ok {| Tok := Tok d; Specs := specs |}.

Fixpoint walkStmt (s : Stmt) : result Stmt :=
  match s with
  | DeclStmt d =>
      d' ← (ns ← visit false (NDecl (DGen d)) (NDecl ∘ DGen <$> walkGenDecl d);
            asGenDecl ns);
      Ok (DeclStmt d')
  | ExprStmt x => x' ← (ns ← visitExpr false x; asExpr ns); Ok (ExprStmt x')
  | AssignStmt lhs define rhs =>
      lhs' ← walkExprs lhs; rhs' ← walkExprs rhs;
      Ok (AssignStmt lhs' define rhs')
  | ReturnStmt results => results' ← walkExprs results; Ok (ReturnStmt results')
  | BlockStmt l =>
      ns ← visitList (fun s => visit true (NStmt s) (NStmt <$> walkStmt s)) l;
      l' ← mapM stmtOf ns;
      Ok (BlockStmt l')
  end.

Definition walkStmts (l : list Stmt) : result (list Stmt) :=
  ns ← visitList (fun s => visit true (NStmt s) (NStmt <$> walkStmt s)) l;
  mapM stmtOf ns.

Definition walkFuncDecl (d : FuncDecl) : result FuncDecl :=
  recv ← walkOptFieldList (Recv d);
  name ← (ns ← visitIdent false (FName d); asIdent ns);
  params ← (ns ← visitFieldList (FParams d); asFieldList ns);
  results ← walkOptFieldList (FResults d);
  body ← match Body d with
         | Some l =>
             ns ← visit false (NStmt (BlockStmt l)) (NStmt ∘ BlockStmt <$> walkStmts l);
             match ns with
             | [NStmt (BlockStmt l')] => Ok (Some l')
             | [NNil] => Ok None
             | _ => Panic BadReplacement
             end
         | None =>
             ns ← visit false NNil (Ok NNil);
             match ns with
             | [NStmt (BlockStmt l')] => Ok (Some l')
             | [NNil] => Ok None
             | _ => Panic BadReplacement
             end
         end;
  Ok {| Recv := recv; FName := name; FTypeParams := FTypeParams d;
        FParams := params; FResults := results; Body := body |}.

Definition walkDecl (d : Decl) : result Decl :=
  match d with
  | DGen g => DGen <$> walkGenDecl g
  | DFunc f => DFunc <$> walkFuncDecl f
  end.

Definition walkFile (f : File) : result File :=
  name ← (ns ← visitIdent false (PkgName f); asIdent ns);
  ns ← visitList (fun d => visit true (NDecl d) (NDecl <$> walkDecl d)) (Decls f);
  decls ← mapM declOf ns;
  Ok {| PkgName := name; Decls := decls |}.

Definition walk (n : Node) : result Node :=
  match n with
  | NNil => Ok NNil
  | NExpr e => NExpr <$> walkExpr e
  | NField f => NField <$> walkField f
  | NFieldList l => NFieldList <$> walkFieldList l
  | NSpec s => NSpec <$> walkSpec s
  | NStmt s => NStmt <$> walkStmt s
  | NDecl d => NDecl <$> walkDecl d
  | NFile f => NFile <$> walkFile f
  end.

(** [Apply(root, pre, post)]: the root sits in a field that holds any
    node. *)
Definition Apply (root : Node) : result Node :=
  ns ← visit false root (walk root);
  match ns with
  | [n] => Ok n
  | _ => Panic BadReplacement
  end.
End apply.

(** [astutil.Unparen] ([astutil/util.go]): the expression with the
    enclosing parentheses stripped. *)
Fixpoint Unparen (e : Expr) : Expr :=
  match e with
  | ParenExpr x => Unparen x
  | _ => e
  end.

(** *** Predicates on the nodes of a walk *)

Section every_node.
Variable ok : Node → bool.

(** [ok] holds of every node [Apply] calls the callbacks on in the walk
    of an expression. *)
Fixpoint everyExpr (e : Expr) : bool :=
  let idents (l : list Ident) := forallb (fun id => ok (NExpr (EIdent id))) l in
  let field (f : Field) :=
    ok (NField f) && idents (Names f) && everyExpr (FType f) in
  let fields (l : list Field) := ok (NFieldList l) && forallb field l in
  let opt (o : option Expr) :=
    match o with Some x => everyExpr x | None => ok NNil end in
  ok (NExpr e)
  && match e with
     | EIdent _ | BasicLit _ => true
     | CompositeLit typ elts => opt typ && forallb everyExpr elts
     | ParenExpr x | StarExpr x | ChanType _ x => everyExpr x
     | SelectorExpr x sel => everyExpr x && ok (NExpr (EIdent sel))
     | IndexExpr x y | KeyValueExpr x y | MapType x y => everyExpr x && everyExpr y
     | TypeArgExpr x ts | CallExpr x ts => everyExpr x && forallb everyExpr ts
     | ArrayType len elt => opt len && everyExpr elt
     | StructType fs => fields fs
     | FuncType ps rs =>
         fields ps && match rs with Some rs => fields rs | None => ok NNil end
     end.

Definition everyIdent (id : Ident) : bool := ok (NExpr (EIdent id)).

Definition everyOptExpr (o : option Expr) : bool :=
  match o with
  | Some x => everyExpr x
  | None => ok NNil
  end.

Definition everyField (f : Field) : bool :=
  ok (NField f) && forallb everyIdent (Names f) && everyExpr (FType f).

Definition everyFieldList (l : FieldList) : bool :=
  ok (NFieldList l) && forallb everyField l.

Definition everyOptFieldList (o : option FieldList) : bool :=
  match o with
  | Some l => everyFieldList l
  | None => ok NNil
  end.

Definition everySpec (s : Spec) : bool :=
  ok (NSpec s)
  && match s with
     | ImportSpec _ => true
     | ValueSpec names typ values =>
         forallb everyIdent names && everyOptExpr typ && forallb everyExpr values
     | STypeSpec ts => everyIdent (TSName ts) && everyExpr (TSType ts)
     end.

Definition everyGenDecl (d : GenDecl) : bool :=
  ok (NDecl (DGen d)) && forallb everySpec (Specs d).

Fixpoint everyStmt (s : Stmt) : bool :=
  ok (NStmt s)
  && match s with
     | DeclStmt d => everyGenDecl d
     | ExprStmt x => everyExpr x
     | AssignStmt lhs _ rhs => forallb everyExpr lhs && forallb everyExpr rhs
     | ReturnStmt results => forallb everyExpr results
     | BlockStmt l => forallb everyStmt l
     end.

Definition everyFuncDecl (d : FuncDecl) : bool :=
  ok (NDecl (DFunc d))
  && everyOptFieldList (Recv d) && everyIdent (FName d)
  && everyFieldList (FParams d) && everyOptFieldList (FResults d)
  && match Body d with
     | Some l => ok (NStmt (BlockStmt l)) && forallb everyStmt l
     | None => ok NNil
     end.

Definition everyDecl (d : Decl) : bool :=
  match d with
  | DGen g => everyGenDecl g
  | DFunc f => everyFuncDecl f
  end.

Definition everyFile (f : File) : bool :=
  ok (NFile f) && everyIdent (PkgName f) && forallb everyDecl (Decls f).
End every_node.

(** A [pre] callback keeps a node: it asks for the children to be walked
    and its edits leave the node, once walked, in its place. *)
Definition keeps (pre : PreFunc) (n : Node) : Prop :=
  ∀ b, ∃ c, pre (newCursor n b) = Ok (c, true)
            ∧ inserted c = [] ∧ deleted c = false
            ∧ default n (replaced c) = n.

End astutil.

(** ** The transformer ([transform]) *)

Module transform.
Import ast astutil.
Import types(Type_, GenericDecl, GenericUsage, object).

(** [types.Selection], as far as the transformer reads it. *)
Inductive SelectionKind : Type := FieldVal | MethodVal | MethodExpr.

Record Selection : Type := mkSelection {
  Kind : SelectionKind;
  SelRecv : Type_;
  Obj : object;
}.

(** [types.Object] as found in [Info.Uses]: a type name, possibly an
    alias, or another kind of object. *)
Inductive Object : Type :=
| TypeName (obj : object) (IsAlias : bool) (typ : Type_)
| OtherObject (obj : object).

(** [types.Info]. Go keys both maps by node identity; with positions left
    out of the model a node is identified by its contents. *)
Record Info : Type := mkInfo {
  Uses : Ident → option Object;
  Selections : Expr → option Selection;
}.

(** [Transformer]: [Generics] is [trans.Pkg.Generics()]. *)
Record Transformer : Type := mkTransformer {
  Generics : gmap string GenericDecl;
  TInfo : Info;
}.

(** What the transformer needs from files that are not modelled here:
    [typeToExpr] (the syntactic form of a type), [typeToSafeString] and
    [exprToSafeString] (the identifier-safe string forms used for
    mangling), [printer.Fprint] on a function declaration, and the order
    [sort.Slice] leaves a slice of two or more elements in, which is some
    permutation of it. *)
Class Env : Type := {
  typeToExpr : Type_ → Expr;
  typeToSafeString : Type_ → string;
  exprToSafeString : Expr → string;
  Fprint : FuncDecl → string;
  sortPerm : ∀ A : Type, (A → A → bool) → list A → list A;
  sortPerm_perm : ∀ A less l, sortPerm A less l ≡ₚ l;
}.

Section transformer.
Context `{Env}.
Variable trans : Transformer.

(** [sort.Slice]: sorting swaps elements, so a slice shorter than two
    is left as it is. *)
Definition sortSlice {A} (less : A → A → bool) (l : list A) : list A :=
  match l with
  | [] | [_] => l
  | _ => sortPerm A less l
  end.

(** [astclone.Clone]: a deep copy, which is the same value. *)
Definition Clone {A} (n : A) : A := n.

Fixpoint formatTypeArgsFrom (i : nat) (args : list Expr) (acc : string)
    : result string :=
  match args with
  | [] => Ok acc
  | arg :: args' =>
      let sep := if (i =? 0)%nat then "" else "__" in
      s ← match arg with
          | EIdent ident =>
              match Uses (TInfo trans) ident with
              | Some (TypeName _ true typ) =>
                  typeToSafeString <$> types.Underlying typ
              | _ => Ok (exprToSafeString arg)
              end
          | _ => Ok (exprToSafeString arg)
          end;
      formatTypeArgsFrom (S i) args' (acc +:+ sep +:+ s)
  end.

Definition formatTypeArgs (args : list Expr) : result string :=
  formatTypeArgsFrom 0 args "".

Definition concreteTypeName (decl : GenericDecl) (usg : GenericUsage) : string :=
  let stringParams :=
    map (fun param => typeToSafeString (types.index (types.u_typeMap usg) param))
        (types.d_typeParams decl) in
  if (length stringParams =? 0)%nat then types.d_name decl
  else types.d_name decl +:+ "__" +:+ String.concat "__" stringParams.

(** [concreteTypeExpr] on the type-argument expression [X[Types]]. *)
Definition concreteTypeExpr (X : Expr) (Types : list Expr) : result Node :=
  match X with
  | EIdent x =>
      args ← formatTypeArgs Types;
      Ok (NExpr (EIdent (NewIdent (Name x +:+ "__" +:+ args))))
  | SelectorExpr x sel =>
      args ← formatTypeArgs Types;
      Ok (NExpr (SelectorExpr (Clone x) (NewIdent (Name sel +:+ "__" +:+ args))))
  | _ => Panic TypeArgsNotSupported
  end.

Definition recvTypeParams (typeParams : list string)
    (typeMap : gmap string Type_) : list Expr :=
  map (fun param => typeToExpr (types.index typeMap param)) typeParams.

(** expandReceiverType adds the appropriate type parameters to a
    receiver type if they were not included in the original source
    code. [genDecl] is a pointer, nil for [None]. *)
Definition expandReceiverType (funcDecl : FuncDecl)
    (genDecl : option GenericDecl) (usg : GenericUsage) : result FuncDecl :=
  let pre : PreFunc := fun c =>
    match node c with
    | NExpr (TypeArgExpr _ _) => Ok (c, false)
    | NExpr (EIdent n) =>
        match genDecl with
        | None => Panic NilDereference
        | Some genDecl =>
            if String.eqb (Name n) (types.d_name genDecl) then
              Ok (Replace c
                    (NExpr (TypeArgExpr (EIdent (NewIdent (Name n)))
                              (recvTypeParams (types.d_typeParams genDecl)
                                 (types.u_typeMap usg)))),
                  true)
            else Ok (c, true)
        end
    | _ => Ok (c, true)
    end in
  match Recv funcDecl with
  | None => _ ← Apply pre noPost NNil; Ok funcDecl
  | Some recv =>
      n ← Apply pre noPost (NFieldList recv);
      match n with
      | NFieldList recv' =>
          Ok {| Recv := Some recv'; FName := FName funcDecl;
                FTypeParams := FTypeParams funcDecl;
                FParams := FParams funcDecl; FResults := FResults funcDecl;
                Body := Body funcDecl |}
      | _ => Panic BadReplacement
      end
  end.

(** The [post] callback of [replaceIdentsInScope]. *)
Definition replaceIdent (typeMap : gmap string Type_) : PostFunc := fun c =>
  match node c with
  | NExpr (EIdent ident) =>
      match typeMap !! Name ident with
      | Some typ => Ok (Replace c (NExpr (typeToExpr typ)))
      | None => Ok c
      end
  | _ => Ok c
  end.

Definition replaceIdentsInScope (n : Node) (typeMap : gmap string Type_)
    : result Node :=
  Apply noPre (replaceIdent typeMap) n.

(** The scoped identifier rewrite as a function on expressions: every
    identifier whose name is bound in the map becomes the syntactic form
    of the bound type. Where only an identifier can stand (a selected
    member, a field name) the rewrite needs that form to be an
    identifier. *)
Definition substSlot (typeMap : gmap string Type_) (id : Ident) : Ident :=
  match typeMap !! Name id with
  | Some typ =>
      match typeToExpr typ with
      | EIdent id' => id'
      | _ => id
      end
  | None => id
  end.

Definition slotOk (typeMap : gmap string Type_) (id : Ident) : bool :=
  match typeMap !! Name id with
  | Some typ =>
      match typeToExpr typ with
      | EIdent _ => true
      | _ => false
      end
  | None => true
  end.

Fixpoint substIdents (typeMap : gmap string Type_) (e : Expr) : Expr :=
  let field (f : Field) : Field :=
    mkField (map (substSlot typeMap) (Names f)) (substIdents typeMap (FType f)) in
  match e with
  | EIdent id =>
      match typeMap !! Name id with
      | Some typ => typeToExpr typ
      | None => e
      end
  | BasicLit _ => e
  | CompositeLit typ elts =>
      CompositeLit (option_map (substIdents typeMap) typ)
        (map (substIdents typeMap) elts)
  | ParenExpr x => ParenExpr (substIdents typeMap x)
  | SelectorExpr x sel => SelectorExpr (substIdents typeMap x) (substSlot typeMap sel)
  | IndexExpr x i => IndexExpr (substIdents typeMap x) (substIdents typeMap i)
  | TypeArgExpr x ts =>
      TypeArgExpr (substIdents typeMap x) (map (substIdents typeMap) ts)
  | CallExpr f args => CallExpr (substIdents typeMap f) (map (substIdents typeMap) args)
  | StarExpr x => StarExpr (substIdents typeMap x)
  | KeyValueExpr k v => KeyValueExpr (substIdents typeMap k) (substIdents typeMap v)
  | ArrayType len elt =>
      ArrayType (option_map (substIdents typeMap) len) (substIdents typeMap elt)
  | StructType fs => StructType (map field fs)
  | FuncType ps rs => FuncType (map field ps) (option_map (map field) rs)
  | MapType k v => MapType (substIdents typeMap k) (substIdents typeMap v)
  | ChanType dir v => ChanType dir (substIdents typeMap v)
  end.

Definition substField (typeMap : gmap string Type_) (f : Field) : Field :=
  mkField (map (substSlot typeMap) (Names f)) (substIdents typeMap (FType f)).

(** The places of an expression where only an identifier can stand are
    rewritten to identifiers. *)
Fixpoint scopeOk (typeMap : gmap string Type_) (e : Expr) : bool :=
  let field (f : Field) : bool :=
    forallb (slotOk typeMap) (Names f) && scopeOk typeMap (FType f) in
  match e with
  | EIdent _ | BasicLit _ => true
  | CompositeLit typ elts =>
      match typ with Some t => scopeOk typeMap t | None => true end
      && forallb (scopeOk typeMap) elts
  | ParenExpr x | StarExpr x | ChanType _ x => scopeOk typeMap x
  | SelectorExpr x sel => scopeOk typeMap x && slotOk typeMap sel
  | IndexExpr x y | KeyValueExpr x y | MapType x y =>
      scopeOk typeMap x && scopeOk typeMap y
  | TypeArgExpr x ts => scopeOk typeMap x && forallb (scopeOk typeMap) ts
  | CallExpr f args => scopeOk typeMap f && forallb (scopeOk typeMap) args
  | ArrayType len elt =>
      match len with Some l => scopeOk typeMap l | None => true end
      && scopeOk typeMap elt
  | StructType fs => forallb field fs
  | FuncType ps rs =>
      forallb field ps && match rs with Some rs => forallb field rs | None => true end
  end.

Definition fieldOk (typeMap : gmap string Type_) (f : Field) : bool :=
  forallb (slotOk typeMap) (Names f) && scopeOk typeMap (FType f).

(** The usages of a declaration, in the order [range] yields them: Go
    leaves that order open, the model takes the one of [map_to_list]. *)
Definition usagesList (decl : GenericDecl) : list GenericUsage :=
  snd <$> map_to_list (types.d_usages decl).

(** The reading of an ambiguous [ArrayType] in a type spec without type
    parameters: [type A [T]E] is [type A[T] E]. *)
Definition disambiguate (typeSpec : TypeSpec) : TypeSpec :=
  match TSTypeParams typeSpec, TSType typeSpec with
  | None, ArrayType (Some (EIdent length)) elt =>
      {| TSName := TSName typeSpec;
         TSTypeParams := Some {| TPNames := [] |};
         TSAssign := TSAssign typeSpec; TSType := elt |}
  | _, _ => typeSpec
  end.

Definition generateTypeSpecs (typeSpec : TypeSpec) : result (list Spec) :=
  let key := Name (TSName typeSpec) in
  match Generics trans !! key with
  | None => Panic (GenericNotFound key)
  | Some genericDecl =>
      let typeSpec := disambiguate typeSpec in
      mapM (fun usg =>
              let newTypeSpec :=
                {| TSName := NewIdent (concreteTypeName genericDecl usg);
                   TSTypeParams := None;
                   TSAssign := TSAssign typeSpec; TSType := TSType typeSpec |} in
              n ← replaceIdentsInScope (NSpec (STypeSpec newTypeSpec))
                    (types.u_typeMap usg);
              specOf n)
           (usagesList genericDecl)
  end.

(** The concrete declaration a usage stands for: the body of the generic
    type spec with the type parameters rewritten, under the mangled
    name. *)
Definition cloneTypeSpec (genericDecl : GenericDecl) (typeSpec : TypeSpec)
    (usg : GenericUsage) : Spec :=
  STypeSpec
    {| TSName := substSlot (types.u_typeMap usg)
                   (NewIdent (concreteTypeName genericDecl usg));
       TSTypeParams := None;
       TSAssign := TSAssign (disambiguate typeSpec);
       TSType := substIdents (types.u_typeMap usg) (TSType (disambiguate typeSpec)) |}.

(** The rewrite of the clone meets no place where it would have to put a
    type expression for an identifier. *)
Definition cloneOk (genericDecl : GenericDecl) (typeSpec : TypeSpec)
    (usg : GenericUsage) : bool :=
  slotOk (types.u_typeMap usg) (NewIdent (concreteTypeName genericDecl usg))
  && scopeOk (types.u_typeMap usg) (TSType (disambiguate typeSpec)).

Definition setName (funcDecl : FuncDecl) (name : string) : FuncDecl :=
  {| Recv := Recv funcDecl; FName := NewIdent name; FTypeParams := None;
     FParams := FParams funcDecl; FResults := FResults funcDecl;
     Body := Body funcDecl |}.

Definition funcDeclOf (n : Node) : result FuncDecl :=
  match n with
  | NDecl (DFunc f) => Ok f
  | _ => Panic BadReplacement
  end.

Definition generateFuncDecls (funcDecl : FuncDecl)
    : result (list FuncDecl * bool) :=
  let recv : option Expr :=
    match Recv funcDecl with
    | Some [field] => Some (FType field)
    | _ => None
    end in
  let recv := match recv with
              | Some (StarExpr x) => Some x
              | _ => recv
              end in
  let '(recvHasTypeArgs, recv) :=
    match recv with
    | Some (TypeArgExpr x _) => (true, Some x)
    | _ => (false, recv)
    end in
  '(genRecvDecl, recvTypeName, recvIsGeneric) ←
    match recv with
    | Some (EIdent recvTypeName) =>
        let genRecvDecl := Generics trans !! Name recvTypeName in
        if negb (bool_decide (is_Some genRecvDecl)) && recvHasTypeArgs
        then Panic (GenericNotFound (Name recvTypeName))
        else Ok (genRecvDecl, Some recvTypeName, true)
    | Some _ => Panic InvalidReceiver
    | None => Ok (None, None, false)
    end;
  let fkey :=
    match recvTypeName with
    | Some recvTypeName => Name recvTypeName +:+ "." +:+ Name (FName funcDecl)
    | None => Name (FName funcDecl)
    end in
  let genFuncDecl := Generics trans !! fkey in
  match genFuncDecl, FTypeParams funcDecl with
  | None, Some _ => Panic (GenericNotFound fkey)
  | Some genFuncDecl, _ =>
      newFuncs ←
        mapM (fun usg =>
                newFunc ← expandReceiverType (Clone funcDecl) genRecvDecl usg;
                let newFunc := setName newFunc (concreteTypeName genFuncDecl usg) in
                n ← replaceIdentsInScope (NDecl (DFunc newFunc))
                      (types.u_typeMap usg);
                funcDeclOf n)
             (usagesList genFuncDecl);
      Ok (newFuncs, recvIsGeneric)
  | None, None =>
      match genRecvDecl with
      | Some genRecv =>
          newFuncs ←
            mapM (fun usg =>
                    newFunc ← expandReceiverType (Clone funcDecl) genRecvDecl usg;
                    n ← replaceIdentsInScope (NDecl (DFunc newFunc))
                          (types.u_typeMap usg);
                    funcDeclOf n)
                 (usagesList genRecv);
          Ok (newFuncs, recvIsGeneric)
      | None => Ok ([], recvIsGeneric)
      end
  end.

(** The comparison [sortFuncs] sorts with. *)
Definition funcLess (a b : FuncDecl) : bool :=
  if String.eqb (Name (FName a)) (Name (FName b))
  then String.ltb (Fprint a) (Fprint b)
  else String.ltb (Name (FName a)) (Name (FName b)).

Definition sortFuncs (funcs : list FuncDecl) : list FuncDecl :=
  sortSlice funcLess funcs.

(** The comparison the new specs of a [GenDecl] are sorted with. *)
Definition specLess (a b : Spec) : bool :=
  match a, b with
  | STypeSpec iSpec, STypeSpec jSpec =>
      String.ltb (Name (TSName iSpec)) (Name (TSName jSpec))
  | _, _ => true
  end.

(** The loop over [n.Specs] in [generateConcreteTypes]. *)
Fixpoint collectSpecs (specs : list Spec) (newTypeSpecs : list Spec)
    (used : bool) : result (list Spec * bool) :=
  match specs with
  | [] => Ok (newTypeSpecs, used)
  | spec :: specs' =>
      match spec with
      | STypeSpec typeSpec =>
          match Generics trans !! Name (TSName typeSpec) with
          | None => collectSpecs specs' (newTypeSpecs ++ [spec]) true
          | Some _ =>
              new ← generateTypeSpecs typeSpec;
              collectSpecs specs' (newTypeSpecs ++ new) used
          end
      | _ => collectSpecs specs' (newTypeSpecs ++ [spec]) true
      end
  end.

Fixpoint insertAll (c : Cursor) (newFuncs : list FuncDecl) : result Cursor :=
  match newFuncs with
  | [] => Ok c
  | newFunc :: rest =>
      c' ← InsertBefore c (NDecl (DFunc newFunc)); insertAll c' rest
  end.

(** Pass 1. *)
Definition generateConcreteTypes : PreFunc := fun c =>
  match node c with
  | NDecl (DGen n) =>
      '(newTypeSpecs, used) ← collectSpecs (Specs n) [] false;
      if (0 <? length newTypeSpecs)%nat then
        let newDecl := {| Tok := Tok (Clone n);
                          Specs := sortSlice specLess newTypeSpecs |} in
        Ok (Replace c (NDecl (DGen newDecl)), true)
      else if negb used then c' ← Delete c; Ok (c', true)
      else Ok (c, true)
  | NDecl (DFunc n) =>
      '(newFuncs, recvIsGeneric) ← generateFuncDecls n;
      if (length newFuncs =? 0)%nat then
        if recvIsGeneric || bool_decide (is_Some (FTypeParams n))
        then c' ← Delete c; Ok (c', true)
        else Ok (c, true)
      else
        c' ← insertAll c (sortFuncs newFuncs);
        c'' ← Delete c';
        Ok (c'', true)
  | _ => Ok (c, true)
  end.

(** Pass 2. *)
Definition replaceGenericIdents : PreFunc := fun c =>
  match node c with
  | NExpr (TypeArgExpr X Types) =>
      e ← concreteTypeExpr X Types; Ok (Replace c e, true)
  | NExpr (IndexExpr X Index) =>
      match X with
      | EIdent x =>
          match Generics trans !! Name x with
          | Some _ => e ← concreteTypeExpr X [Index]; Ok (Replace c e, true)
          | None => Ok (c, true)
          end
      | SelectorExpr _ _ =>
          match Selections (TInfo trans) X with
          | None => Ok (c, true)
          | Some selection =>
              let key :=
                match Kind selection with
                | FieldVal => types.o_name (Obj selection)
                | MethodVal =>
                    match SelRecv selection with
                    | types.ConcreteNamed named _ _ =>
                        types.o_name (types.n_obj named) +:+ "."
                          +:+ types.o_name (Obj selection)
                    | _ => ""
                    end
                | MethodExpr => ""
                end in
              if negb (String.eqb key "") then
                match Generics trans !! key with
                | Some _ => e ← concreteTypeExpr X [Index]; Ok (Replace c e, false)
                | None => Ok (c, true)
                end
              else Ok (c, true)
          end
      | _ => Ok (c, true)
      end
  | _ => Ok (c, true)
  end.

Definition File (f : ast.File) : result ast.File :=
  withConcreteTypes ← Apply generateConcreteTypes noPost (NFile f);
  result ← Apply replaceGenericIdents noPost withConcreteTypes;
  match result with
  | NFile resultFile => Ok resultFile
  | _ => Panic NonFileResult
  end.

(** The first pass alone. *)
Definition pass1 (f : ast.File) : result Node :=
  Apply generateConcreteTypes noPost (NFile f).

End transformer.

(** ** Reference forms for the transformer *)

Section type_arguments.
Context `{Env}.
Variable trans : Transformer.

(** The string one type argument contributes to a mangled name: the loop
    body of [formatTypeArgs]. *)
Definition typeArgString (arg : Expr) : result string :=
  match arg with
  | EIdent ident =>
      match Uses (TInfo trans) ident with
      | Some (TypeName _ true typ) => typeToSafeString <$> types.Underlying typ
      | _ => Ok (exprToSafeString arg)
      end
  | _ => Ok (exprToSafeString arg)
  end.
End type_arguments.

Section receivers.
Context `{Env}.

(** The receiver type with the type parameters of the generic receiver
    type added where the source left them out; the type parameters
    [genDecl.Type.TypeParams()] are those of the declaration. *)
Definition expandedRecv (genDecl : GenericDecl) (usg : GenericUsage) (e : Expr)
    : Expr :=
  let expand (x : Expr) : Expr :=
    match x with
    | EIdent n =>
        if String.eqb (Name n) (types.d_name genDecl)
        then TypeArgExpr (EIdent (NewIdent (Name n)))
               (recvTypeParams (types.d_typeParams genDecl) (types.u_typeMap usg))
        else x
    | _ => x
    end in
  match e with
  | StarExpr x => StarExpr (expand x)
  | _ => expand e
  end.

(** The receiver types of the language: [T], [*T], [T[...]], [*T[...]]. *)
Definition recvShape (e : Expr) : bool :=
  match e with
  | EIdent _ | TypeArgExpr _ _ => true
  | StarExpr (EIdent _) | StarExpr (TypeArgExpr _ _) => true
  | _ => false
  end.

Definition setRecv (funcDecl : FuncDecl) (recv : option FieldList) : FuncDecl :=
  {| Recv := recv; FName := FName funcDecl; FTypeParams := FTypeParams funcDecl;
     FParams := FParams funcDecl; FResults := FResults funcDecl;
     Body := Body funcDecl |}.

(** The type name of a receiver type: [T] in [T], [*T], [T[...]] and
    [*T[...]]. *)
Definition recvBase (e : Expr) : option Ident :=
  match e with
  | EIdent id | TypeArgExpr (EIdent id) _ => Some id
  | StarExpr (EIdent id) | StarExpr (TypeArgExpr (EIdent id) _) => Some id
  | _ => None
  end.
End receivers.

(** The nodes of a file that has nothing generic: no type-argument
    expression, declarations of one spec, functions without receiver and
    without type parameters. *)
Definition plainNode (n : Node) : bool :=
  match n with
  | NExpr (TypeArgExpr _ _) => false
  | NDecl (DGen g) => (length (Specs g) =? 1)%nat
  | NDecl (DFunc f) =>
      negb (bool_decide (is_Some (Recv f)))
      && negb (bool_decide (is_Some (FTypeParams f)))
  | _ => true
  end.

Section scoped_forms.
Context `{Env}.
Variable typeMap : gmap string Type_.

(** The scoped identifier rewrite on specs, statements and function
    declarations. *)
Definition substSpec (s : Spec) : Spec :=
  match s with
  | ImportSpec _ => s
  | ValueSpec names typ values =>
      ValueSpec (map (substSlot typeMap) names)
        (option_map (substIdents typeMap) typ) (map (substIdents typeMap) values)
  | STypeSpec ts =>
      STypeSpec {| TSName := substSlot typeMap (TSName ts);
                   TSTypeParams := TSTypeParams ts; TSAssign := TSAssign ts;
                   TSType := substIdents typeMap (TSType ts) |}
  end.

Definition specOk (s : Spec) : bool :=
  match s with
  | ImportSpec _ => true
  | ValueSpec names typ values =>
      forallb (slotOk typeMap) names
      && match typ with Some t => scopeOk typeMap t | None => true end
      && forallb (scopeOk typeMap) values
  | STypeSpec ts => slotOk typeMap (TSName ts) && scopeOk typeMap (TSType ts)
  end.

Definition substGenDecl (d : GenDecl) : GenDecl :=
  {| Tok := Tok d; Specs := map substSpec (Specs d) |}.

Fixpoint substStmt (s : Stmt) : Stmt :=
  match s with
  | DeclStmt d => DeclStmt (substGenDecl d)
  | ExprStmt x => ExprStmt (substIdents typeMap x)
  | AssignStmt lhs define rhs =>
      AssignStmt (map (substIdents typeMap) lhs) define
        (map (substIdents typeMap) rhs)
  | ReturnStmt results => ReturnStmt (map (substIdents typeMap) results)
  | BlockStmt l => BlockStmt (map substStmt l)
  end.

Fixpoint stmtOk (s : Stmt) : bool :=
  match s with
  | DeclStmt d => forallb specOk (Specs d)
  | ExprStmt x => scopeOk typeMap x
  | AssignStmt lhs _ rhs =>
      forallb (scopeOk typeMap) lhs && forallb (scopeOk typeMap) rhs
  | ReturnStmt results => forallb (scopeOk typeMap) results
  | BlockStmt l => forallb stmtOk l
  end.

Definition substFuncDecl (f : FuncDecl) : FuncDecl :=
  {| Recv := option_map (map (substField typeMap)) (Recv f);
     FName := substSlot typeMap (FName f);
     FTypeParams := FTypeParams f;
     FParams := map (substField typeMap) (FParams f);
     FResults := option_map (map (substField typeMap)) (FResults f);
     Body := option_map (map substStmt) (Body f) |}.

Definition fieldsOk (o : option FieldList) : bool :=
  match o with
  | Some l => forallb (fieldOk typeMap) l
  | None => true
  end.

Definition funcOk (f : FuncDecl) : bool :=
  fieldsOk (Recv f) && slotOk typeMap (FName f)
  && forallb (fieldOk typeMap) (FParams f) && fieldsOk (FResults f)
  && match Body f with Some l => forallb stmtOk l | None => true end.
End scoped_forms.

Section clone_forms.
Context `{Env}.

(** The clone of a generic function or method for a usage of it: renamed,
    without type parameters, with the identifiers rewritten. *)
Definition cloneFunc (genFuncDecl : GenericDecl) (funcDecl : FuncDecl)
    (usg : GenericUsage) : FuncDecl :=
  substFuncDecl (types.u_typeMap usg)
    (setName funcDecl (concreteTypeName genFuncDecl usg)).

(** The clone of a method of a generic type for a usage of the type: the
    receiver expanded, the identifiers rewritten. *)
Definition cloneMethod (genRecvDecl : GenericDecl) (funcDecl : FuncDecl)
    (names : list Ident) (recvType : Expr) (usg : GenericUsage) : FuncDecl :=
  substFuncDecl (types.u_typeMap usg)
    (setRecv funcDecl
       (Some [mkField names (expandedRecv genRecvDecl usg recvType)])).
End clone_forms.

End transform.

(** ** Example data *)

Module examples.
Import types.

Definition st0 : State := {| packages := ∅; pos := 0; errors := [] |}.

Definition mainObj (name : string) : object :=
  {| o_pkg := Some "main"; o_name := name |}.

Definition field (name : string) (t : Type_) : Var :=
  {| v_obj := mainObj name; v_typ := t; v_anonymous := false |}.

(** [*struct{ val T; next []U }] *)
Definition pointerToStruct : Type_ :=
  Pointer (Struct [field "val" (TypeParam "T"); field "next" (Slice (TypeParam "U"))] []).

(** [func(x T, rest ...T) map[string]T] *)
Definition variadicFunc : Type_ :=
  Signature
    {| s_recv := None;
       s_params := [field "x" (TypeParam "T"); field "rest" (Slice (TypeParam "T"))];
       s_results := [field "" (Map (Basic String) (TypeParam "T"))];
       s_variadic := true; s_typeParams := []; s_recvTypeParams := [];
       s_obj := None |}.

(** [T] is bound to [int]; [U] is inherited as [V]. *)
Definition intMap : gmap string Type_ :=
  {[ "T" := Basic Int; "U" := TypeParam "V" ]}.

(** [interface{ Get() T }] *)
Definition getterMethods : list Func :=
  [{| f_obj := mainObj "Get";
      f_typ := Signature
                 {| s_recv := None; s_params := [];
                    s_results := [field "" (TypeParam "T")];
                    s_variadic := false; s_typeParams := [];
                    s_recvTypeParams := []; s_obj := None |} |}].

Definition getter : Type_ := Interface getterMethods [] None.

(** [type List[T] []T] *)
Definition listT : NamedT :=
  {| n_obj := mainObj "List"; n_underlying := Slice (TypeParam "T");
     n_methods := []; n_typeParams := ["T"] |}.

(** The state once [List] is registered. *)
Definition declaredList : State :=
  {| packages :=
       {[ "main" := {[ "List" := {| d_name := "List"; d_typ := Named listT;
                                   d_typeParams := ["T"]; d_usages := ∅ |} ]} ]};
     pos := 0; errors := [] |}.

Definition ident (name : string) : ast.Expr := ast.EIdent (ast.NewIdent name).

(** The maps of the usages [List[int]] written twice, and of the partial
    usage [List[U]]. *)
Definition listOfInt : gmap string Type_ := {[ "T" := Basic Int ]}.
Definition listOfU : gmap string Type_ := {[ "T" := TypeParam "U" ]}.

Definition concreteList (elem : Type_) (typeMap : gmap string Type_) : Type_ :=
  ConcreteNamed
    {| n_obj := mainObj "List"; n_underlying := Slice elem;
       n_methods := []; n_typeParams := [] |} ["T"] typeMap.

(** [func (l List[T]) Head() T], attached to [List]. *)
Definition headMethod : Func :=
  {| f_obj := mainObj "Head";
     f_typ := Signature
                {| s_recv := Some (field "l" (Named listT)); s_params := [];
                   s_results := [field "" (TypeParam "T")];
                   s_variadic := false; s_typeParams := [];
                   s_recvTypeParams := ["T"]; s_obj := Some (mainObj "Head") |} |}.

Definition listWithHead : NamedT :=
  {| n_obj := mainObj "List"; n_underlying := Slice (TypeParam "T");
     n_methods := [headMethod]; n_typeParams := ["T"] |}.

(** The outer map of an instantiation at [U := int]. *)
Definition uToInt : gmap string Type_ := {[ "U" := Basic Int ]}.

(** [type Pair[K, V] struct { key K; val V }] and its declaration. *)
Definition pairT : NamedT :=
  {| n_obj := mainObj "Pair";
     n_underlying := Struct [field "key" (TypeParam "K"); field "val" (TypeParam "V")] [];
     n_methods := []; n_typeParams := ["K"; "V"] |}.

Definition declaredPair : State :=
  {| packages :=
       {[ "main" := {[ "Pair" := {| d_name := "Pair"; d_typ := Named pairT;
                                   d_typeParams := ["K"; "V"]; d_usages := ∅ |} ]} ]};
     pos := 0; errors := [] |}.

End examples.

(** ** Example files *)

Module files.
Import ast transform.

Definition ident (name : string) : Expr := EIdent (NewIdent name).

Definition noInfo : Info := {| Uses := fun _ => None; Selections := fun _ => None |}.

Definition usage (typeMap : gmap string types.Type_) : types.GenericUsage :=
  {| types.u_typeMap := typeMap; types.u_typ := types.TNil |}.

Definition typeDecl (name : string) (typeParams : list string) (body : Expr) : Decl :=
  DGen {| Tok := TYPE;
          Specs := [STypeSpec
                      {| TSName := NewIdent name;
                         TSTypeParams :=
                           match typeParams with
                           | [] => None
                           | _ => Some {| TPNames := map NewIdent typeParams |}
                           end;
                         TSAssign := false; TSType := body |}] |}.

Definition mainDecl (body : list Stmt) : Decl :=
  DFunc {| Recv := None; FName := NewIdent "main"; FTypeParams := None;
           FParams := []; FResults := None; Body := Some body |}.

(** [type S struct{}; func (s S) m() {}; func main() {}]: nothing generic. *)
Definition typeS : Decl := typeDecl "S" [] (StructType []).

Definition methodM : Decl :=
  DFunc {| Recv := Some [mkField [NewIdent "s"] (ident "S")];
           FName := NewIdent "m"; FTypeParams := None;
           FParams := []; FResults := None; Body := Some [] |}.

Definition plainFile : ast.File :=
  {| PkgName := NewIdent "main"; Decls := [typeS; methodM; mainDecl []] |}.

(** [type S struct{}; func (s S) m[T](x T) {}; func main() { S{}.m[int](1) }]:
    a generic method on a receiver that is not generic, used once. *)
Definition genericMethodM : Decl :=
  DFunc {| Recv := Some [mkField [NewIdent "s"] (ident "S")];
           FName := NewIdent "m";
           FTypeParams := Some {| TPNames := [NewIdent "T"] |};
           FParams := [mkField [NewIdent "x"] (ident "T")];
           FResults := None; Body := Some [] |}.

Definition genericMethodFile : ast.File :=
  {| PkgName := NewIdent "main";
     Decls := [typeS; genericMethodM;
               mainDecl [ExprStmt
                           (CallExpr
                              (IndexExpr
                                 (SelectorExpr (CompositeLit (Some (ident "S")) [])
                                    (NewIdent "m"))
                                 (ident "int"))
                              [BasicLit "1"])]] |}.

Definition genericMethodRegistry : gmap string types.GenericDecl :=
  {[ "S.m" := {| types.d_name := "m"; types.d_typ := types.TNil;
                 types.d_typeParams := ["T"];
                 types.d_usages := {[ "int" := usage {[ "T" := types.Basic types.Int ]} ]} |} ]}.

(** [type A[T] T; func (a A[T]) f() T { var x T; return x };
     func main() { var _ A[bool] }]: a generic type with a method, used
    once. *)
Definition methodF : Decl :=
  DFunc {| Recv := Some [mkField [NewIdent "a"] (TypeArgExpr (ident "A") [ident "T"])];
           FName := NewIdent "f"; FTypeParams := None; FParams := [];
           FResults := Some [mkField [] (ident "T")];
           Body := Some [DeclStmt {| Tok := VAR;
                                     Specs := [ValueSpec [NewIdent "x"] (Some (ident "T")) []] |};
                         ReturnStmt [ident "x"]] |}.

Definition genericTypeFile : ast.File :=
  {| PkgName := NewIdent "main";
     Decls := [typeDecl "A" ["T"] (ident "T"); methodF;
               mainDecl [DeclStmt
                           {| Tok := VAR;
                              Specs := [ValueSpec [NewIdent "_"]
                                          (Some (TypeArgExpr (ident "A") [ident "bool"]))
                                          []] |}]] |}.

Definition genericTypeRegistry : gmap string types.GenericDecl :=
  {[ "A" := {| types.d_name := "A"; types.d_typ := types.TNil;
               types.d_typeParams := ["T"];
               types.d_usages := {[ "bool" := usage {[ "T" := types.Basic types.Bool ]} ]} |} ]}.

(** Its transformation: [type A__bool bool;
     func (a A__bool) f() bool { var x bool; return x };
     func main() { var _ A__bool }]. *)
Definition concreteMethodF : Decl :=
  DFunc {| Recv := Some [mkField [NewIdent "a"] (ident "A__bool")];
           FName := NewIdent "f"; FTypeParams := None; FParams := [];
           FResults := Some [mkField [] (ident "bool")];
           Body := Some [DeclStmt {| Tok := VAR;
                                     Specs := [ValueSpec [NewIdent "x"] (Some (ident "bool")) []] |};
                         ReturnStmt [ident "x"]] |}.

Definition concreteMain : Decl :=
  mainDecl [DeclStmt {| Tok := VAR;
                        Specs := [ValueSpec [NewIdent "_"] (Some (ident "A__bool")) []] |}].

Definition concreteTypeFile : ast.File :=
  {| PkgName := NewIdent "main";
     Decls := [typeDecl "A__bool" [] (ident "bool"); concreteMethodF; concreteMain] |}.

(** [type B[T, U] struct { v T; w U }; func (b B[T, U]) f0[V]() {};
     func main() { B[int, string]{}.f0[string]() }]: a generic method
    called on a literal of its generic receiver type. *)
Definition literalB : Expr :=
  CompositeLit (Some (TypeArgExpr (ident "B") [ident "int"; ident "string"])) [].

Definition chainedCall : Expr :=
  CallExpr (IndexExpr (SelectorExpr literalB (NewIdent "f0")) (ident "string")) [].

Definition methodF0 : Decl :=
  DFunc {| Recv := Some [mkField [NewIdent "b"]
                           (TypeArgExpr (ident "B") [ident "T"; ident "U"])];
           FName := NewIdent "f0";
           FTypeParams := Some {| TPNames := [NewIdent "V"] |};
           FParams := []; FResults := None; Body := Some [] |}.

Definition chainedFile : ast.File :=
  {| PkgName := NewIdent "main";
     Decls := [typeDecl "B" ["T"; "U"]
                 (StructType [mkField [NewIdent "v"] (ident "T");
                              mkField [NewIdent "w"] (ident "U")]);
               methodF0;
               mainDecl [ExprStmt chainedCall]] |}.

Definition intString : gmap string types.Type_ :=
  {[ "T" := types.Basic types.Int; "U" := types.Basic types.String ]}.

Definition chainedRegistry : gmap string types.GenericDecl :=
  {[ "B" := {| types.d_name := "B"; types.d_typ := types.TNil;
               types.d_typeParams := ["T"; "U"];
               types.d_usages := {[ "int,string" := usage intString ]} |};
     "B.f0" := {| types.d_name := "f0"; types.d_typ := types.TNil;
                  types.d_typeParams := ["V"];
                  types.d_usages :=
                    {[ "int,string,string" :=
                         usage (<[ "V" := types.Basic types.String ]> intString) ]} |} ]}.

(** The selection the checker records for [B[int, string]{}.f0]: a method
    value whose receiver is the concrete named type. *)
Definition chainedInfo : Info :=
  {| Uses := fun _ => None;
     Selections := fun x =>
       match x with
       | SelectorExpr (CompositeLit (Some (TypeArgExpr (EIdent {| Name := "B" |}) _)) [])
           {| Name := "f0" |} =>
           Some {| Kind := MethodVal;
                   SelRecv :=
                     types.ConcreteNamed
                       {| types.n_obj := examples.mainObj "B";
                          types.n_underlying := types.Struct [] [];
                          types.n_methods := []; types.n_typeParams := [] |}
                       ["T"; "U"] intString;
                   Obj := examples.mainObj "f0" |}
       | _ => None
       end |}.

(** Its transformation: [type B__int__string struct { v int; w string };
     func (b B__int__string) f0__string() {};
     func main() { B[int, string]{}.f0__string() }]. *)
Definition chainedFileOut : ast.File :=
  {| PkgName := NewIdent "main";
     Decls := [typeDecl "B__int__string" []
                 (StructType [mkField [NewIdent "v"] (ident "int");
                              mkField [NewIdent "w"] (ident "string")]);
               DFunc {| Recv := Some [mkField [NewIdent "b"] (ident "B__int__string")];
                        FName := NewIdent "f0__string"; FTypeParams := None;
                        FParams := []; FResults := None; Body := Some [] |};
               mainDecl [ExprStmt
                           (CallExpr (SelectorExpr literalB (NewIdent "f0__string"))
                              [])]] |}.

(** [type T[U] struct{}; func f[T](x T) {}; func (T[U]) f0() {};
     func (T) f1() {}; func main() {}]: generic declarations that are
    never used (the input of TestTransformStructTypeUnused). *)
Definition genericFunc (name : string) (typeParam : string) (params : FieldList)
    (results : option FieldList) (body : list Stmt) : Decl :=
  DFunc {| Recv := None; FName := NewIdent name;
           FTypeParams := Some {| TPNames := [NewIdent typeParam] |};
           FParams := params; FResults := results; Body := Some body |}.

Definition methodOf (recv : Expr) (name : string) : Decl :=
  DFunc {| Recv := Some [mkField [] recv]; FName := NewIdent name;
           FTypeParams := None; FParams := []; FResults := None;
           Body := Some [] |}.

Definition unusedFile : ast.File :=
  {| PkgName := NewIdent "main";
     Decls := [typeDecl "T" ["U"] (StructType []);
               genericFunc "f" "T" [mkField [NewIdent "x"] (ident "T")] None [];
               methodOf (TypeArgExpr (ident "T") [ident "U"]) "f0";
               methodOf (ident "T") "f1";
               mainDecl []] |}.

Definition unusedDecl (name : string) (typeParams : list string)
    : types.GenericDecl :=
  {| types.d_name := name; types.d_typ := types.TNil;
     types.d_typeParams := typeParams; types.d_usages := ∅ |}.

Definition unusedRegistry : gmap string types.GenericDecl :=
  {[ "T" := unusedDecl "T" ["U"]; "f" := unusedDecl "f" ["T"] ]}.

(** [import "fmt"; func Print[T](t T) { fmt.Println(t) };
     func main() { Print[int](5); Print[string](s) }]: a generic function
    used at two types (after TestTransformFuncDecl). *)
Definition printBody : list Stmt :=
  [ExprStmt (CallExpr (SelectorExpr (ident "fmt") (NewIdent "Println")) [ident "t"])].

Definition printFile : ast.File :=
  {| PkgName := NewIdent "main";
     Decls := [DGen {| Tok := IMPORT; Specs := [ImportSpec "fmt"] |};
               genericFunc "Print" "T" [mkField [NewIdent "t"] (ident "T")] None
                 printBody;
               mainDecl [ExprStmt (CallExpr (IndexExpr (ident "Print") (ident "int"))
                                     [BasicLit "5"]);
                         ExprStmt (CallExpr (IndexExpr (ident "Print") (ident "string"))
                                     [ident "s"])]] |}.

Definition printRegistry : gmap string types.GenericDecl :=
  {[ "Print" :=
       {| types.d_name := "Print"; types.d_typ := types.TNil;
          types.d_typeParams := ["T"];
          types.d_usages :=
            {[ "int" := usage {[ "T" := types.Basic types.Int ]};
               "string" := usage {[ "T" := types.Basic types.String ]} ]} |} ]}.

Definition printClone (name typ : string) : Decl :=
  DFunc {| Recv := None; FName := NewIdent name; FTypeParams := None;
           FParams := [mkField [NewIdent "t"] (ident typ)];
           FResults := None; Body := Some printBody |}.

(** Its transformation: [func Print__int(t int) {...};
     func Print__string(t string) {...};
     func main() { Print__int(5); Print__string(s) }]. *)
Definition printFileOut : ast.File :=
  {| PkgName := NewIdent "main";
     Decls := [DGen {| Tok := IMPORT; Specs := [ImportSpec "fmt"] |};
               printClone "Print__int" "int";
               printClone "Print__string" "string";
               mainDecl [ExprStmt (CallExpr (ident "Print__int") [BasicLit "5"]);
                         ExprStmt (CallExpr (ident "Print__string") [ident "s"])]] |}.

(** [type List[T] []T], the type spec of [examples.listT]. *)
Definition listSpec : TypeSpec :=
  {| TSName := NewIdent "List";
     TSTypeParams := Some {| TPNames := [NewIdent "T"] |};
     TSAssign := false; TSType := ArrayType None (ident "T") |}.

(** The declarations of the registries above, and function declarations
    of the files, on their own. *)
Definition boolUsage : types.GenericUsage :=
  usage {[ "T" := types.Basic types.Bool ]}.

Definition declA : types.GenericDecl :=
  {| types.d_name := "A"; types.d_typ := types.TNil;
     types.d_typeParams := ["T"];
     types.d_usages := {[ "bool" := boolUsage ]} |}.

Definition declB : types.GenericDecl :=
  {| types.d_name := "B"; types.d_typ := types.TNil;
     types.d_typeParams := ["T"; "U"];
     types.d_usages := {[ "int,string" := usage intString ]} |}.

Definition declF0 : types.GenericDecl :=
  {| types.d_name := "f0"; types.d_typ := types.TNil;
     types.d_typeParams := ["V"];
     types.d_usages :=
       {[ "int,string,string" :=
            usage (<[ "V" := types.Basic types.String ]> intString) ]} |}.

Definition declPrint : types.GenericDecl :=
  {| types.d_name := "Print"; types.d_typ := types.TNil;
     types.d_typeParams := ["T"];
     types.d_usages :=
       {[ "int" := usage {[ "T" := types.Basic types.Int ]};
          "string" := usage {[ "T" := types.Basic types.String ]} ]} |}.

(** [func (a A[T]) f() T { var x T; return x }] *)
Definition funcF : FuncDecl :=
  {| Recv := Some [mkField [NewIdent "a"] (TypeArgExpr (ident "A") [ident "T"])];
     FName := NewIdent "f"; FTypeParams := None; FParams := [];
     FResults := Some [mkField [] (ident "T")];
     Body := Some [DeclStmt {| Tok := VAR;
                               Specs := [ValueSpec [NewIdent "x"] (Some (ident "T")) []] |};
                   ReturnStmt [ident "x"]] |}.

(** [func (a *A) g() {}]: the receiver leaves the type parameters out. *)
Definition funcG : FuncDecl :=
  {| Recv := Some [mkField [NewIdent "a"] (StarExpr (ident "A"))];
     FName := NewIdent "g"; FTypeParams := None; FParams := [];
     FResults := None; Body := Some [] |}.

(** [func (b B[T, U]) f0[V]() {}] *)
Definition funcF0 : FuncDecl :=
  {| Recv := Some [mkField [NewIdent "b"]
                     (TypeArgExpr (ident "B") [ident "T"; ident "U"])];
     FName := NewIdent "f0";
     FTypeParams := Some {| TPNames := [NewIdent "V"] |};
     FParams := []; FResults := None; Body := Some [] |}.

(** [func Print[T](t T) { fmt.Println(t) }] *)
Definition funcPrint : FuncDecl :=
  {| Recv := None; FName := NewIdent "Print";
     FTypeParams := Some {| TPNames := [NewIdent "T"] |};
     FParams := [mkField [NewIdent "t"] (ident "T")];
     FResults := None; Body := Some printBody |}.

Definition printCloneFunc (name typ : string) : FuncDecl :=
  {| Recv := None; FName := NewIdent name; FTypeParams := None;
     FParams := [mkField [NewIdent "t"] (ident typ)];
     FResults := None; Body := Some printBody |}.

(** [import "fmt"; type S struct{}; func main() { fmt.Println(t) }]:
    nothing generic and no method. *)
Definition plainProgram : ast.File :=
  {| PkgName := NewIdent "main";
     Decls := [DGen {| Tok := IMPORT; Specs := [ImportSpec "fmt"] |};
               typeS; mainDecl printBody] |}.

End files.

(** ** A reference environment

    Concrete stand-ins for the functions the two [Env] classes leave open,
    used to run the model on examples. *)

Module reference.
Import ast types.
Import Ascii.

Definition basicName (kind : BasicKind) : string :=
  match kind with
  | Invalid => "invalid type"
  | Bool => "bool" | Int => "int" | Int8 => "int8" | Int16 => "int16"
  | Int32 => "int32" | Int64 => "int64"
  | Uint => "uint" | Uint8 => "uint8" | Uint16 => "uint16"
  | Uint32 => "uint32" | Uint64 => "uint64" | Uintptr => "uintptr"
  | Float32 => "float32" | Float64 => "float64"
  | Complex64 => "complex64" | Complex128 => "complex128"
  | String => "string" | UnsafePointer => "unsafe.Pointer"
  | UntypedBool => "untyped bool" | UntypedInt => "untyped int"
  | UntypedRune => "untyped rune" | UntypedFloat => "untyped float"
  | UntypedComplex => "untyped complex" | UntypedString => "untyped string"
  | UntypedNil => "untyped nil"
  end.

Definition objectName (o : object) : string :=
  match o_pkg o with
  | Some pkg => pkg +:+ "." +:+ o_name o
  | None => o_name o
  end.

(** Modelled from the spec: the string form of a type (the printer of
    types is not among the sources), in the notation of the language. *)
Fixpoint TypeString (t : Type_) : string :=
  let vars (l : list Var) : string :=
    String.concat ", "
      (map (fun v => o_name (v_obj v) +:+ " " +:+ TypeString (v_typ v)) l) in
  let sig (s : Sig) : string :=
    "(" +:+ vars (s_params s) +:+ ")"
    +:+ match s_results s with
        | [] => ""
        | _ => " (" +:+ vars (s_results s) +:+ ")"
        end in
  match t with
  | TNil => "<nil>"
  | Basic kind => basicName kind
  | Array len elem => "[" +:+ pretty len +:+ "]" +:+ TypeString elem
  | Slice elem => "[]" +:+ TypeString elem
  | TypeParam name => name
  | Struct fields _ =>
      "struct{"
      +:+ String.concat "; "
            (map (fun v => o_name (v_obj v) +:+ " " +:+ TypeString (v_typ v)) fields)
      +:+ "}"
  | Pointer base => "*" +:+ TypeString base
  | Tuple vs => "(" +:+ vars vs +:+ ")"
  | Signature s => "func" +:+ sig s
  | ConcreteSignature s _ _ => "func" +:+ sig s
  | Interface methods _ _ =>
      "interface{"
      +:+ String.concat "; " (map (fun m => o_name (f_obj m)) methods) +:+ "}"
  | Map key elem => "map[" +:+ TypeString key +:+ "]" +:+ TypeString elem
  | Chan SendRecv elem => "chan " +:+ TypeString elem
  | Chan SendOnly elem => "chan<- " +:+ TypeString elem
  | Chan RecvOnly elem => "<-chan " +:+ TypeString elem
  | Named n => objectName (n_obj n)
  | ConcreteNamed n tps tm =>
      objectName (n_obj n) +:+ "["
      +:+ String.concat ", "
            (map (fun p => match tm !! p with
                           | Some (Basic kind) => basicName kind
                           | Some (TypeParam name) => name
                           | _ => "?"
                           end) tps)
      +:+ "]"
  end.

Definition isUpper (a : ascii) : bool :=
  let n := nat_of_ascii a in (65 <=? n)%nat && (n <=? 90)%nat.

(** Modelled from the spec: the identity of an object in a set of
    objects: the name when exported, else the name qualified by the
    package path. *)
Definition Id (o : object) : string :=
  match o_name o with
  | String.String a _ =>
      if isUpper a then o_name o
      else default "_" (o_pkg o) +:+ "." +:+ o_name o
  | EmptyString => default "_" (o_pkg o) +:+ "." +:+ o_name o
  end.

Definition basicOfName (name : string) : option BasicKind :=
  if String.eqb name "bool" then Some Bool
  else if String.eqb name "int" then Some Int
  else if String.eqb name "int8" then Some Int8
  else if String.eqb name "int64" then Some Int64
  else if String.eqb name "uint" then Some Uint
  else if String.eqb name "float64" then Some Float64
  else if String.eqb name "string" then Some String
  else None.

(** A stand-in for the checker on type expressions: the predeclared
    names, pointers, slices and maps; an identifier that is not
    predeclared is taken for a type parameter; anything else has no
    type. *)
Fixpoint typeOfExpr (e : Expr) : Type_ :=
  match e with
  | EIdent id =>
      match basicOfName (Name id) with
      | Some kind => Basic kind
      | None => TypeParam (Name id)
      end
  | StarExpr x => Pointer (typeOfExpr x)
  | ArrayType None elt => Slice (typeOfExpr elt)
  | MapType k v => Map (typeOfExpr k) (typeOfExpr v)
  | _ => TNil
  end.

#[export] Instance typesEnv : types.Env := {|
  types.TypeString := TypeString;
  types.Id := Id;
  types.rawExpr := fun e => mret (typeOfExpr e);
|}.

Definition isSafe (a : ascii) : bool :=
  let n := nat_of_ascii a in
  ((48 <=? n) && (n <=? 57) || (65 <=? n) && (n <=? 90)
   || (97 <=? n) && (n <=? 122) || (n =? 95))%nat.

(** Modelled from the spec: "Map every character not in [A-Za-z0-9_] to
    _". *)
Fixpoint safe (s : string) : string :=
  match s with
  | EmptyString => EmptyString
  | String.String a s' =>
      String.String (if isSafe a then a else "_"%char) (safe s')
  end.

(** The printed form of an expression. *)
Fixpoint exprString (e : Expr) : string :=
  let fields (l : list Field) : string :=
    String.concat "; "
      (map (fun f => String.concat ", " (map Name (Names f)) +:+ " "
                       +:+ exprString (FType f)) l) in
  match e with
  | EIdent id => Name id
  | BasicLit v => v
  | CompositeLit typ elts =>
      match typ with Some t => exprString t | None => "" end
      +:+ "{" +:+ String.concat ", " (map exprString elts) +:+ "}"
  | ParenExpr x => "(" +:+ exprString x +:+ ")"
  | SelectorExpr x sel => exprString x +:+ "." +:+ Name sel
  | IndexExpr x i => exprString x +:+ "[" +:+ exprString i +:+ "]"
  | TypeArgExpr x ts =>
      exprString x +:+ "[" +:+ String.concat ", " (map exprString ts) +:+ "]"
  | CallExpr f args =>
      exprString f +:+ "(" +:+ String.concat ", " (map exprString args) +:+ ")"
  | StarExpr x => "*" +:+ exprString x
  | KeyValueExpr k v => exprString k +:+ ": " +:+ exprString v
  | ArrayType len elt =>
      "[" +:+ match len with Some l => exprString l | None => "" end +:+ "]"
      +:+ exprString elt
  | StructType fs => "struct{" +:+ fields fs +:+ "}"
  | FuncType ps rs =>
      "func(" +:+ fields ps +:+ ")"
      +:+ match rs with Some rs => " (" +:+ fields rs +:+ ")" | None => "" end
  | MapType k v => "map[" +:+ exprString k +:+ "]" +:+ exprString v
  | ChanType _ v => "chan " +:+ exprString v
  end.

(** Modelled from the spec: the syntactic form of a type, "identifier,
    selector, pointer, slice, array, map, channel, etc.". *)
Fixpoint typeToExpr (t : Type_) : Expr :=
  let fields (l : list Var) : list Field :=
    map (fun v => mkField [NewIdent (o_name (v_obj v))] (typeToExpr (v_typ v))) l in
  match t with
  | Basic kind => EIdent (NewIdent (basicName kind))
  | Array len elem =>
      ArrayType (Some (BasicLit (pretty len))) (typeToExpr elem)
  | Slice elem => ArrayType None (typeToExpr elem)
  | TypeParam name => EIdent (NewIdent name)
  | Struct fs _ => StructType (fields fs)
  | Pointer base => StarExpr (typeToExpr base)
  | Signature s | ConcreteSignature s _ _ =>
      FuncType (fields (s_params s))
        (match s_results s with [] => None | rs => Some (fields rs) end)
  | Map key elem => MapType (typeToExpr key) (typeToExpr elem)
  | Chan SendRecv elem => ChanType SENDRECV (typeToExpr elem)
  | Chan SendOnly elem => ChanType SEND (typeToExpr elem)
  | Chan RecvOnly elem => ChanType RECV (typeToExpr elem)
  | Named n => EIdent (NewIdent (o_name (n_obj n)))
  | ConcreteNamed n tps tm =>
      TypeArgExpr (EIdent (NewIdent (o_name (n_obj n))))
        (map (fun p => match tm !! p with
                       | Some (Basic kind) => EIdent (NewIdent (basicName kind))
                       | Some (TypeParam name) => EIdent (NewIdent name)
                       | _ => EIdent (NewIdent "_")
                       end) tps)
  | TNil | Tuple _ | Interface _ _ _ => EIdent (NewIdent (TypeString t))
  end.

(** Insertion sort, as the sort package runs it on a short slice. *)
Fixpoint insertSorted {A} (less : A → A → bool) (x : A) (sorted : list A)
    : list A :=
  match sorted with
  | [] => [x]
  | y :: rest =>
      if less x y then x :: sorted else y :: insertSorted less x rest
  end.

Definition insertionSort {A} (less : A → A → bool) (l : list A) : list A :=
  foldl (fun sorted x => insertSorted less x sorted) [] l.

Lemma insertSorted_perm {A} (less : A → A → bool) x sorted :
  insertSorted less x sorted ≡ₚ x :: sorted.
Proof.
  induction sorted as [|y rest IH]; simpl; [done|].
  destruct (less x y); [done|]. rewrite IH. apply Permutation_swap.
Qed.

Lemma insertionSort_perm {A} (less : A → A → bool) l :
  insertionSort less l ≡ₚ l.
Proof.
  unfold insertionSort. rewrite <- (app_nil_r l) at 2.
  generalize (@nil A) as acc.
  induction l as [|x l IH]; intros acc; simpl; [done|].
  rewrite IH, insertSorted_perm. by rewrite Permutation_middle.
Qed.

#[export] Instance transformEnv : transform.Env := {|
  transform.typeToExpr := typeToExpr;
  transform.typeToSafeString := fun t => safe (TypeString t);
  transform.exprToSafeString := fun e => safe (exprString e);
  transform.Fprint := fun f =>
    match Recv f with
    | Some [field] => exprString (FType field) +:+ "." +:+ Name (FName f)
    | _ => Name (FName f)
    end;
  transform.sortPerm := @insertionSort;
  transform.sortPerm_perm := @insertionSort_perm;
|}.

End reference.


(** * Properties *)

Module generics_spec.
Import types.

Section monad.
Lemma bind_Ok {A B} (m : M A) (k : A → M B) st a st' :
  m st = Ok (a, st') → (m ≫= k) st = k a st'.
Proof. intros Hm. unfold mbind, M_bind. by rewrite Hm. Qed.

Lemma fmap_Ok {A B} (f : A → B) (m : M A) st a st' :
  m st = Ok (a, st') → (f <$> m) st = Ok (f a, st').
Proof. intros Hm. unfold fmap, M_fmap. by rewrite Hm. Qed.
End monad.

Section registry.
Context `{Env}.

Lemma hasTypeParam_true (typeMap : gmap string Type_) :
  hasTypeParam typeMap = true ↔ ∃ k p, typeMap !! k = Some (TypeParam p).
Proof.
  unfold hasTypeParam. rewrite existsb_exists. split.
  - intros [[k t] [Hin Ht]]. apply list_elem_of_In, elem_of_map_to_list in Hin.
    destruct t; try discriminate. eauto.
  - intros (k & p & Hk). exists (k, TypeParam p). split; [|done].
    by apply list_elem_of_In, elem_of_map_to_list.
Qed.

Lemma hasTypeParam_false (typeMap : gmap string Type_) :
  hasTypeParam typeMap = false ↔
  ∀ k t, typeMap !! k = Some t → isTypeParam t = false.
Proof.
  split.
  - intros Hf k t Hk. destruct (isTypeParam t) eqn:Ht; [|done].
    destruct t; try discriminate.
    assert (hasTypeParam typeMap = true) by (apply hasTypeParam_true; eauto).
    congruence.
  - intros Hall. destruct (hasTypeParam typeMap) eqn:Ht; [|done].
    apply hasTypeParam_true in Ht as (k & p & Hk).
    apply Hall in Hk. discriminate.
Qed.

(** What a successful [addGenericUsage] on a complete map does. *)
Lemma addGenericUsage_Ok genObj typ typeMap st st' :
  hasTypeParam typeMap = false →
  addGenericUsage genObj typ typeMap st = Ok (tt, st') →
  ∃ pkg generics genDecl key,
    o_pkg genObj = Some pkg ∧ packages st !! pkg = Some generics
    ∧ generics !! o_name genObj = Some genDecl
    ∧ usageKey typeMap (d_typeParams genDecl) = Ok key
    ∧ st' = set_packages
              (<[pkg :=
                 <[o_name genObj :=
                    {| d_name := d_name genDecl; d_typ := d_typ genDecl;
                       d_typeParams := d_typeParams genDecl;
                       d_usages := <[key := {| u_typeMap := typeMap; u_typ := typ |}]>
                                     (d_usages genDecl) |}]> generics]>
                 (packages st)) st.
Proof.
  intros Hc. unfold addGenericUsage. rewrite Hc.
  destruct (o_pkg genObj) as [pkg|]; [|done].
  destruct (packages st !! pkg) as [generics|] eqn:Hp; simpl.
  - destruct (generics !! o_name genObj) as [genDecl|] eqn:Hd; [|done].
    destruct (usageKey typeMap (d_typeParams genDecl)) as [key|] eqn:Hk; [|done].
    simpl. intros [= <-]. by exists pkg, generics, genDecl, key.
  - by rewrite lookup_empty.
Qed.

Lemma addGenericDecl_Ok obj objTyp typeParams st st' :
  addGenericDecl obj objTyp typeParams st = Ok (tt, st') →
  ∃ pkg,
    o_pkg obj = Some pkg
    ∧ st' = set_packages
              (<[pkg :=
                 <[o_name obj :=
                    {| d_name := o_name obj; d_typ := objTyp;
                       d_typeParams := typeParams; d_usages := ∅ |}]>
                   (default ∅ (packages st !! pkg))]> (packages st)) st.
Proof.
  unfold addGenericDecl. destruct (o_pkg obj) as [pkg|]; [|done].
  intros [= <-]. by exists pkg.
Qed.

Lemma addGenericDecl_complete obj objTyp typeParams st st' :
  completeRegistry st →
  addGenericDecl obj objTyp typeParams st = Ok (tt, st') →
  completeRegistry st'.
Proof.
  intros Hst Hrun. apply addGenericDecl_Ok in Hrun as (pkg & Hpkg & ->).
  intros pkg' generics' name decl key u. simpl.
  destruct (decide (pkg = pkg')) as [<-|Hne].
  - rewrite lookup_insert_eq. intros [= <-].
    destruct (decide (o_name obj = name)) as [<-|Hn].
    + rewrite lookup_insert_eq. intros [= <-]. simpl. by rewrite lookup_empty.
    + rewrite lookup_insert_ne by done.
      destruct (packages st !! pkg) as [generics|] eqn:Hp; simpl.
      * intros Hd Hu. by eapply Hst.
      * by rewrite lookup_empty.
  - rewrite lookup_insert_ne by done. intros Hp Hd Hu. by eapply Hst.
Qed.

Lemma addGenericUsage_complete genObj typ typeMap st st' :
  completeRegistry st →
  addGenericUsage genObj typ typeMap st = Ok (tt, st') →
  completeRegistry st'.
Proof.
  intros Hst Hrun. destruct (hasTypeParam typeMap) eqn:Hc.
  { unfold addGenericUsage in Hrun. rewrite Hc in Hrun. by injection Hrun as <-. }
  apply addGenericUsage_Ok in Hrun
    as (pkg & generics & genDecl & key0 & Hpkg & Hp & Hd & Hk & ->); [|done].
  intros pkg' generics' name decl key u. simpl.
  destruct (decide (pkg = pkg')) as [<-|Hne].
  - rewrite lookup_insert_eq. intros [= <-].
    destruct (decide (o_name genObj = name)) as [<-|Hn].
    + rewrite lookup_insert_eq. intros [= <-]. simpl.
      destruct (decide (key0 = key)) as [<-|Hkey].
      * rewrite lookup_insert_eq. intros [= <-].
        unfold completeUsage. simpl. by apply hasTypeParam_false.
      * rewrite lookup_insert_ne by done. intros Hu. by eapply Hst.
    + rewrite lookup_insert_ne by done. intros Hd' Hu. by eapply Hst.
  - rewrite lookup_insert_ne by done. intros Hp' Hd' Hu. by eapply Hst.
Qed.

Lemma runOps_complete ops st st' :
  completeRegistry st → runOps ops st = Ok (tt, st') → completeRegistry st'.
Proof.
  revert st. induction ops as [|op ops IH]; intros st Hst; simpl.
  - by intros [= <-].
  - unfold mbind, M_bind.
    destruct (runOp op st) as [[[] st1]|] eqn:Hop; [|done].
    intros Hrest. apply (IH st1); [|done].
    destruct op; simpl in Hop.
    + by eapply addGenericDecl_complete.
    + by eapply addGenericUsage_complete.
Qed.

(** A declaration, once registered, stays registered. *)
Lemma runOp_declared obj op st st' :
  declared obj st → runOp op st = Ok (tt, st') → declared obj st'.
Proof.
  intros (pkg & generics & Hpkg & Hp & Hd) Hop. destruct op; simpl in Hop.
  - apply addGenericDecl_Ok in Hop as (pkg' & Hpkg' & ->).
    destruct (decide (pkg' = pkg)) as [->|Hne].
    + eexists pkg, _. split; [done|]. simpl. rewrite lookup_insert_eq.
      split; [done|]. rewrite Hp. simpl.
      destruct (decide (o_name obj0 = o_name obj)) as [->|Hn].
      * rewrite lookup_insert_eq. eauto.
      * by rewrite lookup_insert_ne.
    + exists pkg, generics. split; [done|]. simpl.
      by rewrite lookup_insert_ne.
  - destruct (hasTypeParam typeMap) eqn:Hc.
    { unfold addGenericUsage in Hop. rewrite Hc in Hop. injection Hop as <-.
      by exists pkg, generics. }
    apply addGenericUsage_Ok in Hop
      as (pkg' & generics' & genDecl & key0 & Hpkg' & Hp' & Hd' & Hk & ->); [|done].
    destruct (decide (pkg' = pkg)) as [->|Hne].
    + eexists pkg, _. split; [done|]. simpl. rewrite lookup_insert_eq.
      split; [done|]. assert (generics' = generics) as -> by congruence.
      destruct (decide (o_name genObj = o_name obj)) as [->|Hn].
      * rewrite lookup_insert_eq. eauto.
      * by rewrite lookup_insert_ne.
    + exists pkg, generics. split; [done|]. simpl.
      by rewrite lookup_insert_ne.
Qed.

Lemma runOps_declared obj ops st st' :
  declared obj st → runOps ops st = Ok (tt, st') → declared obj st'.
Proof.
  revert st. induction ops as [|op ops IH]; intros st Hst; simpl.
  - by intros [= <-].
  - unfold mbind, M_bind.
    destruct (runOp op st) as [[[] st1]|] eqn:Hop; [|done].
    intros Hrest. apply (IH st1); [|done]. by eapply runOp_declared.
Qed.

Lemma addGenericDecl_declared obj objTyp typeParams st st' :
  addGenericDecl obj objTyp typeParams st = Ok (tt, st') → declared obj st'.
Proof.
  intros Hrun. apply addGenericDecl_Ok in Hrun as (pkg & Hpkg & ->).
  eexists pkg, _. split; [done|]. simpl. rewrite lookup_insert_eq.
  split; [done|]. rewrite lookup_insert_eq. eauto.
Qed.

Lemma declared_not_missing obj typ typeMap st pkg name :
  declared obj st →
  addGenericUsage obj typ typeMap st ≠ Panic (DeclarationNotFound pkg name).
Proof.
  intros (p & generics & Hpkg & Hp & [decl Hd]).
  unfold addGenericUsage. destruct (hasTypeParam typeMap); [done|].
  rewrite Hpkg, Hp. simpl. rewrite Hd.
  destruct (usageKey typeMap (d_typeParams decl)) as [key|q] eqn:Hk; [done|].
  (* the only panic left is the nil dereference of [usageKey] *)
  simpl. intros [= ->]. unfold usageKey in Hk.
  destruct (mapM _ (d_typeParams decl)) as [l|q'] eqn:Hm; [done|].
  simpl in Hk. injection Hk as ->.
  clear -Hm. induction (d_typeParams decl) as [|t l IH]; [done|].
  simpl in Hm. unfold String_ at 1 in Hm.
  destruct (index typeMap t); simpl in Hm; try done;
    destruct (mapM _ l); simpl in Hm; try done; by apply IH.
Qed.
End registry.

Section substitution.
Context `{Env}.
Implicit Types (M : gmap string Type_) (st : State).

Lemma insertFields_substVar M fset (fields : list Var) :
  insertFields fset (map (substVar M) fields) = insertFields fset fields.
Proof.
  revert fset. induction fields as [|f fields IH]; intros fset; [done|].
  simpl. destruct (String.eqb _ _); [done|].
  destruct (bool_decide _); [done|]. apply IH.
Qed.

Lemma NewStruct_substVar M (fields : list Var) tags :
  isOk (NewStruct fields tags) = true →
  NewStruct (map (substVar M) fields) tags
  = Ok (Struct (map (substVar M) fields) tags).
Proof.
  unfold NewStruct. rewrite insertFields_substVar, length_map.
  destruct (insertFields ∅ fields); simpl; [|done].
  by destruct (_ <? _)%nat.
Qed.

Lemma last_substVar M (params : list Var) :
  last (map (substVar M) params) = substVar M <$> last params.
Proof. by rewrite <- fmap_last. Qed.

Lemma NewSignature_substVar M recv (params results : list Var)
    variadic typeParams recvTypeParams :
  isOk (NewSignature recv params results variadic typeParams recvTypeParams)
  = true →
  NewSignature (option_map (substVar M) recv) (map (substVar M) params)
    (map (substVar M) results) variadic typeParams recvTypeParams
  = Ok {| s_recv := option_map (substVar M) recv;
          s_params := map (substVar M) params;
          s_results := map (substVar M) results;
          s_variadic := variadic; s_typeParams := typeParams;
          s_recvTypeParams := recvTypeParams; s_obj := None |}.
Proof.
  unfold NewSignature. rewrite last_substVar.
  destruct variadic.
  - destruct (last params) as [p|]; simpl; [|done].
    destruct (v_typ p); simpl; try done.
    destruct (0 <? length typeParams)%nat; [|done].
    destruct (insertTypeParams ∅ typeParams); simpl; [|done].
    by destruct (insertTypeParams _ recvTypeParams).
  - simpl. destruct (0 <? length typeParams)%nat; [|done].
    destruct (insertTypeParams ∅ typeParams); simpl; [|done].
    by destruct (insertTypeParams _ recvTypeParams).
Qed.

Lemma mapM_replaceVar M (vars : list Var) :
  Forall (fun v => structural (v_typ v) = true →
            ∀ st, replaceTypes (v_typ v) M st = Ok (substitute M (v_typ v), st))
         vars →
  forallb (fun v => structural (v_typ v)) vars = true →
  ∀ st, mapM (replaceVar replaceTypes M) vars st
        = Ok (map (substVar M) vars, st).
Proof.
  induction 1 as [|v vars Hv _ IH]; intros Hall st; [done|].
  simpl in Hall. apply andb_true_iff in Hall as [Hs Hall].
  simpl.
  erewrite bind_Ok; last first.
  { unfold replaceVar. erewrite bind_Ok; [|by apply Hv]. done. }
  erewrite bind_Ok; [|by apply IH]. done.
Qed.

(** C3 (as amended): on every root type built from basic types and type
    parameters with pointers, slices, arrays, channels, maps, structs and
    signatures, every struct and signature being one its constructor
    accepts, [replaceTypes] returns, without panicking and without
    touching the state, the type of the same shape in which every
    type-parameter leaf [p] with [M[p]] present and not itself a type
    parameter is replaced by [M[p]], the other leaves being left
    intact ([substitute]). *)
Theorem replaceTypes_substitute M (t : Type_) :
  structural t = true →
  ∀ st, replaceTypes t M st = Ok (substitute M t, st).
Proof.
  induction t as
    [ | kind | len elem IH | elem IH | name | fields tags IH | base IH
    | vars IH | sig IH | sig tps tm IH | ms es am IHm IHe
    | key elem IHk IHe | dir elem IH | named IH | named tps tm IH ]
    using Type_ind'; intros Hs st; simpl in Hs; try discriminate.
  - done.
  - simpl. erewrite bind_Ok; [|by apply IH]. done.
  - simpl. erewrite bind_Ok; [|by apply IH]. done.
  - simpl. destruct (M !! name) as [u|]; [|done]. by destruct (isTypeParam u).
  - apply andb_true_iff in Hs as [Hf Hok].
    simpl. unfold replaceTypesInStruct.
    erewrite bind_Ok; [|by apply mapM_replaceVar].
    unfold lift. by rewrite (NewStruct_substVar M fields tags Hok).
  - simpl. erewrite bind_Ok; [|by apply IH]. done.
  - destruct sig as [recv params results variadic tps rtps obj].
    destruct IH as (IHr & IHp & IHres). simpl in *.
    repeat (apply andb_true_iff in Hs as [Hs ?]).
    apply fmap_Ok. unfold replaceTypesInSignature. simpl.
    erewrite bind_Ok; last first.
    { instantiate (1 := st). instantiate (1 := option_map (substVar M) recv).
      destruct recv as [r|]; [|done]. simpl.
      apply fmap_Ok. unfold replaceVar. 
      erewrite bind_Ok; [|by apply IHr]. done. }
    erewrite bind_Ok; [|by apply mapM_replaceVar].
    erewrite bind_Ok; [|by apply mapM_replaceVar].
    erewrite bind_Ok; last first.
    { unfold lift.
      by rewrite (NewSignature_substVar M recv params results variadic tps rtps). }
    done.
  - apply andb_true_iff in Hs as [Hk He].
    simpl. erewrite bind_Ok; [|by apply IHk]. erewrite bind_Ok; [|by apply IHe]. done.
  - simpl. erewrite bind_Ok; [|by apply IH]. done.
Qed.

End substitution.

Section claims.
Context `{Env}.

Lemma completeRegistry_empty pos errors :
  completeRegistry {| packages := ∅; pos := pos; errors := errors |}.
Proof. intros pkg generics name decl key u. simpl. by rewrite lookup_empty. Qed.

(** C5: the generic registry never contains a partial usage. In every
    state reached from a complete registry through register-decl and
    record-usage calls, a record-usage call whose map has a value that
    is itself a type parameter returns with the state unchanged, and
    every recorded usage has a map without type-parameter values. *)
Theorem partial_usage_never_recorded ops st st' genObj typ
    (typeMap : gmap string Type_) :
  completeRegistry st →
  runOps ops st = Ok (tt, st') →
  (∃ k p, typeMap !! k = Some (TypeParam p)) →
  addGenericUsage genObj typ typeMap st' = Ok (tt, st')
  ∧ completeRegistry st'.
Proof.
  intros Hst Hrun Hpartial. split.
  - unfold addGenericUsage.
    by rewrite (proj2 (hasTypeParam_true typeMap) Hpartial).
  - by eapply runOps_complete.
Qed.

(** C10: record-usage has register-decl as a precondition. With a map
    free of type-parameter values and no entry under the object's name
    in the registry of its package, [addGenericUsage] panics with
    "declaration not found for generic object"; once [addGenericDecl]
    has run for the object, no later [addGenericUsage] for it raises
    that panic. *)
Theorem usage_requires_declaration :
  (∀ genObj pkg typ (typeMap : gmap string Type_) st,
     o_pkg genObj = Some pkg →
     (∀ k t, typeMap !! k = Some t → isTypeParam t = false) →
     default ∅ (packages st !! pkg) !! o_name genObj = None →
     addGenericUsage genObj typ typeMap st
     = Panic (DeclarationNotFound (o_pkg genObj) (o_name genObj)))
  ∧ (∀ obj objTyp typeParams ops st st1 st2 typ typeMap pkg name,
       addGenericDecl obj objTyp typeParams st = Ok (tt, st1) →
       runOps ops st1 = Ok (tt, st2) →
       addGenericUsage obj typ typeMap st2
       ≠ Panic (DeclarationNotFound pkg name)).
Proof.
  split.
  - intros genObj pkg typ typeMap st Hpkg Hcomplete Hmissing.
    unfold addGenericUsage.
    rewrite (proj2 (hasTypeParam_false typeMap) Hcomplete), Hpkg.
    by rewrite Hmissing.
  - intros obj objTyp typeParams ops st st1 st2 typ typeMap pkg name Hdecl Hops.
    apply declared_not_missing. eapply runOps_declared; [|done].
    by eapply addGenericDecl_declared.
Qed.

(** [createTypeMap] on an arity mismatch: the diagnostic carries both
    counts and the nil map is returned. *)
Lemma createTypeMap_mismatch (params : list ast.Expr) genericParams st :
  length params ≠ length genericParams →
  createTypeMap params genericParams st
  = Ok (∅, {| packages := packages st; pos := pos st;
              errors := errors st
                        ++ [(pos st, WrongNumberOfTypeParameters
                                       (length genericParams) (length params))] |}).
Proof.
  intros Hne. unfold createTypeMap.
  by destruct (Nat.eqb_spec (length params) (length genericParams)).
Qed.

(** No path of [concreteType] returns the Invalid type. *)
Lemma concreteType_not_Invalid X Params genType st r st' :
  concreteType X Params genType st = Ok (r, st') → r ≠ Basic Invalid.
Proof.
  unfold concreteType, mbind, M_bind, mret, M_ret.
  destruct genType; try (intros [= <- <-]; done).
  - destruct (createTypeMap _ _ st) as [[tm s1]|]; [|done].
    destruct (replaceTypesInSignature _ _ _ s1) as [[sg s2]|]; [|done].
    destruct (s_obj sig) as [o|].
    + destruct (addGenericUsage _ _ _ s2) as [[[] s3]|]; [|done].
      by intros [= <- <-].
    + by intros [= <- <-].
  - destruct (createTypeMap _ _ st) as [[tm s1]|]; [|done].
    destruct (replaceTypesInNamed _ _ _ s1) as [[nn s2]|]; [|done].
    destruct (replaceTypesInMethods _ _ _ s2) as [[ms s3]|]; [|done].
    destruct (addGenericUsage _ _ _ s3) as [[[] s4]|]; [|done].
    by intros [= <- <-].
Qed.

(** C7 (the code departs from it): on [List[int, string]], with
    [type List[T] []T] declared, [createTypeMap] reports the arity
    error with both counts, and [concreteType] then goes on with the
    nil map and panics in [usageKey] instead of returning Invalid. *)
Theorem concreteType_arity_mismatch_panics :
  let args := [examples.ident "int"; examples.ident "string"] in
  let declare :=
    addGenericDecl (n_obj examples.listT) (Named examples.listT) ["T"] in
  (_ ← declare; createTypeMap args ["T"]) examples.st0
  = Ok (∅, {| packages := {[ "main" :=
                 {[ "List" := {| d_name := "List"; d_typ := Named examples.listT;
                                 d_typeParams := ["T"]; d_usages := ∅ |} ]} ]};
              pos := 0;
              errors := [(0, WrongNumberOfTypeParameters 1 2)] |})
  ∧ wrongNumberMessage 1 2
    = "wrong number of type parameters (expected 1 but got 2)"
  ∧ (_ ← declare;
     concreteType (examples.ident "List") args (Named examples.listT))
      examples.st0
    = Panic NilDereference.
Proof. repeat split. Qed.

(** C8 (as amended): [replaceTypes] does not recurse into an interface;
    it returns the interface as it is, with its explicit methods, its
    embedded types and its method set untouched, and leaves the state
    alone. *)
Theorem replaceTypes_Interface_unchanged (M : gmap string Type_)
    methods embeddeds allMethods st :
  replaceTypes (Interface methods embeddeds allMethods) M st
  = Ok (Interface methods embeddeds allMethods, st).
Proof. done. Qed.
End claims.

(** C8 fails as stated: on [interface{ Get() T }] with [T] bound to
    [int], the engine does not return an interface whose method
    signatures were substituted. *)
Lemma replaceTypes_Interface_not_substituted :
  ¬ ∃ allMethods,
      replaceTypes (H := reference.typesEnv) examples.getter
        {[ "T" := Basic Int ]} examples.st0
      = Ok (Interface
              (substituteMethods {[ "T" := Basic Int ]} examples.getterMethods)
              [] allMethods,
            examples.st0).
Proof. intros [allMethods Heq]. vm_compute in Heq. discriminate Heq. Qed.

(** C3 fails as stated, for every root type: on the root
    [[]interface{ Get() T }] with [T] bound to [int], the engine returns
    the root as it is, so the type-parameter leaf [T] below the
    interface is not replaced by [int]. *)
Lemma replaceTypes_below_interface_not_substituted :
  replaceTypes (H := reference.typesEnv) (Slice examples.getter)
    {[ "T" := Basic Int ]} examples.st0
  = Ok (Slice examples.getter, examples.st0)
  ∧ ¬ ∃ allMethods,
        replaceTypes (H := reference.typesEnv) (Slice examples.getter)
          {[ "T" := Basic Int ]} examples.st0
        = Ok (Slice
                (Interface
                   (substituteMethods {[ "T" := Basic Int ]}
                      examples.getterMethods)
                   [] allMethods),
              examples.st0).
Proof.
  split; [reflexivity|].
  intros [allMethods Heq]. vm_compute in Heq. discriminate Heq.
Qed.

(** [func(x T, rest ...T) map[string]T] under [T := int]. *)
Example replaceTypes_variadicFunc :
  replaceTypes (H := reference.typesEnv) examples.variadicFunc examples.intMap
    examples.st0
  = Ok (Signature
          {| s_recv := None;
             s_params := [examples.field "x" (Basic Int);
                          examples.field "rest" (Slice (Basic Int))];
             s_results := [examples.field "" (Map (Basic String) (Basic Int))];
             s_variadic := true; s_typeParams := []; s_recvTypeParams := [];
             s_obj := None |},
        examples.st0).
Proof. reflexivity. Qed.

Lemma replaceTypes_substitute_witness :
  structural (H := reference.typesEnv) examples.pointerToStruct = true
  ∧ replaceTypes (H := reference.typesEnv) examples.pointerToStruct
      examples.intMap examples.st0
    = Ok (substitute examples.intMap examples.pointerToStruct, examples.st0).
Proof.
  split; [reflexivity|].
  apply (replaceTypes_substitute (H := reference.typesEnv)). reflexivity.
Defined.

Lemma partial_usage_never_recorded_witness :
  completeRegistry examples.st0
  ∧ (∃ st',
       runOps (H := reference.typesEnv)
         [RegisterDecl (n_obj examples.listT) (Named examples.listT) ["T"];
          RecordUsage (n_obj examples.listT)
            (examples.concreteList (Basic Int) examples.listOfInt)
            examples.listOfInt]
         examples.st0 = Ok (tt, st')
       ∧ addGenericUsage (H := reference.typesEnv) (n_obj examples.listT)
           (examples.concreteList (TypeParam "U") examples.listOfU)
           examples.listOfU st' = Ok (tt, st')
       ∧ completeRegistry st').
Proof.
  split; [apply completeRegistry_empty|].
  eexists. split; [reflexivity|].
  apply (partial_usage_never_recorded (H := reference.typesEnv)
           [RegisterDecl (n_obj examples.listT) (Named examples.listT) ["T"];
            RecordUsage (n_obj examples.listT)
              (examples.concreteList (Basic Int) examples.listOfInt)
              examples.listOfInt]
           examples.st0).
  - apply completeRegistry_empty.
  - reflexivity.
  - exists "T", "U". reflexivity.
Defined.

Lemma usage_requires_declaration_witness :
  addGenericUsage (H := reference.typesEnv) (n_obj examples.listT)
    (examples.concreteList (Basic Int) examples.listOfInt)
    examples.listOfInt examples.st0
  = Panic (DeclarationNotFound (Some "main") "List")
  ∧ addGenericDecl (n_obj examples.listT) (Named examples.listT) ["T"]
      examples.st0 = Ok (tt, examples.declaredList)
  ∧ addGenericUsage (H := reference.typesEnv) (n_obj examples.listT)
      (examples.concreteList (Basic Int) examples.listOfInt)
      examples.listOfInt examples.declaredList
    ≠ Panic (DeclarationNotFound (Some "main") "List").
Proof.
  split; [|split; [reflexivity|]].
  - apply (proj1 (usage_requires_declaration (H := reference.typesEnv))
             (n_obj examples.listT) "main").
    + reflexivity.
    + intros k t Hk. unfold examples.listOfInt in Hk.
      apply lookup_singleton_Some in Hk as [_ <-]. reflexivity.
    + reflexivity.
  - apply (proj2 (usage_requires_declaration (H := reference.typesEnv))
             (n_obj examples.listT) (Named examples.listT) ["T"] []
             examples.st0 examples.declaredList examples.declaredList);
      reflexivity.
Defined.

End generics_spec.

Module transform_spec.
Import ast astutil transform.
Import types(Type_, GenericDecl, GenericUsage).
Import generics_spec.

Section scoped_rewrite.
Context `{Env}.
Variable typeMap : gmap string Type_.
Let post := replaceIdent typeMap.

Lemma mapM_Ok {A B} (f : A → result B) (g : A → B) (l : list A) :
  Forall (fun x => f x = Ok (g x)) l → mapM f l = Ok (map g l).
Proof.
  induction 1 as [|x l Hx _ IH]; [done|].
  simpl. rewrite Hx. simpl. by rewrite IH.
Qed.

Lemma mapM_exprOf (l : list Expr) : mapM exprOf (map NExpr l) = Ok l.
Proof. induction l as [|x l IH]; [done|]. simpl. by rewrite IH. Qed.

Lemma mapM_fieldOf (l : list Field) : mapM fieldOf (map NField l) = Ok l.
Proof. induction l as [|x l IH]; [done|]. simpl. by rewrite IH. Qed.

Lemma mapM_specOf (l : list Spec) : mapM specOf (map NSpec l) = Ok l.
Proof. induction l as [|x l IH]; [done|]. simpl. by rewrite IH. Qed.

Lemma concat_singletons {A} (l : list A) : List.concat (map (fun x => [x]) l) = l.
Proof. induction l as [|x l IH]; [done|]. simpl. by rewrite IH. Qed.

(** A slice whose elements are each rewritten to one node. *)
Lemma visitList_Ok {A} (f : A → result (list Node)) (g : A → Node) (l : list A) :
  Forall (fun x => f x = Ok [g x]) l →
  visitList f l = Ok (map g l).
Proof.
  intros Hall. unfold visitList.
  rewrite (mapM_Ok f (fun x => [g x]) l Hall). simpl.
  by rewrite <- (map_map g (fun n => [n])), concat_singletons.
Qed.

Lemma visitIdent_slice id :
  slotOk typeMap id = true →
  visitIdent noPre post true id = Ok [NExpr (EIdent (substSlot typeMap id))].
Proof.
  unfold slotOk, substSlot, visitIdent, visit, post, replaceIdent. simpl.
  destruct (typeMap !! Name id) as [typ|]; simpl; [|done].
  by destruct (typeToExpr typ).
Qed.

Lemma visitIdent_slot id :
  slotOk typeMap id = true →
  (visitIdent noPre post false id ≫= asIdent) = Ok (substSlot typeMap id).
Proof.
  unfold slotOk, substSlot, visitIdent, visit, post, replaceIdent. simpl.
  destruct (typeMap !! Name id) as [typ|]; simpl; [|done].
  by destruct (typeToExpr typ).
Qed.

Lemma mapM_identOf (l : list Ident) :
  mapM identOf (map (fun id => NExpr (EIdent id)) l) = Ok l.
Proof. induction l as [|x l IH]; [done|]. simpl. by rewrite IH. Qed.

Lemma walkIdents_Ok ids :
  forallb (slotOk typeMap) ids = true →
  walkIdents noPre post ids = Ok (map (substSlot typeMap) ids).
Proof.
  intros Hall. unfold walkIdents.
  rewrite (visitList_Ok _ (fun id => NExpr (EIdent (substSlot typeMap id)))).
  - simpl. rewrite <- (map_map (substSlot typeMap) (fun id => NExpr (EIdent id))).
    apply mapM_identOf.
  - apply Forall_forall. intros id Hin. apply visitIdent_slice.
    rewrite forallb_forall in Hall. by apply Hall, list_elem_of_In.
Qed.

(** The walk of a node that is not an identifier leaves the cursor as it
    is. *)
Lemma visit_compound b (e walked : Expr) :
  (∀ id, walked ≠ EIdent id) →
  walkExpr noPre post e = Ok walked →
  visitExpr noPre post b e = Ok [NExpr walked].
Proof.
  intros Hne Hw. unfold visitExpr, visit. simpl. rewrite Hw. simpl.
  unfold post, replaceIdent. simpl.
  destruct walked; try done. by destruct (Hne id).
Qed.

Definition rewritten (e : Expr) : Prop :=
  scopeOk typeMap e = true →
  ∀ b, visitExpr noPre post b e = Ok [NExpr (substIdents typeMap e)].

Lemma slot_Ok x :
  rewritten x → scopeOk typeMap x = true →
  (visitExpr noPre post false x ≫= asExpr) = Ok (substIdents typeMap x).
Proof. intros Hx Hok. by rewrite (Hx Hok false). Qed.

Lemma optSlot_Ok o :
  POpt rewritten o →
  match o with Some x => scopeOk typeMap x | None => true end = true →
  walkOptExpr noPre post o = Ok (option_map (substIdents typeMap) o).
Proof.
  destruct o as [x|]; simpl; intros Hx Hok; [|done].
  by rewrite (Hx Hok false).
Qed.

Lemma exprs_Ok l :
  Forall rewritten l → forallb (scopeOk typeMap) l = true →
  walkExprs noPre post l = Ok (map (substIdents typeMap) l).
Proof.
  intros Hall Hok. unfold walkExprs.
  rewrite (visitList_Ok _ (fun x => NExpr (substIdents typeMap x))).
  - simpl. rewrite <- (map_map (substIdents typeMap) NExpr). apply mapM_exprOf.
  - rewrite forallb_forall in Hok. rewrite Forall_forall in Hall |- *.
    intros x Hin. apply Hall; [done|]. by apply Hok, list_elem_of_In.
Qed.

Lemma walkField_Ok f :
  rewritten (FType f) → fieldOk typeMap f = true →
  walkField noPre post f = Ok (substField typeMap f).
Proof.
  intros Hf Hok. apply andb_true_iff in Hok as [Hn Ht].
  unfold walkField. rewrite (walkIdents_Ok _ Hn). simpl.
  by rewrite (Hf Ht false).
Qed.

Lemma walkFieldList_Ok l :
  PFields rewritten l → forallb (fieldOk typeMap) l = true →
  walkFieldList noPre post l = Ok (map (substField typeMap) l).
Proof.
  intros Hall Hok. unfold walkFieldList.
  rewrite (visitList_Ok _ (fun f => NField (substField typeMap f))).
  - simpl. rewrite <- (map_map (substField typeMap) NField). apply mapM_fieldOf.
  - rewrite forallb_forall in Hok. unfold PFields in Hall.
    rewrite Forall_forall in Hall |- *.
    intros f Hin. unfold visit. simpl.
    rewrite (walkField_Ok f); [done| by apply Hall |].
    by apply Hok, list_elem_of_In.
Qed.

Lemma visitFieldList_Ok l :
  PFields rewritten l → forallb (fieldOk typeMap) l = true →
  visitFieldList noPre post l = Ok [NFieldList (map (substField typeMap) l)].
Proof.
  intros Hall Hok. unfold visitFieldList, visit. simpl.
  by rewrite (walkFieldList_Ok l Hall Hok).
Qed.

(** The equations of [walkExpr]. *)
Lemma walkExpr_CompositeLit pre po typ elts :
  walkExpr pre po (CompositeLit typ elts)
  = (typ' ← walkOptExpr pre po typ; elts' ← walkExprs pre po elts;
     Ok (CompositeLit typ' elts')).
Proof. by destruct typ. Qed.

Lemma walkExpr_ArrayType pre po len elt :
  walkExpr pre po (ArrayType len elt)
  = (len' ← walkOptExpr pre po len;
     elt' ← (visitExpr pre po false elt ≫= asExpr);
     Ok (ArrayType len' elt')).
Proof. by destruct len. Qed.

Lemma walkExpr_StructType pre po fs :
  walkExpr pre po (StructType fs)
  = (fs' ← (visitFieldList pre po fs ≫= asFieldList); Ok (StructType fs')).
Proof. done. Qed.

Lemma walkExpr_FuncType pre po ps rs :
  walkExpr pre po (FuncType ps rs)
  = (ps' ← (visitFieldList pre po ps ≫= asFieldList);
     rs' ← walkOptFieldList pre po rs;
     Ok (FuncType ps' rs')).
Proof. by destruct rs. Qed.

Lemma walkExpr_TypeArgExpr pre po x ts :
  walkExpr pre po (TypeArgExpr x ts)
  = (x' ← (visitExpr pre po false x ≫= asExpr); ts' ← walkExprs pre po ts;
     Ok (TypeArgExpr x' ts')).
Proof. done. Qed.

Lemma walkExpr_CallExpr pre po f args :
  walkExpr pre po (CallExpr f args)
  = (f' ← (visitExpr pre po false f ≫= asExpr); args' ← walkExprs pre po args;
     Ok (CallExpr f' args')).
Proof. done. Qed.

Lemma walkExpr_SelectorExpr pre po x sel :
  walkExpr pre po (SelectorExpr x sel)
  = (x' ← (visitExpr pre po false x ≫= asExpr);
     sel' ← (visitIdent pre po false sel ≫= asIdent);
     Ok (SelectorExpr x' sel')).
Proof. done. Qed.

(** The scoped identifier rewrite computes [substIdents]. *)
Lemma visitExpr_substIdents e : rewritten e.
Proof.
  induction e as
    [ id | v | typ elts IHt IHe | x IH | x sel IH | x i IHx IHi | x ts IHx IHts
    | f args IHf IHa | x IH | k v IHk IHv | len elt IHl IHe | fs IH
    | ps rs IHp IHr | k v IHk IHv | dir v IH ] using Expr_ind';
    intros Hok b; simpl in Hok.
  - unfold visitExpr, visit, post, replaceIdent. simpl.
    by destruct (typeMap !! Name id).
  - done.
  - apply andb_true_iff in Hok as [Ht He].
    apply visit_compound; [done|]. rewrite walkExpr_CompositeLit.
    rewrite (optSlot_Ok typ IHt Ht). simpl.
    by rewrite (exprs_Ok elts IHe He).
  - apply visit_compound; [done|]. simpl.
    change (visit noPre post false (NExpr x) (NExpr <$> walkExpr noPre post x))
      with (visitExpr noPre post false x).
    by rewrite (IH Hok false).
  - apply andb_true_iff in Hok as [Hx Hs].
    apply visit_compound; [done|]. rewrite walkExpr_SelectorExpr.
    rewrite (slot_Ok x IH Hx). simpl. by rewrite (visitIdent_slot sel Hs).
  - apply andb_true_iff in Hok as [Hx Hi].
    apply visit_compound; [done|]. simpl.
    change (visit noPre post false (NExpr x) (NExpr <$> walkExpr noPre post x))
      with (visitExpr noPre post false x).
    change (visit noPre post false (NExpr i) (NExpr <$> walkExpr noPre post i))
      with (visitExpr noPre post false i).
    by rewrite (IHx Hx false), (IHi Hi false).
  - apply andb_true_iff in Hok as [Hx Hts].
    apply visit_compound; [done|]. rewrite walkExpr_TypeArgExpr.
    rewrite (slot_Ok x IHx Hx). simpl. by rewrite (exprs_Ok ts IHts Hts).
  - apply andb_true_iff in Hok as [Hf Ha].
    apply visit_compound; [done|]. rewrite walkExpr_CallExpr.
    rewrite (slot_Ok f IHf Hf). simpl. by rewrite (exprs_Ok args IHa Ha).
  - apply visit_compound; [done|]. simpl.
    change (visit noPre post false (NExpr x) (NExpr <$> walkExpr noPre post x))
      with (visitExpr noPre post false x).
    by rewrite (IH Hok false).
  - apply andb_true_iff in Hok as [Hk Hv].
    apply visit_compound; [done|]. simpl.
    change (visit noPre post false (NExpr k) (NExpr <$> walkExpr noPre post k))
      with (visitExpr noPre post false k).
    change (visit noPre post false (NExpr v) (NExpr <$> walkExpr noPre post v))
      with (visitExpr noPre post false v).
    by rewrite (IHk Hk false), (IHv Hv false).
  - apply andb_true_iff in Hok as [Hl He].
    apply visit_compound; [done|]. rewrite walkExpr_ArrayType.
    rewrite (optSlot_Ok len IHl Hl). simpl. by rewrite (slot_Ok elt IHe He).
  - apply visit_compound; [done|]. rewrite walkExpr_StructType.
    by rewrite (visitFieldList_Ok fs IH Hok).
  - apply andb_true_iff in Hok as [Hp Hr].
    apply visit_compound; [done|]. rewrite walkExpr_FuncType.
    rewrite (visitFieldList_Ok ps IHp Hp). simpl.
    destruct rs as [rs|]; simpl; [|done].
    by rewrite (visitFieldList_Ok rs IHr Hr).
  - apply andb_true_iff in Hok as [Hk Hv].
    apply visit_compound; [done|]. simpl.
    change (visit noPre post false (NExpr k) (NExpr <$> walkExpr noPre post k))
      with (visitExpr noPre post false k).
    change (visit noPre post false (NExpr v) (NExpr <$> walkExpr noPre post v))
      with (visitExpr noPre post false v).
    by rewrite (IHk Hk false), (IHv Hv false).
  - apply visit_compound; [done|]. simpl.
    change (visit noPre post false (NExpr v) (NExpr <$> walkExpr noPre post v))
      with (visitExpr noPre post false v).
    by rewrite (IH Hok false).
Qed.

Lemma walkSpec_STypeSpec pre po ts :
  walkSpec pre po (STypeSpec ts)
  = (name' ← (visitIdent pre po false (TSName ts) ≫= asIdent);
     typ' ← (visitExpr pre po false (TSType ts) ≫= asExpr);
     Ok (STypeSpec {| TSName := name'; TSTypeParams := TSTypeParams ts;
                      TSAssign := TSAssign ts; TSType := typ' |})).
Proof. done. Qed.

Lemma replaceIdentsInScope_TypeSpec (ts : TypeSpec) :
  slotOk typeMap (TSName ts) = true →
  scopeOk typeMap (TSType ts) = true →
  replaceIdentsInScope (NSpec (STypeSpec ts)) typeMap
  = Ok (NSpec (STypeSpec {| TSName := substSlot typeMap (TSName ts);
                            TSTypeParams := TSTypeParams ts;
                            TSAssign := TSAssign ts;
                            TSType := substIdents typeMap (TSType ts) |})).
Proof.
  intros Hname Hbody. unfold replaceIdentsInScope, Apply, visit, walk.
  fold post. rewrite walkSpec_STypeSpec.
  rewrite (visitIdent_slot (TSName ts) Hname).
  by rewrite (visitExpr_substIdents (TSType ts) Hbody false).
Qed.
End scoped_rewrite.

Section pass1.
Context `{Env}.
Variable trans : Transformer.

Lemma length_usagesList (decl : GenericDecl) :
  length (usagesList decl) = size (types.d_usages decl).
Proof. unfold usagesList. by rewrite length_fmap, length_map_to_list. Qed.

(** A registered generic type spec becomes one clone per usage. *)
Lemma generateTypeSpecs_clones typeSpec genericDecl :
  Generics trans !! Name (TSName typeSpec) = Some genericDecl →
  Forall (fun usg => cloneOk genericDecl typeSpec usg = true) (usagesList genericDecl) →
  generateTypeSpecs trans typeSpec
  = Ok (map (cloneTypeSpec genericDecl typeSpec) (usagesList genericDecl)).
Proof.
  intros Hdecl Hok. unfold generateTypeSpecs. rewrite Hdecl.
  apply mapM_Ok. eapply Forall_impl; [exact Hok|].
  intros usg Husg. apply andb_true_iff in Husg as [Hname Hbody].
  by rewrite replaceIdentsInScope_TypeSpec.
Qed.

(** The specs [generateTypeSpecs] returns are as many as the usages. *)
Lemma generateTypeSpecs_length typeSpec genericDecl specs :
  Generics trans !! Name (TSName typeSpec) = Some genericDecl →
  generateTypeSpecs trans typeSpec = Ok specs →
  length specs = size (types.d_usages genericDecl).
Proof.
  intros Hdecl. unfold generateTypeSpecs. rewrite Hdecl.
  rewrite <- length_usagesList.
  generalize (usagesList genericDecl) as usages. intros usages. revert specs.
  induction usages as [|usg usages IH]; intros specs; simpl.
  - by intros [= <-].
  - match goal with |- context [replaceIdentsInScope ?n ?m] =>
      destruct (replaceIdentsInScope n m) as [n'|]; simpl; [|done] end.
    destruct (specOf n') as [spec|]; simpl; [|done].
    match goal with |- context [mapM ?f usages] =>
      destruct (mapM f usages) as [rest|] eqn:Hrest; simpl; [|done] end.
    intros [= <-]. simpl. f_equal. by apply IH.
Qed.

Lemma mapM_length {A B} (f : A → result B) (l : list A) (l' : list B) :
  mapM f l = Ok l' → length l' = length l.
Proof.
  revert l'. induction l as [|x l IH]; intros l'; simpl.
  - by intros [= <-].
  - destruct (f x) as [y|]; simpl; [|done].
    destruct (mapM f l) as [ys|]; simpl; [|done].
    intros [= <-]. simpl. f_equal. by apply IH.
Qed.

(** The clones [generateFuncDecls] returns for a registered generic
    function are as many as its usages. *)
Lemma generateFuncDecls_length (f : FuncDecl) genFuncDecl newFuncs recvIsGeneric :
  Recv f = None →
  Generics trans !! Name (FName f) = Some genFuncDecl →
  generateFuncDecls trans f = Ok (newFuncs, recvIsGeneric) →
  length newFuncs = size (types.d_usages genFuncDecl).
Proof.
  intros Hrecv Hdecl. unfold generateFuncDecls. rewrite Hrecv. simpl.
  rewrite Hdecl. rewrite <- length_usagesList.
  match goal with |- context [mapM ?g (usagesList genFuncDecl)] =>
    destruct (mapM g (usagesList genFuncDecl)) as [l|] eqn:Hl; simpl; [|done] end.
  intros [= <- <-]. by eapply mapM_length.
Qed.

(** The specs of a declaration that has no registered generic among them
    are all collected. *)
Lemma collectSpecs_plain specs newTypeSpecs used :
  Forall (fun spec => match spec with
                      | STypeSpec ts => Generics trans !! Name (TSName ts) = None
                      | _ => True
                      end) specs →
  collectSpecs trans specs newTypeSpecs used
  = Ok ((newTypeSpecs ++ specs)%list,
        match specs with [] => used | _ => true end).
Proof.
  intros Hall. revert newTypeSpecs used.
  induction Hall as [|spec specs Hspec _ IH]; intros newTypeSpecs used; simpl.
  - by rewrite app_nil_r.
  - destruct spec as [path|names typ values|ts]; try rewrite Hspec;
      rewrite IH, <- app_assoc; simpl; by destruct specs.
Qed.

(** A declaration without generics is replaced by a copy whose specs are
    those of the declaration, in the order the sort leaves them in. *)
Lemma plain_GenDecl_copied (g : GenDecl) spec specs inSlice :
  Specs g = spec :: specs →
  Forall (fun spec => match spec with
                      | STypeSpec ts => Generics trans !! Name (TSName ts) = None
                      | _ => True
                      end) (Specs g) →
  generateConcreteTypes trans (newCursor (NDecl (DGen g)) inSlice)
  = Ok (Replace (newCursor (NDecl (DGen g)) inSlice)
          (NDecl (DGen {| Tok := Tok g; Specs := sortSlice specLess (Specs g) |})),
        true).
Proof.
  intros Hspecs Hall. unfold generateConcreteTypes. simpl.
  rewrite (collectSpecs_plain (Specs g) [] false Hall). simpl.
  by rewrite Hspecs.
Qed.

(** A generic type spec without usages, alone in its declaration, is
    deleted. *)
Lemma unused_generic_type_deleted (g : GenDecl) typeSpec genericDecl inSlice :
  Specs g = [STypeSpec typeSpec] →
  Generics trans !! Name (TSName typeSpec) = Some genericDecl →
  types.d_usages genericDecl = ∅ →
  generateConcreteTypes trans (newCursor (NDecl (DGen g)) inSlice)
  = (c ← Delete (newCursor (NDecl (DGen g)) inSlice); Ok (c, true)).
Proof.
  intros Hspecs Hdecl Hunused. unfold generateConcreteTypes. simpl.
  rewrite Hspecs. simpl. rewrite Hdecl.
  unfold generateTypeSpecs. rewrite Hdecl. unfold usagesList.
  by rewrite Hunused, map_to_list_empty.
Qed.

(** A generic function without usages is deleted. *)
Lemma unused_generic_func_deleted (f : FuncDecl) genericDecl typeParams :
  Recv f = None →
  FTypeParams f = Some typeParams →
  Generics trans !! Name (FName f) = Some genericDecl →
  types.d_usages genericDecl = ∅ →
  generateConcreteTypes trans (newCursor (NDecl (DFunc f)) true)
  = Ok ({| node := NDecl (DFunc f); inSlice := true; replaced := None;
           deleted := true; inserted := [] |}, true).
Proof.
  intros Hrecv Htp Hdecl Hunused. unfold generateConcreteTypes. simpl.
  unfold generateFuncDecls. rewrite Hrecv. simpl. rewrite Hdecl. simpl.
  unfold usagesList. rewrite Hunused, map_to_list_empty. simpl.
  by rewrite Htp.
Qed.

(** A function that has neither a receiver nor type parameters and is not
    registered is left where it is. *)
Lemma plain_function_kept (f : FuncDecl) inSlice :
  Recv f = None →
  FTypeParams f = None →
  Generics trans !! Name (FName f) = None →
  generateConcreteTypes trans (newCursor (NDecl (DFunc f)) inSlice)
  = Ok (newCursor (NDecl (DFunc f)) inSlice, true).
Proof.
  intros Hrecv Htp Hdecl. unfold generateConcreteTypes. simpl.
  unfold generateFuncDecls. rewrite Hrecv. simpl. rewrite Hdecl, Htp. simpl.
  done.
Qed.

(** A method whose receiver type is not registered and that is not
    registered itself is deleted all the same: [recvIsGeneric] is set
    whenever there is a receiver. *)
Lemma plain_method_deleted (f : FuncDecl) names recvTypeName :
  Recv f = Some [mkField names (EIdent recvTypeName)] →
  FTypeParams f = None →
  Generics trans !! Name recvTypeName = None →
  Generics trans !! (Name recvTypeName +:+ "." +:+ Name (FName f)) = None →
  generateConcreteTypes trans (newCursor (NDecl (DFunc f)) true)
  = Ok ({| node := NDecl (DFunc f); inSlice := true; replaced := None;
           deleted := true; inserted := [] |}, true).
Proof.
  intros Hrecv Htp Hr Hm. unfold generateConcreteTypes. simpl.
  unfold generateFuncDecls. rewrite Hrecv. simpl. rewrite Hr. simpl.
  rewrite Hm, Htp. simpl. done.
Qed.

(** An [IndexExpr] over a selector of a registered generic member is
    replaced by the selector, renamed, around the untouched operand, and
    the walk does not go below it. *)
Lemma selector_operand_not_walked x sel index selection key inSlice :
  Selections (TInfo trans) (SelectorExpr x sel) = Some selection →
  key = match Kind selection with
        | FieldVal => types.o_name (Obj selection)
        | MethodVal =>
            match SelRecv selection with
            | types.ConcreteNamed named _ _ =>
                types.o_name (types.n_obj named) +:+ "."
                  +:+ types.o_name (Obj selection)
            | _ => ""
            end
        | MethodExpr => ""
        end →
  key ≠ "" → is_Some (Generics trans !! key) →
  replaceGenericIdents trans (newCursor (NExpr (IndexExpr (SelectorExpr x sel) index)) inSlice)
  = (args ← formatTypeArgs trans [index];
     Ok (Replace (newCursor (NExpr (IndexExpr (SelectorExpr x sel) index)) inSlice)
           (NExpr (SelectorExpr x (NewIdent (Name sel +:+ "__" +:+ args)))),
         false)).
Proof.
  intros Hsel -> Hne [decl Hdecl]. unfold replaceGenericIdents. simpl.
  rewrite Hsel.
  match goal with |- context [String.eqb ?k ""] =>
    destruct (String.eqb_spec k "") as [Heq|_]; [by destruct Hne|] end.
  simpl. rewrite Hdecl. unfold concreteTypeExpr.
  by destruct (formatTypeArgs trans [index]).
Qed.
End pass1.

(** The model agrees with the tests of the package. Generic declarations
    that are never used are deleted, with the methods of the generic type
    (TestTransformStructTypeUnused). *)
Example unused_generics_deleted `{Env} (info : Info) :
  File {| Generics := files.unusedRegistry; TInfo := info |} files.unusedFile
  = Ok {| PkgName := NewIdent "main"; Decls := [files.mainDecl []] |}.
Proof. reflexivity. Qed.

(** A generic function used at two types becomes two functions, sorted by
    name, and the calls name them (TestTransformFuncDecl). *)
Example generic_function_cloned :
  File (H := reference.transformEnv)
    {| Generics := files.printRegistry; TInfo := files.noInfo |} files.printFile
  = Ok files.printFileOut.
Proof. vm_compute. reflexivity. Qed.

(** C6 (the code departs from it): with nothing generic in the package,
    the method [func (s S) m() {}] is deleted, whereas the type
    declaration and the function [main] are kept as they are. *)
Theorem plain_method_is_deleted `{Env} (info : Info) :
  File {| Generics := ∅; TInfo := info |} files.plainFile
  = Ok {| PkgName := NewIdent "main";
          Decls := [files.typeS; files.mainDecl []] |}.
Proof. reflexivity. Qed.

(** C2 (the code departs from it): a generic method with one recorded
    usage on a receiver type that is not generic gets no clone; the first
    pass panics on the nil receiver declaration in [expandReceiverType]. *)
Theorem generic_method_on_plain_receiver_panics `{Env} (info : Info) :
  pass1 {| Generics := files.genericMethodRegistry; TInfo := info |}
    files.genericMethodFile
  = Panic NilDereference
  ∧ File {| Generics := files.genericMethodRegistry; TInfo := info |}
      files.genericMethodFile
    = Panic NilDereference.
Proof. split; reflexivity. Qed.

(** C9 (the code departs from it): the transformation of a generic type
    with a method has a method on the concrete type, and transforming that
    output again, with nothing generic left to register, deletes it. *)
Theorem second_run_deletes_methods :
  File (H := reference.transformEnv)
    {| Generics := files.genericTypeRegistry; TInfo := files.noInfo |}
    files.genericTypeFile
  = Ok files.concreteTypeFile
  ∧ ∀ (E : Env) (info : Info),
      File {| Generics := ∅; TInfo := info |} files.concreteTypeFile
      = Ok {| PkgName := NewIdent "main";
              Decls := [files.typeDecl "A__bool" [] (files.ident "bool");
                        files.concreteMain] |}.
Proof. split; [vm_compute; reflexivity | reflexivity]. Qed.

(** C1 (the code departs from it): in the output for
    [B[int, string]{}.f0[string]()] the call is
    [B[int, string]{}.f0__string()]: the type-argument expression under
    the rewritten selector is still there. *)
Theorem type_arguments_survive_under_selector :
  File (H := reference.transformEnv)
    {| Generics := files.chainedRegistry; TInfo := files.chainedInfo |}
    files.chainedFile
  = Ok files.chainedFileOut
  ∧ fileHasTypeArg files.chainedFileOut = true.
Proof. split; [vm_compute; reflexivity | reflexivity]. Qed.


Section usage_key.
Context `{types.Env} `{Env}.
Import types.
Implicit Types (typeMap : gmap string Type_).

Lemma String_stringForm (t : Type_) : t ≠ TNil → String_ t = Ok (stringForm t).
Proof. by destruct t. Qed.

(** The key is the string forms of the arguments, in the order of the
    declaration's type parameters, joined by a comma. *)
Lemma usageKey_join typeMap typeParams :
  (∀ p, p ∈ typeParams → index typeMap p ≠ TNil) →
  usageKey typeMap typeParams
  = Ok (String.concat "," (map (fun p => stringForm (index typeMap p)) typeParams)).
Proof.
  intros Hbound. unfold usageKey.
  rewrite (mapM_Ok _ (fun p => stringForm (index typeMap p))); [done|].
  apply Forall_forall. intros p Hp. by apply String_stringForm, Hbound.
Qed.

Lemma usageKey_agree typeMap1 typeMap2 typeParams :
  (∀ p, p ∈ typeParams →
        index typeMap1 p ≠ TNil ∧ index typeMap2 p ≠ TNil
        ∧ stringForm (index typeMap1 p) = stringForm (index typeMap2 p)) →
  usageKey typeMap2 typeParams = usageKey typeMap1 typeParams.
Proof.
  intros Hagree.
  rewrite !usageKey_join by (intros p Hp; by destruct (Hagree p Hp) as (? & ? & ?)).
  do 2 f_equal. apply map_ext_in. intros p Hp.
  symmetry. by apply Hagree, list_elem_of_In.
Qed.

Lemma addGenericUsage_records obj pkg generics decl typ typeMap key st :
  o_pkg obj = Some pkg →
  packages st !! pkg = Some generics →
  generics !! o_name obj = Some decl →
  hasTypeParam typeMap = false →
  usageKey typeMap (d_typeParams decl) = Ok key →
  addGenericUsage obj typ typeMap st
  = Ok (tt, set_packages
              (<[pkg :=
                 <[o_name obj :=
                    {| d_name := d_name decl; d_typ := d_typ decl;
                       d_typeParams := d_typeParams decl;
                       d_usages := <[key := {| u_typeMap := typeMap; u_typ := typ |}]>
                                     (d_usages decl) |}]> generics]>
                 (packages st)) st).
Proof.
  intros Hpkg Hp Hd Hc Hk. unfold addGenericUsage.
  rewrite Hc, Hpkg, Hp. simpl. by rewrite Hd, Hk.
Qed.

(** C4: the usage key is the string forms of [typeMap[p]], for [p] in the
    declaration's type-parameter order, joined by ","; so two
    record-usage calls on a declaration whose maps give every parameter
    arguments of identical string forms have the same key, the second
    record takes the place of the first (the registry has as many records
    after the second call as after the first), and when these are the only
    usages the transformer emits one concrete declaration for the type
    spec. *)
Theorem identical_usages_share_one_declaration
    obj pkg generics decl typ1 typ2 typeMap1 typeMap2 st :
  o_pkg obj = Some pkg →
  packages st !! pkg = Some generics →
  generics !! o_name obj = Some decl →
  (∀ k t, typeMap1 !! k = Some t → isTypeParam t = false) →
  (∀ k t, typeMap2 !! k = Some t → isTypeParam t = false) →
  (∀ p, p ∈ d_typeParams decl →
        index typeMap1 p ≠ TNil ∧ index typeMap2 p ≠ TNil
        ∧ stringForm (index typeMap1 p) = stringForm (index typeMap2 p)) →
  let key :=
    String.concat ","
      (map (fun p => stringForm (index typeMap1 p)) (d_typeParams decl)) in
  let usage2 := {| u_typeMap := typeMap2; u_typ := typ2 |} in
  usageKey typeMap1 (d_typeParams decl) = Ok key
  ∧ usageKey typeMap2 (d_typeParams decl) = Ok key
  ∧ ∃ st1 st2,
      addGenericUsage obj typ1 typeMap1 st = Ok (tt, st1)
      ∧ addGenericUsage obj typ2 typeMap2 st1 = Ok (tt, st2)
      ∧ usagesOf obj st2 = <[key := usage2]> (d_usages decl)
      ∧ size (usagesOf obj st2) = size (usagesOf obj st1)
      ∧ ∀ trans typeSpec,
          packages st2 !! pkg = Some (Generics trans) →
          Name (ast.TSName typeSpec) = o_name obj →
          d_usages decl = ∅ →
          cloneOk decl typeSpec usage2 = true →
          generateTypeSpecs trans typeSpec
          = Ok [cloneTypeSpec decl typeSpec usage2].
Proof.
  intros Hpkg Hp Hd Hc1 Hc2 Hagree key usage2.
  assert (Hk1 : usageKey typeMap1 (d_typeParams decl) = Ok key).
  { apply usageKey_join. intros p Hin. by destruct (Hagree p Hin). }
  assert (Hk2 : usageKey typeMap2 (d_typeParams decl) = Ok key).
  { by rewrite (usageKey_agree typeMap1 typeMap2). }
  apply hasTypeParam_false in Hc1, Hc2.
  split; [done|]. split; [done|].
  eexists _, _. split.
  { by apply (addGenericUsage_records obj pkg generics decl). }
  split.
  { eapply (addGenericUsage_records obj pkg); simpl.
    - done.
    - by rewrite lookup_insert_eq.
    - by rewrite lookup_insert_eq.
    - done.
    - done. }
  unfold usagesOf. simpl. rewrite Hpkg, !lookup_insert_eq. simpl.
  rewrite !lookup_insert_eq. simpl. rewrite insert_insert_eq.
  split; [done|]. split.
  { destruct (d_usages decl !! key) as [u|] eqn:Hu.
    - by rewrite !map_size_insert_Some.
    - by rewrite !map_size_insert_None. }
  intros trans typeSpec Hgen Hname Hfresh Hok.
  injection Hgen as Hgen.
  set (decl2 := {| d_name := d_name decl; d_typ := d_typ decl;
                   d_typeParams := d_typeParams decl;
                   d_usages := <[key := usage2]> (d_usages decl) |}).
  assert (Hdecl2 : Generics trans !! Name (ast.TSName typeSpec) = Some decl2).
  { rewrite <- Hgen, Hname, ?insert_insert_eq. by rewrite lookup_insert_eq. }
  assert (Hlist : usagesList decl2 = [usage2]).
  { unfold usagesList, decl2. simpl. rewrite Hfresh.
    by rewrite insert_empty, map_to_list_singleton. }
  rewrite (generateTypeSpecs_clones trans typeSpec decl2 Hdecl2).
  - by rewrite Hlist.
  - rewrite Hlist. by constructor.
Qed.
End usage_key.


Lemma identical_usages_share_one_declaration_witness :
  let obj := types.n_obj examples.listT in
  let typ1 := examples.concreteList (types.Basic types.Int) examples.listOfInt in
  let typ2 := types.TNil in
  let usage2 := {| types.u_typeMap := examples.listOfInt; types.u_typ := typ2 |} in
  types.usageKey (H := reference.typesEnv) examples.listOfInt ["T"] = Ok "int"
  ∧ ∃ st1 st2,
      types.addGenericUsage (H := reference.typesEnv) obj typ1 examples.listOfInt
        examples.declaredList = Ok (tt, st1)
      ∧ types.addGenericUsage (H := reference.typesEnv) obj typ2 examples.listOfInt
          st1 = Ok (tt, st2)
      ∧ types.usagesOf obj st2 = {[ "int" := usage2 ]}
      ∧ size (types.usagesOf obj st2) = size (types.usagesOf obj st1)
      ∧ generateTypeSpecs (H := reference.transformEnv)
          {| Generics := default ∅ (types.packages st2 !! "main");
             TInfo := files.noInfo |}
          files.listSpec
        = Ok [STypeSpec {| TSName := NewIdent "List__int"; TSTypeParams := None;
                           TSAssign := false;
                           TSType := ArrayType None (files.ident "int") |}].
Proof.
  intros obj typ1 typ2 usage2.
  destruct (identical_usages_share_one_declaration
              (H := reference.typesEnv) (H0 := reference.transformEnv)
              obj "main"
              {[ "List" := {| types.d_name := "List";
                              types.d_typ := types.Named examples.listT;
                              types.d_typeParams := ["T"];
                              types.d_usages := ∅ |} ]}
              {| types.d_name := "List"; types.d_typ := types.Named examples.listT;
                 types.d_typeParams := ["T"]; types.d_usages := ∅ |}
              typ1 typ2 examples.listOfInt examples.listOfInt
              examples.declaredList)
    as (Hk1 & _ & st1 & st2 & H1 & H2 & Hu & Hs & Ht).
  - reflexivity.
  - reflexivity.
  - reflexivity.
  - intros k t Hk. unfold examples.listOfInt in Hk.
    apply lookup_singleton_Some in Hk as [_ <-]. reflexivity.
  - intros k t Hk. unfold examples.listOfInt in Hk.
    apply lookup_singleton_Some in Hk as [_ <-]. reflexivity.
  - intros p Hp. apply list_elem_of_singleton in Hp as ->.
    repeat split; discriminate.
  - split; [exact Hk1|]. exists st1, st2.
    split; [exact H1|]. split; [exact H2|]. split; [exact Hu|]. split; [exact Hs|].
    assert (Hst2 : types.packages st2 !! "main"
                   = Some (default ∅ (types.packages st2 !! "main"))).
    { vm_compute in H1. injection H1 as <-. vm_compute in H2. injection H2 as <-.
      reflexivity. }
    apply (Ht {| Generics := default ∅ (types.packages st2 !! "main");
                 TInfo := files.noInfo |} files.listSpec Hst2);
      reflexivity.
Defined.

End transform_spec.

(** * Further properties of the registry and the substitution engine *)

Module generics_props.
Import types generics_spec.

Section registry.
Context `{Env}.

Lemma lookupDecl_insert pkg name decl generics pkg' name' st :
  lookupDecl pkg' name'
    (set_packages (<[pkg := <[name := decl]> generics]> (packages st)) st)
  = if decide (pkg' = pkg) then
      if decide (name' = name) then Some decl else generics !! name'
    else lookupDecl pkg' name' st.
Proof.
  unfold lookupDecl. simpl.
  destruct (decide (pkg' = pkg)) as [->|Hp].
  - rewrite lookup_insert_eq. simpl.
    destruct (decide (name' = name)) as [->|Hn].
    + by rewrite lookup_insert_eq.
    + by rewrite lookup_insert_ne.
  - by rewrite lookup_insert_ne.
Qed.

Lemma lookupDecl_packages pkg name decl st :
  lookupDecl pkg name st = Some decl →
  ∃ generics, packages st !! pkg = Some generics ∧ generics !! name = Some decl.
Proof.
  unfold lookupDecl. destruct (packages st !! pkg) as [generics|]; simpl.
  - intros Hd. by exists generics.
  - by rewrite lookup_empty.
Qed.

(** X1: [addGenericDecl] on an object of a package registers, under the
    object's name, a declaration with that name, the object's type and
    the type parameters, and with no usages, whatever was registered
    under the name before; the other entries of the registry, the
    position and the diagnostics stay as they were. *)
Theorem addGenericDecl_registers obj objTyp typeParams pkg st :
  o_pkg obj = Some pkg →
  ∃ st',
    addGenericDecl obj objTyp typeParams st = Ok (tt, st')
    ∧ lookupDecl pkg (o_name obj) st'
      = Some {| d_name := o_name obj; d_typ := objTyp;
                d_typeParams := typeParams; d_usages := ∅ |}
    ∧ usagesOf obj st' = ∅
    ∧ (∀ pkg' name, (pkg', name) ≠ (pkg, o_name obj) →
         lookupDecl pkg' name st' = lookupDecl pkg' name st)
    ∧ pos st' = pos st ∧ errors st' = errors st.
Proof.
  intros Hpkg. eexists. unfold addGenericDecl. rewrite Hpkg.
  split; [reflexivity|]. split; [|split; [|split; [|done]]].
  - rewrite lookupDecl_insert. by rewrite !decide_True.
  - unfold usagesOf. rewrite Hpkg. simpl. rewrite lookup_insert_eq. simpl.
    by rewrite lookup_insert_eq.
  - intros pkg' name Hne. rewrite lookupDecl_insert.
    destruct (decide (pkg' = pkg)) as [->|]; [|done].
    destruct (decide (name = o_name obj)) as [->|]; [by destruct Hne|done].
Qed.

Lemma mapM_Panic {A B} (f : A → result B) (l : list A) p x :
  x ∈ l → f x = Panic p →
  (∀ y q, y ∈ l → f y = Panic q → q = p) →
  mapM f l = Panic p.
Proof.
  intros Hin Hx Hall. induction l as [|y l IH]; [by apply elem_of_nil in Hin|].
  simpl. destruct (f y) as [b|q] eqn:Hy; simpl.
  - apply elem_of_cons in Hin as [->|Hin]; [congruence|].
    rewrite IH; [done|done|]. intros z q Hz. apply Hall. by right.
  - f_equal. apply (Hall y); [by left|done].
Qed.

Lemma usageKey_Ok (typeMap : gmap string Type_) typeParams :
  (∀ p, p ∈ typeParams → index typeMap p ≠ TNil) →
  usageKey typeMap typeParams
  = Ok (String.concat "," (map (fun p => stringForm (index typeMap p)) typeParams)).
Proof.
  intros Hbound. unfold usageKey.
  rewrite (transform_spec.mapM_Ok _ (fun p => stringForm (index typeMap p))); [done|].
  apply Forall_forall. intros p Hp. specialize (Hbound p Hp).
  by destruct (index typeMap p).
Qed.

(** X2: [addGenericUsage] on a registered object, with a map that has no
    type-parameter value and binds every type parameter of the
    declaration, stores the usage under its key: looking the key up
    gives back the type and the map, the usages under other keys, the
    name, type and type parameters of the declaration, the other
    declarations, the position and the diagnostics are unchanged. *)
Theorem addGenericUsage_recorded genObj pkg decl typ
    (typeMap : gmap string Type_) st :
  o_pkg genObj = Some pkg →
  lookupDecl pkg (o_name genObj) st = Some decl →
  (∀ k t, typeMap !! k = Some t → isTypeParam t = false) →
  (∀ p, p ∈ d_typeParams decl → index typeMap p ≠ TNil) →
  ∃ key st' decl',
    usageKey typeMap (d_typeParams decl) = Ok key
    ∧ addGenericUsage genObj typ typeMap st = Ok (tt, st')
    ∧ lookupDecl pkg (o_name genObj) st' = Some decl'
    ∧ d_usages decl' !! key = Some {| u_typeMap := typeMap; u_typ := typ |}
    ∧ (∀ key', key' ≠ key → d_usages decl' !! key' = d_usages decl !! key')
    ∧ d_name decl' = d_name decl ∧ d_typ decl' = d_typ decl
    ∧ d_typeParams decl' = d_typeParams decl
    ∧ (∀ pkg' name, (pkg', name) ≠ (pkg, o_name genObj) →
         lookupDecl pkg' name st' = lookupDecl pkg' name st)
    ∧ pos st' = pos st ∧ errors st' = errors st.
Proof.
  intros Hpkg Hdecl Hcomplete Hbound.
  pose proof (usageKey_Ok typeMap (d_typeParams decl) Hbound) as Hkey.
  eexists _, _, _. split; [exact Hkey|].
  unfold addGenericUsage.
  rewrite (proj2 (hasTypeParam_false typeMap) Hcomplete), Hpkg.
  unfold lookupDecl in Hdecl. rewrite Hdecl. rewrite Hkey. simpl.
  split; [reflexivity|]. split.
  { rewrite lookupDecl_insert. by rewrite !decide_True. }
  simpl. split; [by rewrite lookup_insert_eq|].
  split; [intros key' Hne; by rewrite lookup_insert_ne|].
  do 3 (split; [done|]). split; [|done].
  intros pkg' name Hne. rewrite lookupDecl_insert.
  destruct (decide (pkg' = pkg)) as [->|]; [|done].
  destruct (decide (name = o_name genObj)) as [->|]; [by destruct Hne|done].
Qed.

(** X3: [addGenericUsage] on a registered object, with a map that has no
    type-parameter value but leaves a type parameter of the declaration
    unbound, panics with a nil dereference: [usageKey] calls [String] on
    the nil value the map index yields. *)
Theorem addGenericUsage_unbound_parameter genObj pkg decl typ
    (typeMap : gmap string Type_) p st :
  o_pkg genObj = Some pkg →
  lookupDecl pkg (o_name genObj) st = Some decl →
  (∀ k t, typeMap !! k = Some t → isTypeParam t = false) →
  p ∈ d_typeParams decl → typeMap !! p = None →
  addGenericUsage genObj typ typeMap st = Panic NilDereference.
Proof.
  intros Hpkg Hdecl Hcomplete Hp Hnone.
  unfold addGenericUsage.
  rewrite (proj2 (hasTypeParam_false typeMap) Hcomplete), Hpkg.
  unfold lookupDecl in Hdecl. rewrite Hdecl.
  unfold usageKey.
  rewrite (mapM_Panic _ _ NilDereference p); [done|done| |].
  - unfold index. by rewrite Hnone.
  - intros y q _. destruct (index typeMap y); simpl; congruence.
Qed.
End registry.

Section constructors.
Context `{Env}.

Lemma insertFields_spec fset (fields : list Var) :
  insertFields fset fields
  = if bool_decide (NoDup (fieldIds fields)
                    ∧ Forall (fun x => x ∉ fset) (fieldIds fields))
    then Ok tt else Panic MultipleFields.
Proof.
  revert fset. induction fields as [|f fields IH]; intros fset.
  - cbn [insertFields]. rewrite bool_decide_eq_true_2; [done|]. split; constructor.
  - unfold fieldIds in *. simpl.
    destruct (String.eqb (o_name (v_obj f)) "_") eqn:Hblank; simpl; [apply IH|].
    destruct (bool_decide (Id (v_obj f) ∈ fset)) eqn:Hin.
    + apply bool_decide_eq_true in Hin.
      rewrite bool_decide_eq_false_2; [done|].
      intros [_ Hd]. by apply Forall_cons in Hd as [? _].
    + apply bool_decide_eq_false in Hin. rewrite IH.
      apply (f_equal (fun b : bool => if b then Ok tt else Panic MultipleFields)).
      apply bool_decide_ext. rewrite NoDup_cons, Forall_cons, !Forall_forall. split.
      * intros [Hnd Hd]. split; [split; [|done]|split; [done|]].
        -- intros Hx. apply (Hd _ Hx), elem_of_union_l. by apply elem_of_singleton.
        -- intros x Hx Hin'. by apply (Hd x Hx), elem_of_union_r.
      * intros [[Hnotin Hnd] [_ Hd]]. split; [done|].
        intros x Hx. apply not_elem_of_union. split.
        -- apply not_elem_of_singleton. intros ->. done.
        -- by apply Hd.
Qed.

(** X4: [NewStruct] returns the struct exactly when the fields other
    than [_] have pairwise distinct identities and there are no more
    tags than fields; it panics with "multiple fields with the same
    name" in the first case it rejects, and with "more tags than
    fields" in the second. Blank fields never clash. *)
Theorem NewStruct_accepts (fields : list Var) (tags : list string) :
  NewStruct fields tags
  = if bool_decide (NoDup (fieldIds fields)) then
      if bool_decide (length tags <= length fields)%nat
      then Ok (Struct fields tags)
      else Panic MoreTagsThanFields
    else Panic MultipleFields.
Proof.
  unfold NewStruct. rewrite insertFields_spec.
  destruct (bool_decide (NoDup (fieldIds fields))) eqn:Hnd.
  - apply bool_decide_eq_true in Hnd.
    rewrite bool_decide_eq_true_2.
    2:{ split; [done|]. apply Forall_forall. intros x _. apply not_elem_of_empty. }
    simpl.
    destruct (Nat.ltb_spec (length fields) (length tags)).
    + by rewrite bool_decide_eq_false_2 by lia.
    + by rewrite bool_decide_eq_true_2 by lia.
  - apply bool_decide_eq_false in Hnd.
    rewrite bool_decide_eq_false_2; [done|]. by intros [? _].
Qed.

Lemma insertTypeParams_spec tset (typeParams : list string) :
  insertTypeParams tset typeParams
  = if bool_decide (NoDup typeParams ∧ Forall (fun x => x ∉ tset) typeParams)
    then Ok (list_to_set typeParams ∪ tset) else Panic DuplicateTypeParameter.
Proof.
  revert tset. induction typeParams as [|t tps IH]; intros tset.
  - cbn [insertTypeParams]. rewrite bool_decide_eq_true_2.
    + simpl. by rewrite (left_id_L ∅ (∪)).
    + split; constructor.
  - simpl. destruct (bool_decide (t ∈ tset)) eqn:Hin.
    + apply bool_decide_eq_true in Hin.
      rewrite bool_decide_eq_false_2; [done|].
      intros [_ Hd]. by apply Forall_cons in Hd as [? _].
    + apply bool_decide_eq_false in Hin. rewrite IH.
      destruct (bool_decide (NoDup tps ∧ Forall (fun x => x ∉ {[t]} ∪ tset) tps)) eqn:Hb.
      * apply bool_decide_eq_true in Hb as [Hnd Hd]. rewrite Forall_forall in Hd.
        rewrite bool_decide_eq_true_2.
        -- simpl. f_equal.
           by rewrite (assoc_L (∪)), (comm_L (∪) (list_to_set tps)).
        -- rewrite NoDup_cons, Forall_cons, Forall_forall.
           split; [split; [|done]|split; [done|]].
           ++ intros Hx. apply (Hd _ Hx), elem_of_union_l. by apply elem_of_singleton.
           ++ intros x Hx Hin'. by apply (Hd x Hx), elem_of_union_r.
      * apply bool_decide_eq_false in Hb.
        rewrite bool_decide_eq_false_2; [done|].
        rewrite NoDup_cons, Forall_cons, Forall_forall.
        intros [[Hnotin Hnd] [_ Hd]]. apply Hb. split; [done|].
        apply Forall_forall.
        intros x Hx. apply not_elem_of_union. split.
        -- apply not_elem_of_singleton. intros ->. done.
        -- by apply Hd.
Qed.

(** X5: the signature constructor that [replaceTypesInSignature] calls
    returns the signature exactly when a variadic signature has a last
    parameter of slice type and, if the function has type parameters of
    its own, these and the receiver's are pairwise distinct; the panics
    come in that order. Without type parameters of its own the
    receiver's are not checked. The new signature has no declaring
    object. *)
Theorem NewSignature_accepts recv (params results : list Var) variadic
    (typeParams recvTypeParams : list string) :
  NewSignature recv params results variadic typeParams recvTypeParams
  = if variadic && bool_decide (params = []) then Panic VariadicNoParameter
    else if variadic
            && negb (from_option (fun p => isSlice (v_typ p)) false (last params))
    then Panic VariadicNotSlice
    else if bool_decide (typeParams ≠ [])
            && negb (bool_decide (NoDup (typeParams ++ recvTypeParams)))
    then Panic DuplicateTypeParameter
    else Ok {| s_recv := recv; s_params := params; s_results := results;
               s_variadic := variadic; s_typeParams := typeParams;
               s_recvTypeParams := recvTypeParams; s_obj := None |}.
Proof.
  unfold NewSignature.
  assert (Hdup :
    (if (0 <? length typeParams)%nat then
       tset ← insertTypeParams ∅ typeParams;
       _ ← insertTypeParams tset recvTypeParams; Ok tt
     else Ok tt)
    = if bool_decide (typeParams ≠ [])
         && negb (bool_decide (NoDup (typeParams ++ recvTypeParams)))
      then Panic DuplicateTypeParameter else Ok tt).
  { destruct typeParams as [|t tps]; [done|].
    rewrite (bool_decide_eq_true_2 (t :: tps ≠ [])) by done.
    change (0 <? length (t :: tps))%nat with true. cbv iota.
    rewrite insertTypeParams_spec.
    destruct (bool_decide (NoDup (t :: tps) ∧ _)) eqn:H1.
    - apply bool_decide_eq_true in H1 as [Hnd _]. simpl mbind.
      rewrite insertTypeParams_spec.
      destruct (bool_decide (NoDup recvTypeParams ∧ _)) eqn:H2.
      + apply bool_decide_eq_true in H2 as [Hnd2 Hd]. rewrite Forall_forall in Hd.
        rewrite bool_decide_eq_true_2; [done|].
        apply NoDup_app. split; [done|]. split; [|done].
        intros x Hx Hx2. apply (Hd x Hx2), elem_of_union_l.
        change ({[t]} ∪ list_to_set tps : gset string)
          with (list_to_set (C := gset string) (t :: tps)).
        by apply elem_of_list_to_set.
      + apply bool_decide_eq_false in H2.
        rewrite bool_decide_eq_false_2; [done|].
        intros Hall. apply NoDup_app in Hall as (_ & Hd & Hnd2).
        apply H2. split; [done|]. apply Forall_forall. intros x Hx Hin.
        apply elem_of_union in Hin as [Hin|Hin]; [|by apply not_elem_of_empty in Hin].
        change ({[t]} ∪ list_to_set tps : gset string)
          with (list_to_set (C := gset string) (t :: tps)) in Hin.
        apply elem_of_list_to_set in Hin. by apply (Hd x).
    - apply bool_decide_eq_false in H1. simpl mbind.
      rewrite bool_decide_eq_false_2; [done|].
      intros Hall. apply NoDup_app in Hall as (Hnd & _). apply H1.
      split; [done|]. apply Forall_forall. intros x _. apply not_elem_of_empty. }
  rewrite Hdup. clear Hdup.
  destruct variadic; simpl.
  - destruct params as [|p ps _] using rev_ind; [done|].
    rewrite (bool_decide_eq_false_2 ((ps ++ [p])%list = []))
      by (apply not_eq_sym, app_cons_not_nil).
    rewrite last_snoc. simpl.
    destruct (v_typ p); simpl; try done;
      by destruct (bool_decide _ && _).
  - by destruct (bool_decide _ && _).
Qed.
End constructors.

Section substitution.
Context `{Env}.
Implicit Types (M : gmap string Type_) (st : State).

Lemma insertFields_mapVar g fset (fields : list Var) :
  insertFields fset (map (mapVar g) fields) = insertFields fset fields.
Proof.
  revert fset. induction fields as [|f fields IH]; intros fset; [done|].
  simpl. destruct (String.eqb _ _); [done|].
  destruct (bool_decide _); [done|]. apply IH.
Qed.

Lemma NewStruct_mapVar g (fields : list Var) tags :
  isOk (NewStruct fields tags) = true →
  NewStruct (map (mapVar g) fields) tags = Ok (Struct (map (mapVar g) fields) tags).
Proof.
  unfold NewStruct. rewrite insertFields_mapVar, length_map.
  destruct (insertFields ∅ fields); simpl; [|done].
  by destruct (_ <? _)%nat.
Qed.

Lemma last_mapVar g (params : list Var) :
  last (map (mapVar g) params) = mapVar g <$> last params.
Proof. by rewrite <- fmap_last. Qed.

Lemma NewSignature_mapVar M recv (params results : list Var)
    variadic typeParams recvTypeParams :
  isOk (NewSignature recv params results variadic typeParams recvTypeParams)
  = true →
  NewSignature (option_map (mapVar (subst M)) recv) (map (mapVar (subst M)) params)
    (map (mapVar (subst M)) results) variadic typeParams recvTypeParams
  = Ok {| s_recv := option_map (mapVar (subst M)) recv;
          s_params := map (mapVar (subst M)) params;
          s_results := map (mapVar (subst M)) results;
          s_variadic := variadic; s_typeParams := typeParams;
          s_recvTypeParams := recvTypeParams; s_obj := None |}.
Proof.
  unfold NewSignature. rewrite last_mapVar.
  destruct variadic.
  - destruct (last params) as [p|]; simpl; [|done].
    destruct (v_typ p); simpl; try done.
    destruct (0 <? length typeParams)%nat; [|done].
    destruct (insertTypeParams ∅ typeParams); simpl; [|done].
    by destruct (insertTypeParams _ recvTypeParams).
  - simpl. destruct (0 <? length typeParams)%nat; [|done].
    destruct (insertTypeParams ∅ typeParams); simpl; [|done].
    by destruct (insertTypeParams _ recvTypeParams).
Qed.

Lemma mapM_replaceVar_subst M (vars : list Var) :
  Forall (fun v => regular (v_typ v) = true →
            ∀ st, replaceTypes (v_typ v) M st = Ok (subst M (v_typ v), st))
         vars →
  forallb (fun v => regular (v_typ v)) vars = true →
  ∀ st, mapM (replaceVar replaceTypes M) vars st
        = Ok (map (mapVar (subst M)) vars, st).
Proof.
  induction 1 as [|v vars Hv _ IH]; intros Hall st; [done|].
  simpl in Hall. apply andb_true_iff in Hall as [Hs Hall].
  simpl.
  erewrite bind_Ok; last first.
  { unfold replaceVar. erewrite bind_Ok; [|by apply Hv]. done. }
  erewrite bind_Ok; [|by apply IH]. done.
Qed.

Lemma replaceTypesInSignature_subst M (sig : Sig) :
  PSig (fun t => regular t = true →
          ∀ st, replaceTypes t M st = Ok (subst M t, st)) sig →
  regular (Signature sig) = true →
  ∀ st, replaceTypesInSignature replaceTypes sig M st = Ok (substSig M sig, st).
Proof.
  destruct sig as [recv params results variadic tps rtps obj].
  intros (IHr & IHp & IHres) Hs st. simpl in *.
  repeat (apply andb_true_iff in Hs as [Hs ?]).
  unfold replaceTypesInSignature. simpl.
  erewrite bind_Ok; last first.
  { instantiate (1 := st). instantiate (1 := option_map (mapVar (subst M)) recv).
    destruct recv as [r|]; [|done]. simpl.
    apply fmap_Ok. unfold replaceVar.
    erewrite bind_Ok; [|by apply IHr]. done. }
  erewrite bind_Ok; [|by apply mapM_replaceVar_subst].
  erewrite bind_Ok; [|by apply mapM_replaceVar_subst].
  erewrite bind_Ok; last first.
  { unfold lift.
    by rewrite (NewSignature_mapVar M recv params results variadic tps rtps). }
  done.
Qed.

(** [replaceTypes] computes [subst] on regular types, and leaves the
    state alone. *)
Lemma replaceTypes_subst M (t : Type_) :
  regular t = true →
  ∀ st, replaceTypes t M st = Ok (subst M t, st).
Proof.
  induction t as
    [ | kind | len elem IH | elem IH | name | fields tags IH | base IH
    | vars IH | sig IH | sig tps tm IH | ms es am IHm IHe
    | key elem IHk IHe | dir elem IH | named IH | named tps tm IH ]
    using Type_ind'; intros Hs st; simpl in Hs; try discriminate.
  - done.
  - simpl. erewrite bind_Ok; [|by apply IH]. done.
  - simpl. erewrite bind_Ok; [|by apply IH]. done.
  - simpl. destruct (M !! name) as [u|]; [|done]. by destruct (isTypeParam u).
  - apply andb_true_iff in Hs as [Hf Hok].
    simpl. unfold replaceTypesInStruct.
    erewrite bind_Ok; [|by apply mapM_replaceVar_subst].
    unfold lift. by rewrite (NewStruct_mapVar (subst M) fields tags Hok).
  - simpl. erewrite bind_Ok; [|by apply IH]. done.
  - change (replaceTypes (Signature sig) M st)
      with ((Signature <$> replaceTypesInSignature replaceTypes sig M) st).
    change (subst M (Signature sig)) with (Signature (substSig M sig)).
    apply fmap_Ok. by apply replaceTypesInSignature_subst.
  - apply andb_true_iff in Hs as [Hk He].
    simpl. erewrite bind_Ok; [|by apply IHk]. erewrite bind_Ok; [|by apply IHe]. done.
  - simpl. erewrite bind_Ok; [|by apply IH]. done.
  - destruct IH as [IHu _].
    change (replaceTypes (Named named) M st)
      with ((Named <$> replaceTypesInNamed replaceTypes named M) st).
    simpl subst. apply fmap_Ok. unfold replaceTypesInNamed.
    erewrite bind_Ok; [|by apply IHu]. done.
Qed.

Lemma map_mapVar_id g (vars : list Var) :
  Forall (fun v => g (v_typ v) = v_typ v) vars → map (mapVar g) vars = vars.
Proof.
  induction 1 as [|v vars Hv _ IH]; [done|]. simpl. rewrite IH. f_equal.
  unfold mapVar, setVarType. rewrite Hv. by destruct v.
Qed.

Lemma forallb_map_mapVar (P : Type_ → bool) g (vars : list Var) :
  forallb (fun v => P (v_typ v)) (map (mapVar g) vars)
  = forallb (fun v => P (g (v_typ v))) vars.
Proof. induction vars as [|v vars IH]; [done|]. simpl. by rewrite IH. Qed.

(** The step of the proofs below on the fields, parameters or results
    of a node. *)
Lemma forallb_vars (P Q : Type_ → bool) (vars : list Var) :
  Forall (fun v => P (v_typ v) = true → Q (v_typ v) = true) vars →
  forallb (fun v => P (v_typ v)) vars = true →
  forallb (fun v => Q (v_typ v)) vars = true.
Proof.
  intros IH HP. apply forallb_forall. rewrite forallb_forall in HP.
  rewrite Forall_forall in IH.
  intros v Hv. apply IH; [by apply list_elem_of_In|]. by apply HP.
Qed.

Lemma subst_untouched M (t : Type_) :
  untouched M t = true → subst M t = t.
Proof.
  induction t as
    [ | kind | len elem IH | elem IH | name | fields tags IH | base IH
    | vars IH | sig IH | sig tps tm IH | ms es am IHm IHe
    | key elem IHk IHe | dir elem IH | named IH | named tps tm IH ]
    using Type_ind'; intros Hu; simpl in Hu; try done; simpl.
  - by rewrite IH.
  - by rewrite IH.
  - destruct (M !! name) as [u|]; [|done]. by rewrite Hu.
  - f_equal. apply map_mapVar_id.
    rewrite forallb_forall in Hu. rewrite Forall_forall in IH |- *.
    intros v Hv. apply IH; [done|]. by apply Hu, list_elem_of_In.
  - by rewrite IH.
  - destruct sig as [recv params results variadic tps rtps obj].
    destruct IH as (IHr & IHp & IHres). simpl in *.
    apply andb_true_iff in Hu as [Hu Hres]. apply andb_true_iff in Hu as [Hr Hp].
    f_equal. f_equal.
    + destruct recv as [r|]; [|done]. simpl. f_equal.
      unfold mapVar, setVarType. rewrite (IHr Hr). by destruct r.
    + apply map_mapVar_id. rewrite forallb_forall in Hp.
      rewrite Forall_forall in IHp |- *.
      intros v Hv. apply IHp; [done|]. by apply Hp, list_elem_of_In.
    + apply map_mapVar_id. rewrite forallb_forall in Hres.
      rewrite Forall_forall in IHres |- *.
      intros v Hv. apply IHres; [done|]. by apply Hres, list_elem_of_In.
  - apply andb_true_iff in Hu as [Hk He]. by rewrite IHk, IHe.
  - by rewrite IH.
  - destruct IH as [IHu _]. rewrite (IHu Hu). by destruct named.
Qed.

(** X6: a type none of whose type parameters the map binds to a type that
    is not a type parameter comes back equal, and the state is
    untouched; so does every regular type under the empty (or nil)
    map. *)
Theorem replaceTypes_untouched M (t : Type_) st :
  regular t = true → untouched M t = true →
  replaceTypes t M st = Ok (t, st).
Proof.
  intros Hr Hu. rewrite (replaceTypes_subst M t Hr). by rewrite subst_untouched.
Qed.

Lemma noParams_untouched M (t : Type_) : noParams t = true → untouched M t = true.
Proof.
  induction t as
    [ | kind | len elem IH | elem IH | name | fields tags IH | base IH
    | vars IH | sig IH | sig tps tm IH | ms es am IHm IHe
    | key elem IHk IHe | dir elem IH | named IH | named tps tm IH ]
    using Type_ind'; simpl; try done.
  - by apply forallb_vars.
  - destruct IH as (IHr & IHp & IHres). intros Hn.
    apply andb_true_iff in Hn as [Hn Hres]. apply andb_true_iff in Hn as [Hr Hp].
    rewrite !andb_true_iff. repeat split.
    + destruct (s_recv sig); [by apply IHr|done].
    + by apply (forallb_vars noParams).
    + by apply (forallb_vars noParams).
  - intros Hn. apply andb_true_iff in Hn as [Hk He]. by rewrite IHk, IHe.
  - destruct IH as [IHu _]. apply IHu.
Qed.

Lemma noParams_subst M (t : Type_) :
  covered M t = true → noParams (subst M t) = true.
Proof.
  induction t as
    [ | kind | len elem IH | elem IH | name | fields tags IH | base IH
    | vars IH | sig IH | sig tps tm IH | ms es am IHm IHe
    | key elem IHk IHe | dir elem IH | named IH | named tps tm IH ]
    using Type_ind'; simpl; try done.
  - destruct (M !! name) as [u|]; [|done]. intros Hu.
    destruct (isTypeParam u) eqn:Hp; [|done]. by destruct u.
  - intros Hc. rewrite forallb_map_mapVar.
    by apply (forallb_vars (covered M) (fun t => noParams (subst M t))).
  - destruct IH as (IHr & IHp & IHres). intros Hc.
    apply andb_true_iff in Hc as [Hc Hres]. apply andb_true_iff in Hc as [Hr Hp].
    rewrite !forallb_map_mapVar. rewrite !andb_true_iff. repeat split.
    + destruct (s_recv sig); simpl; [by apply IHr|done].
    + by apply (forallb_vars (covered M) (fun t => noParams (subst M t))).
    + by apply (forallb_vars (covered M) (fun t => noParams (subst M t))).
  - intros Hc. apply andb_true_iff in Hc as [Hk He]. by rewrite IHk, IHe.
  - destruct IH as [IHu _]. apply IHu.
Qed.

(** X7: when the map binds every type parameter of a regular type to a
    type without type parameters, [replaceTypes] returns a type in
    which no type parameter is left. *)
Theorem replaceTypes_covered M (t : Type_) st :
  regular t = true → covered M t = true →
  ∃ r, replaceTypes t M st = Ok (r, st) ∧ noParams r = true.
Proof.
  intros Hr Hc. exists (subst M t). split.
  - by apply replaceTypes_subst.
  - by apply noParams_subst.
Qed.

Lemma regular_subst M (t : Type_) :
  (∀ p u, M !! p = Some u → regular u = true) →
  regular t = true → regular (subst M t) = true.
Proof.
  intros HM.
  induction t as
    [ | kind | len elem IH | elem IH | name | fields tags IH | base IH
    | vars IH | sig IH | sig tps tm IH | ms es am IHm IHe
    | key elem IHk IHe | dir elem IH | named IH | named tps tm IH ]
    using Type_ind'; simpl; try done.
  - intros _. destruct (M !! name) as [u|] eqn:Hu; [|done].
    destruct (isTypeParam u); [done|]. by eapply HM.
  - intros Hr. apply andb_true_iff in Hr as [Hf Hok].
    rewrite forallb_map_mapVar, (NewStruct_mapVar _ _ _ Hok). simpl.
    rewrite andb_true_r.
    by apply (forallb_vars regular (fun t => regular (subst M t))).
  - destruct sig as [recv params results variadic tps rtps obj].
    destruct IH as (IHr & IHp & IHres). simpl in *. intros Hr.
    apply andb_true_iff in Hr as [Hr Hok]. apply andb_true_iff in Hr as [Hr Hres].
    apply andb_true_iff in Hr as [Hr Hp].
    rewrite !forallb_map_mapVar, (NewSignature_mapVar M _ _ _ _ _ _ Hok). simpl.
    rewrite andb_true_r. rewrite !andb_true_iff. repeat split.
    + destruct recv; simpl; [by apply IHr|done].
    + by apply (forallb_vars regular (fun t => regular (subst M t))).
    + by apply (forallb_vars regular (fun t => regular (subst M t))).
  - intros Hr. apply andb_true_iff in Hr as [Hk He]. by rewrite IHk, IHe.
  - destruct IH as [IHu _]. apply IHu.
Qed.

Lemma untouched_subst M (t : Type_) :
  (∀ p u, M !! p = Some u → noParams u = true) →
  untouched M (subst M t) = true.
Proof.
  intros HM.
  induction t as
    [ | kind | len elem IH | elem IH | name | fields tags IH | base IH
    | vars IH | sig IH | sig tps tm IH | ms es am IHm IHe
    | key elem IHk IHe | dir elem IH | named IH | named tps tm IH ]
    using Type_ind'; simpl; try done.
  - destruct (M !! name) as [u|] eqn:Hu.
    + destruct (isTypeParam u) eqn:Hp.
      * simpl. by rewrite Hu.
      * apply noParams_untouched. by eapply HM.
    + simpl. by rewrite Hu.
  - rewrite forallb_map_mapVar.
    apply forallb_forall. rewrite Forall_forall in IH.
    intros v Hv. by apply IH, list_elem_of_In.
  - destruct IH as (IHr & IHp & IHres).
    rewrite !forallb_map_mapVar. rewrite !andb_true_iff. repeat split.
    + by destruct (s_recv sig).
    + apply forallb_forall. rewrite Forall_forall in IHp.
      intros v Hv. by apply IHp, list_elem_of_In.
    + apply forallb_forall. rewrite Forall_forall in IHres.
      intros v Hv. by apply IHres, list_elem_of_In.
  - by rewrite IHk, IHe.
  - by destruct IH.
Qed.

(** X8: substituting twice is substituting once, on regular types
    (basic types and type parameters under pointers, slices, arrays,
    channels, maps, named types and constructor-accepted structs and
    signatures). When the root is regular and the map binds type
    parameters to regular types without type parameters only,
    [replaceTypes] succeeds without touching the state, and on its own
    result, under the same map, it returns that result. *)
Theorem replaceTypes_idempotent M (t : Type_) st :
  regular t = true →
  (∀ p u, M !! p = Some u → regular u = true ∧ noParams u = true) →
  ∃ r, replaceTypes t M st = Ok (r, st) ∧ replaceTypes r M st = Ok (r, st).
Proof.
  intros Hr HM. exists (subst M t). split; [by apply replaceTypes_subst|].
  rewrite replaceTypes_subst.
  - rewrite subst_untouched; [done|].
    apply untouched_subst. intros p u Hu. by destruct (HM p u Hu).
  - apply regular_subst; [|done]. intros p u Hu. by destruct (HM p u Hu).
Qed.

(** X9: on a named type whose underlying type is regular,
    [replaceTypes] succeeds without touching the state and substitutes
    the underlying type and nothing else: the result is a named type
    with the same object, the same type parameters and the same methods,
    unsubstituted. *)
Theorem replaceTypes_Named M (named : NamedT) st :
  regular (n_underlying named) = true →
  ∃ newUnderlying,
    replaceTypes (n_underlying named) M st = Ok (newUnderlying, st)
    ∧ replaceTypes (Named named) M st
      = Ok (Named {| n_obj := n_obj named; n_underlying := newUnderlying;
                     n_methods := n_methods named;
                     n_typeParams := n_typeParams named |}, st).
Proof.
  intros Hr. exists (subst M (n_underlying named)). split.
  - by apply replaceTypes_subst.
  - by apply (replaceTypes_subst M (Named named)).
Qed.

Lemma replaceTypesInMethods_subst M (methods : list Func) st :
  forallb plainMethod methods = true →
  replaceTypesInMethods replaceTypes methods M st = Ok (substMethods M methods, st).
Proof.
  unfold replaceTypesInMethods, substMethods. revert st.
  induction methods as [|m methods IH]; intros st Hall; [done|].
  simpl in Hall. apply andb_true_iff in Hall as [Hm Hall].
  cbn [mapM].
  erewrite (bind_Ok _ _ st {| f_obj := f_obj m; f_typ := subst M (f_typ m) |} st);
    last first.
  { unfold replaceMethod, plainMethod in Hm |- *.
    destruct (f_typ m) as [| | | | | | | |sig| | | | | |] eqn:Ht; try discriminate.
    apply andb_true_iff in Hm as [Hrecv Hreg].
    apply bool_decide_eq_true in Hrecv as [recv Hrecv]. rewrite Hrecv.
    assert (Hmap : createMethodTypeMap (v_typ recv) M = M).
    { simpl in Hreg. rewrite Hrecv in Hreg.
      destruct (v_typ recv); try done. }
    rewrite Hmap.
    erewrite bind_Ok; last first.
    { apply replaceTypesInSignature_subst; [|done].
      repeat split.
      - rewrite Hrecv. intros Hr st0. by apply replaceTypes_subst.
      - apply Forall_forall. intros v _ Hr st0. by apply replaceTypes_subst.
      - apply Forall_forall. intros v _ Hr st0. by apply replaceTypes_subst. }
    reflexivity. }
  erewrite bind_Ok; [|by apply IH]. done.
Qed.

(** X10: [replaceTypesInMethods] on plain methods, each a signature
    with a receiver that is regular throughout (receiver, parameters and
    results regular, the signature accepted by its constructor),
    succeeds without touching the state and returns as many methods,
    with the same objects in the same order, the type of each being what
    [replaceTypes] makes of it. *)
Theorem replaceTypesInMethods_plain M (methods : list Func) st :
  forallb plainMethod methods = true →
  ∃ newMethods,
    replaceTypesInMethods replaceTypes methods M st = Ok (newMethods, st)
    ∧ map f_obj newMethods = map f_obj methods
    ∧ ∀ i m, methods !! i = Some m →
        ∃ newTyp, replaceTypes (f_typ m) M st = Ok (newTyp, st)
                  ∧ newMethods !! i = Some {| f_obj := f_obj m; f_typ := newTyp |}.
Proof.
  intros Hall. eexists. split; [by apply replaceTypesInMethods_subst|]. split.
  - unfold substMethods. by rewrite map_map.
  - intros i m Hi. exists (subst M (f_typ m)). split.
    + apply replaceTypes_subst.
      rewrite forallb_forall in Hall.
      assert (Hm : plainMethod m = true).
      { apply Hall, list_elem_of_In. by eapply list_elem_of_lookup_2. }
      unfold plainMethod in Hm. destruct (f_typ m); try discriminate.
      by apply andb_true_iff in Hm as [_ ?].
    + pose proof (list_lookup_fmap
                    (fun m => {| f_obj := f_obj m; f_typ := subst M (f_typ m) |})
                    methods i) as Hl.
      etransitivity; [exact Hl|].
      exact (fmap_Some_2
               (fun m => {| f_obj := f_obj m; f_typ := subst M (f_typ m) |}) _ _ Hi).
Qed.

(** [replaceTypes] on a concrete named type: the type built for the
    inherited map, handed to [addGenericUsage]. *)
Lemma replaceTypesInConcreteNamed_eq named tps rootMap M st :
  regular (n_underlying named) = true →
  forallb plainMethod (n_methods named) = true →
  replaceTypes (ConcreteNamed named tps rootMap) M st
  = (_ ← addGenericUsage (n_obj named)
           (instantiate named tps (inheritTypeMap rootMap M))
           (inheritTypeMap rootMap M);
     mret (instantiate named tps (inheritTypeMap rootMap M))) st.
Proof.
  intros Hunder Hmethods.
  simpl. unfold replaceTypesInConcreteNamed.
  erewrite bind_Ok; last first.
  { unfold replaceTypesInNamed. erewrite bind_Ok; [|by apply replaceTypes_subst]. done. }
  erewrite bind_Ok; [|by apply replaceTypesInMethods_subst].
  done.
Qed.

(** X11: [replaceTypes] completes a concrete named type and records it,
    for a concrete named type with a regular underlying type and plain
    methods whose object is registered in its package. The inner map is
    rewritten by the outer one ([inheritTypeMap]); when the rewritten map
    has no type-parameter value and binds every type parameter of the
    registered declaration to a type that is not nil, the result is the
    concrete named type for the rewritten map (underlying type and
    methods substituted under it, not under the outer map) and the
    registry holds it as a usage under its key. *)
Theorem replaceTypes_ConcreteNamed_records named tps rootMap M pkg decl st :
  regular (n_underlying named) = true →
  forallb plainMethod (n_methods named) = true →
  o_pkg (n_obj named) = Some pkg →
  lookupDecl pkg (o_name (n_obj named)) st = Some decl →
  (∀ k t, inheritTypeMap rootMap M !! k = Some t → isTypeParam t = false) →
  (∀ p, p ∈ d_typeParams decl → index (inheritTypeMap rootMap M) p ≠ TNil) →
  ∃ key st',
    usageKey (inheritTypeMap rootMap M) (d_typeParams decl) = Ok key
    ∧ replaceTypes (ConcreteNamed named tps rootMap) M st
      = Ok (instantiate named tps (inheritTypeMap rootMap M), st')
    ∧ usagesOf (n_obj named) st'
      = <[key := {| u_typeMap := inheritTypeMap rootMap M;
                    u_typ := instantiate named tps (inheritTypeMap rootMap M) |}]>
          (d_usages decl).
Proof.
  intros Hunder Hmethods Hpkg Hdecl Hcomplete Hbound.
  apply lookupDecl_packages in Hdecl as (generics & Hp & Hd).
  pose proof (usageKey_Ok _ (d_typeParams decl) Hbound) as Hkey.
  eexists _, _. split; [exact Hkey|].
  rewrite replaceTypesInConcreteNamed_eq by done.
  erewrite bind_Ok; last first.
  { apply (transform_spec.addGenericUsage_records _ pkg generics decl); try done.
    by apply hasTypeParam_false. }
  split; [done|].
  unfold usagesOf. rewrite Hpkg. simpl. rewrite lookup_insert_eq. simpl.
  by rewrite lookup_insert_eq.
Qed.

(** X12: for a concrete named type with a regular underlying type and
    plain methods, when the rewritten map still has a type-parameter
    value, [replaceTypes] returns the type for that map and records
    nothing: the state is unchanged, whether or not the object is
    registered. *)
Theorem replaceTypes_ConcreteNamed_partial named tps rootMap M k p st :
  regular (n_underlying named) = true →
  forallb plainMethod (n_methods named) = true →
  inheritTypeMap rootMap M !! k = Some (TypeParam p) →
  replaceTypes (ConcreteNamed named tps rootMap) M st
  = Ok (instantiate named tps (inheritTypeMap rootMap M), st).
Proof.
  intros Hunder Hmethods Hk. rewrite replaceTypesInConcreteNamed_eq by done.
  unfold mbind, M_bind, addGenericUsage.
  rewrite (proj2 (hasTypeParam_true _)); [done|]. eauto.
Qed.

(** X13: [replaceTypes] on a concrete named type with a regular
    underlying type and plain methods, whose rewritten map has no
    type-parameter value, panics with "declaration not found for
    generic object" when the registry of the object's package has no
    entry under its name. *)
Theorem replaceTypes_ConcreteNamed_undeclared named tps rootMap M pkg st :
  regular (n_underlying named) = true →
  forallb plainMethod (n_methods named) = true →
  o_pkg (n_obj named) = Some pkg →
  lookupDecl pkg (o_name (n_obj named)) st = None →
  (∀ k t, inheritTypeMap rootMap M !! k = Some t → isTypeParam t = false) →
  replaceTypes (ConcreteNamed named tps rootMap) M st
  = Panic (DeclarationNotFound (Some pkg) (o_name (n_obj named))).
Proof.
  intros Hunder Hmethods Hpkg Hnone Hcomplete.
  rewrite replaceTypesInConcreteNamed_eq by done.
  unfold mbind, M_bind, addGenericUsage.
  unfold lookupDecl in Hnone.
  rewrite (proj2 (hasTypeParam_false _) Hcomplete), Hpkg, Hnone. done.
Qed.
End substitution.

Section method_map.
Context `{Env}.
Implicit Types (typeMap recvMap : gmap string Type_).

(** X14: the map [createMethodTypeMap] builds for a receiver that is a
    concrete named type with type parameters keeps the binding of every
    name that is not a type-parameter value of the receiver's map, and
    binds a type parameter that is the value of exactly one entry
    [name] of the receiver's map to what the given map has at [name]
    (nil when it has nothing there). *)
Theorem createMethodTypeMap_rebinds named tps recvMap typeMap :
  tps ≠ [] →
  let newTypeMap := createMethodTypeMap (ConcreteNamed named tps recvMap) typeMap in
  (∀ k, (∀ name, recvMap !! name ≠ Some (TypeParam k)) →
        newTypeMap !! k = typeMap !! k)
  ∧ (∀ name tp,
       recvMap !! name = Some (TypeParam tp) →
       (∀ name', recvMap !! name' = Some (TypeParam tp) → name' = name) →
       newTypeMap !! tp = Some (index typeMap name)).
Proof.
  intros Htps. simpl. destruct tps as [|tp0 tps']; [done|]. simpl.
  clear Htps.
  apply (map_fold_weak_ind
    (fun r m =>
       (∀ k, (∀ name, m !! name ≠ Some (TypeParam k)) → r !! k = typeMap !! k)
       ∧ (∀ name tp, m !! name = Some (TypeParam tp) →
            (∀ name', m !! name' = Some (TypeParam tp) → name' = name) →
            r !! tp = Some (index typeMap name)))).
  - split; [done|]. intros name tp. by rewrite lookup_empty.
  - intros i x m r Hi [IHa IHb]. split.
    + intros k Hk.
      assert (Hm : ∀ name, m !! name ≠ Some (TypeParam k)).
      { intros name Hn. apply (Hk name).
        rewrite lookup_insert_ne; [done|]. intros ->. by rewrite Hi in Hn. }
      destruct x; try by apply IHa.
      rewrite lookup_insert_ne; [by apply IHa|].
      intros ->. apply (Hk i). by rewrite lookup_insert_eq.
    + intros name tp Hname Huniq.
      destruct (decide (name = i)) as [->|Hne].
      * rewrite lookup_insert_eq in Hname. injection Hname as ->.
        simpl. by rewrite lookup_insert_eq.
      * rewrite lookup_insert_ne in Hname by done.
        assert (Hx : x ≠ TypeParam tp).
        { intros ->. apply Hne. symmetry. apply Huniq. by rewrite lookup_insert_eq. }
        assert (Hr : r !! tp = Some (index typeMap name)).
        { apply IHb; [done|]. intros name' Hn'. apply Huniq.
          rewrite lookup_insert_ne; [done|]. intros ->. by rewrite Hi in Hn'. }
        destruct x; try done.
        rewrite lookup_insert_ne; [done|]. intros ->. by apply Hx.
Qed.
End method_map.

Section type_arguments.
Context `{Env}.

Lemma bindTypeArgs_index typeOf params genericParams acc st :
  (∀ e st, rawExpr e st = Ok (typeOf e, st)) →
  NoDup genericParams →
  (∀ p, p ∈ genericParams → acc !! p = None) →
  ∃ typeMap, bindTypeArgs params genericParams acc st = Ok (typeMap, st)
    ∧ (∀ p, p ∉ genericParams → typeMap !! p = acc !! p)
    ∧ ∀ i p e, genericParams !! i = Some p → params !! i = Some e →
        index typeMap p = typeOf e.
Proof.
  intros rawExpr_pure.
  revert genericParams acc. induction params as [|e params IH]; intros gps acc Hnd Hacc.
  - exists acc. split; [by destruct gps|]. split; [done|]. intros i p e' _ Hi.
    by rewrite lookup_nil in Hi.
  - destruct gps as [|gp gps].
    { exists acc. split; [done|]. split; [done|]. intros i p e' Hi. by rewrite lookup_nil in Hi. }
    apply NoDup_cons in Hnd as [Hgp Hnd].
    simpl. unfold mbind, M_bind. rewrite rawExpr_pure.
    set (acc' := match typeOf e with TNil => acc | _ => <[gp := typeOf e]> acc end).
    assert (Hacc' : ∀ p, p ∈ gps → acc' !! p = None).
    { intros p Hp. assert (p ≠ gp) by (intros ->; done).
      assert (acc !! p = None) by (apply Hacc; by right).
      unfold acc'. destruct (typeOf e); try done; by rewrite lookup_insert_ne. }
    destruct (IH gps acc' Hnd Hacc') as (typeMap & Hrun & Hframe & Hidx).
    exists typeMap. split; [done|]. split.
    { intros p Hp. apply not_elem_of_cons in Hp as [Hne Hp].
      rewrite (Hframe p Hp). unfold acc'.
      destruct (typeOf e); try done; by rewrite lookup_insert_ne. }
    intros i p e' Hp He. destruct i as [|i]; simpl in *.
    + injection Hp as <-. injection He as <-.
      unfold index. rewrite (Hframe gp Hgp). unfold acc'.
      destruct (typeOf e) eqn:Ht; try (by rewrite lookup_insert_eq).
      rewrite Hacc; [done|by left].
    + by eapply Hidx.
Qed.

Lemma createTypeMap_index typeOf params genericParams st :
  (∀ e st, rawExpr e st = Ok (typeOf e, st)) →
  length params = length genericParams →
  NoDup genericParams →
  ∃ typeMap,
    createTypeMap params genericParams st = Ok (typeMap, st)
    ∧ (∀ i p e, genericParams !! i = Some p → params !! i = Some e →
         index typeMap p = typeOf e)
    ∧ (∀ p, p ∉ genericParams → typeMap !! p = None).
Proof.
  intros rawExpr_pure Hlen Hnd. unfold createTypeMap.
  rewrite Hlen, Nat.eqb_refl. simpl.
  destruct (bindTypeArgs_index typeOf params genericParams ∅ st rawExpr_pure Hnd)
    as (typeMap & Hrun & Hframe & Hidx); [done|].
  exists typeMap. split; [done|]. split; [done|].
  intros p Hp. by rewrite (Hframe p Hp).
Qed.

(** X15: when as many type arguments are given as there are type
    parameters, these being pairwise distinct, and typing an argument
    changes no state, [createTypeMap] reports nothing and returns a map
    whose index at the i-th parameter is the type of the i-th argument
    (an argument of nil type leaves its parameter unbound) and that
    binds nothing else. *)
Theorem createTypeMap_binds typeOf params genericParams st :
  (∀ e st, rawExpr e st = Ok (typeOf e, st)) →
  length params = length genericParams →
  NoDup genericParams →
  ∃ typeMap,
    createTypeMap params genericParams st = Ok (typeMap, st)
    ∧ (∀ i p e, genericParams !! i = Some p → params !! i = Some e →
         index typeMap p = typeOf e)
    ∧ (∀ p, p ∉ genericParams → typeMap !! p = None).
Proof. apply createTypeMap_index. Qed.

Lemma index_Some (typeMap : gmap string Type_) p t :
  index typeMap p = t → t ≠ TNil → typeMap !! p = Some t.
Proof. unfold index. destruct (typeMap !! p); simpl; congruence. Qed.

Section concrete_type.
Variable typeOf : ast.Expr → Type_.
Variables (X : ast.Expr) (Params : list ast.Expr) (genType : NamedT).
Hypothesis rawExpr_pure : ∀ e st, rawExpr e st = Ok (typeOf e, st).
Hypothesis Hunder : regular (n_underlying genType) = true.
Hypothesis Hmethods : forallb plainMethod (n_methods genType) = true.
Hypothesis Harity : length Params = length (n_typeParams genType).
Hypothesis Hnodup : NoDup (n_typeParams genType).

Lemma concreteType_eq st :
  ∃ typeMap,
    (∀ i p e, n_typeParams genType !! i = Some p → Params !! i = Some e →
       index typeMap p = typeOf e)
    ∧ (∀ p, p ∉ n_typeParams genType → typeMap !! p = None)
    ∧ concreteType X Params (Named genType) st
      = (_ ← addGenericUsage (n_obj genType)
               (instantiate genType (n_typeParams genType) typeMap) typeMap;
         mret (instantiate genType (n_typeParams genType) typeMap)) st.
Proof using rawExpr_pure Hunder Hmethods Harity Hnodup.
  destruct (createTypeMap_index typeOf Params (n_typeParams genType) st
              rawExpr_pure Harity Hnodup)
    as (typeMap & Hrun & Hidx & Hframe).
  exists typeMap. split; [done|]. split; [done|].
  simpl. erewrite bind_Ok; [|exact Hrun].
  erewrite bind_Ok; last first.
  { unfold replaceTypesInNamed. erewrite bind_Ok; [|by apply replaceTypes_subst]. done. }
  erewrite bind_Ok; [|by apply replaceTypesInMethods_subst].
  done.
Qed.

Lemma concreteType_records st pkg decl :
  o_pkg (n_obj genType) = Some pkg →
  lookupDecl pkg (o_name (n_obj genType)) st = Some decl →
  d_typeParams decl = n_typeParams genType →
  (∀ e, e ∈ Params → typeOf e ≠ TNil ∧ isTypeParam (typeOf e) = false) →
  ∃ typeMap st',
    concreteType X Params (Named genType) st
    = Ok (instantiate genType (n_typeParams genType) typeMap, st')
    ∧ (∀ i p e, n_typeParams genType !! i = Some p → Params !! i = Some e →
         typeMap !! p = Some (typeOf e))
    ∧ (∀ p, p ∉ n_typeParams genType → typeMap !! p = None)
    ∧ usagesOf (n_obj genType) st'
      = <[String.concat "," (map (fun e => stringForm (typeOf e)) Params) :=
            {| u_typeMap := typeMap;
               u_typ := instantiate genType (n_typeParams genType) typeMap |}]>
          (d_usages decl)
    ∧ errors st' = errors st.
Proof using rawExpr_pure Hunder Hmethods Harity Hnodup.
  intros Hpkg Hdecl Hparams Hargs.
  apply lookupDecl_packages in Hdecl as (generics & Hp & Hd).
  destruct (concreteType_eq st) as (typeMap & Hidx & Hframe & Hrun).
  assert (Hbound : ∀ i p e, n_typeParams genType !! i = Some p →
                     Params !! i = Some e → typeMap !! p = Some (typeOf e)).
  { intros i p e Hi He. apply index_Some; [by eapply Hidx|].
    apply Hargs. by eapply list_elem_of_lookup_2. }
  assert (Hcomplete : ∀ k t, typeMap !! k = Some t → isTypeParam t = false).
  { intros k t Hk.
    destruct (decide (k ∈ n_typeParams genType)) as [Hin|Hout].
    - apply list_elem_of_lookup in Hin as [i Hi].
      destruct (lookup_lt_is_Some_2 Params i) as [e He].
      { rewrite Harity. by eapply lookup_lt_Some. }
      rewrite (Hbound i k e Hi He) in Hk. injection Hk as <-.
      apply Hargs. by eapply list_elem_of_lookup_2.
    - by rewrite (Hframe k Hout) in Hk. }
  assert (Hkey : usageKey typeMap (d_typeParams decl)
                 = Ok (String.concat ","
                         (map (fun e => stringForm (typeOf e)) Params))).
  { rewrite Hparams. rewrite usageKey_Ok.
    - do 2 f_equal. clear Hcomplete Hbound Hframe Hrun.
      revert Hidx Harity Hargs. generalize (n_typeParams genType) as gps.
      generalize Params as ps.
      induction ps as [|e ps IH]; intros [|gp gps] Hidx Hlen Hargs; try done.
      simpl. f_equal.
      + f_equal. by apply (Hidx 0).
      + apply IH.
        * intros i p e' Hi He'. by apply (Hidx (S i)).
        * by injection Hlen.
        * intros e' He'. apply Hargs. by right.
    - intros p Hin. apply list_elem_of_lookup in Hin as [i Hi].
      destruct (lookup_lt_is_Some_2 Params i) as [e He].
      { rewrite Harity. by eapply lookup_lt_Some. }
      rewrite (Hidx i p e Hi He). apply Hargs. by eapply list_elem_of_lookup_2. }
  eexists typeMap, _. split.
  { rewrite Hrun. erewrite bind_Ok; last first.
    { apply (transform_spec.addGenericUsage_records _ pkg generics decl); try done.
      by apply hasTypeParam_false. }
    reflexivity. }
  split; [done|]. split; [done|]. split; [|done].
  unfold usagesOf. rewrite Hpkg. simpl. rewrite lookup_insert_eq. simpl.
  by rewrite lookup_insert_eq.
Qed.

Lemma concreteType_unrecorded i e p st :
  Params !! i = Some e → typeOf e = TypeParam p →
  ∃ typeMap,
    concreteType X Params (Named genType) st
    = Ok (instantiate genType (n_typeParams genType) typeMap, st).
Proof using rawExpr_pure Hunder Hmethods Harity Hnodup.
  intros He Ht.
  destruct (concreteType_eq st) as (typeMap & Hidx & Hframe & Hrun).
  exists typeMap. rewrite Hrun.
  destruct (lookup_lt_is_Some_2 (n_typeParams genType) i) as [gp Hgp].
  { rewrite <- Harity. by eapply lookup_lt_Some. }
  unfold mbind, M_bind, addGenericUsage.
  rewrite (proj2 (hasTypeParam_true typeMap)); [done|].
  exists gp, p. apply index_Some; [|done].
  rewrite <- Ht. by eapply Hidx.
Qed.
End concrete_type.

(** X16: the instantiation of a generic named type. For a registered
    generic named type (regular underlying type, plain methods, pairwise
    distinct type parameters, the registry holding the same type
    parameters), when typing an argument changes no checker state,
    applied to as many arguments as it has parameters, each of a type
    that is neither nil nor a type parameter, [concreteType] returns the
    concrete named type whose map binds the i-th parameter to the type
    of the i-th argument and nothing else, with the underlying type and
    the methods substituted, and records it as a usage under the key
    made of the string forms of the argument types joined by ","; it
    reports no diagnostic. *)
Theorem concreteType_records_usage typeOf X Params (genType : NamedT) pkg decl st :
  (∀ e st, rawExpr e st = Ok (typeOf e, st)) →
  regular (n_underlying genType) = true →
  forallb plainMethod (n_methods genType) = true →
  length Params = length (n_typeParams genType) →
  NoDup (n_typeParams genType) →
  o_pkg (n_obj genType) = Some pkg →
  lookupDecl pkg (o_name (n_obj genType)) st = Some decl →
  d_typeParams decl = n_typeParams genType →
  (∀ e, e ∈ Params → typeOf e ≠ TNil ∧ isTypeParam (typeOf e) = false) →
  ∃ typeMap st',
    concreteType X Params (Named genType) st
    = Ok (instantiate genType (n_typeParams genType) typeMap, st')
    ∧ (∀ i p e, n_typeParams genType !! i = Some p → Params !! i = Some e →
         typeMap !! p = Some (typeOf e))
    ∧ (∀ p, p ∉ n_typeParams genType → typeMap !! p = None)
    ∧ usagesOf (n_obj genType) st'
      = <[String.concat "," (map (fun e => stringForm (typeOf e)) Params) :=
            {| u_typeMap := typeMap;
               u_typ := instantiate genType (n_typeParams genType) typeMap |}]>
          (d_usages decl)
    ∧ errors st' = errors st.
Proof. intros. by eapply concreteType_records. Qed.

(** X17: a partial instantiation is not recorded. For a generic named
    type with a regular underlying type, plain methods and pairwise
    distinct type parameters, applied to as many arguments as it has
    parameters, when typing an argument changes no checker state and one
    of the arguments has a type that is itself a type parameter (a usage
    inside a generic declaration), [concreteType] returns the concrete
    named type and leaves the registry and the diagnostics as they
    were, whether or not the type is registered. *)
Theorem concreteType_partial typeOf X Params (genType : NamedT) i e p st :
  (∀ e st, rawExpr e st = Ok (typeOf e, st)) →
  regular (n_underlying genType) = true →
  forallb plainMethod (n_methods genType) = true →
  length Params = length (n_typeParams genType) →
  NoDup (n_typeParams genType) →
  Params !! i = Some e → typeOf e = TypeParam p →
  ∃ typeMap,
    concreteType X Params (Named genType) st
    = Ok (instantiate genType (n_typeParams genType) typeMap, st).
Proof. intros. by eapply concreteType_unrecorded. Qed.
End type_arguments.

(** ** Instances *)

Lemma addGenericDecl_registers_witness :
  ∃ st',
    addGenericDecl (n_obj examples.listT) (Named examples.listT) ["T"]
      examples.st0 = Ok (tt, st')
    ∧ lookupDecl "main" "List" st'
      = Some {| d_name := "List"; d_typ := Named examples.listT;
                d_typeParams := ["T"]; d_usages := ∅ |}.
Proof.
  destruct (addGenericDecl_registers (n_obj examples.listT) (Named examples.listT)
              ["T"] "main" examples.st0)
    as (st' & Hrun & Hlookup & _); [reflexivity|].
  exists st'. split; [exact Hrun | exact Hlookup].
Defined.

Lemma addGenericUsage_recorded_witness :
  ∃ st' decl',
    addGenericUsage (H := reference.typesEnv) (n_obj examples.listT)
      (examples.concreteList (Basic Int) examples.listOfInt)
      examples.listOfInt examples.declaredList = Ok (tt, st')
    ∧ lookupDecl "main" "List" st' = Some decl'
    ∧ d_usages decl' !! "int"
      = Some {| u_typeMap := examples.listOfInt;
                u_typ := examples.concreteList (Basic Int) examples.listOfInt |}.
Proof.
  destruct (addGenericUsage_recorded (H := reference.typesEnv)
              (n_obj examples.listT) "main"
              {| d_name := "List"; d_typ := Named examples.listT;
                 d_typeParams := ["T"]; d_usages := ∅ |}
              (examples.concreteList (Basic Int) examples.listOfInt)
              examples.listOfInt examples.declaredList)
    as (key & st' & decl' & Hkey & Hrun & Hlookup & Husage & _).
  - reflexivity.
  - reflexivity.
  - intros k t Hk. unfold examples.listOfInt in Hk.
    apply lookup_singleton_Some in Hk as [_ <-]. reflexivity.
  - intros p Hp. apply list_elem_of_singleton in Hp as ->. discriminate.
  - exists st', decl'. split; [exact Hrun|]. split; [exact Hlookup|].
    vm_compute in Hkey. injection Hkey as <-. exact Husage.
Defined.

Lemma addGenericUsage_unbound_parameter_witness :
  addGenericUsage (H := reference.typesEnv) (n_obj examples.listT) TNil ∅
    examples.declaredList = Panic NilDereference.
Proof.
  apply (addGenericUsage_unbound_parameter (H := reference.typesEnv)
           (n_obj examples.listT) "main"
           {| d_name := "List"; d_typ := Named examples.listT;
              d_typeParams := ["T"]; d_usages := ∅ |} TNil ∅ "T").
  - reflexivity.
  - reflexivity.
  - intros k t Hk. by rewrite lookup_empty in Hk.
  - by left.
  - reflexivity.
Defined.

Lemma replaceTypes_untouched_witness :
  regular (H := reference.typesEnv) examples.pointerToStruct = true
  ∧ untouched {[ "U" := TypeParam "V" ]} examples.pointerToStruct = true
  ∧ replaceTypes (H := reference.typesEnv) examples.pointerToStruct
      {[ "U" := TypeParam "V" ]} examples.st0
    = Ok (examples.pointerToStruct, examples.st0).
Proof.
  split; [reflexivity|]. split; [reflexivity|].
  apply (replaceTypes_untouched (H := reference.typesEnv)); reflexivity.
Defined.

Lemma replaceTypes_covered_witness :
  ∃ r, replaceTypes (H := reference.typesEnv) examples.variadicFunc
         examples.intMap examples.st0 = Ok (r, examples.st0)
       ∧ noParams r = true.
Proof.
  apply (replaceTypes_covered (H := reference.typesEnv)); reflexivity.
Defined.

Lemma replaceTypes_idempotent_witness :
  ∃ r, replaceTypes (H := reference.typesEnv) examples.pointerToStruct
         examples.listOfInt examples.st0 = Ok (r, examples.st0)
       ∧ replaceTypes (H := reference.typesEnv) r examples.listOfInt examples.st0
         = Ok (r, examples.st0).
Proof.
  apply (replaceTypes_idempotent (H := reference.typesEnv)); [reflexivity|].
  intros p u Hu. unfold examples.listOfInt in Hu.
  apply lookup_singleton_Some in Hu as [_ <-]. split; reflexivity.
Defined.

Lemma replaceTypes_Named_witness :
  ∃ newUnderlying,
    replaceTypes (H := reference.typesEnv) (Slice (TypeParam "T"))
      examples.listOfInt examples.st0 = Ok (newUnderlying, examples.st0)
    ∧ replaceTypes (H := reference.typesEnv) (Named examples.listWithHead)
        examples.listOfInt examples.st0
      = Ok (Named {| n_obj := examples.mainObj "List";
                     n_underlying := newUnderlying;
                     n_methods := [examples.headMethod];
                     n_typeParams := ["T"] |}, examples.st0).
Proof.
  apply (replaceTypes_Named (H := reference.typesEnv) examples.listOfInt
           examples.listWithHead examples.st0).
  reflexivity.
Defined.

Lemma replaceTypesInMethods_plain_witness :
  ∃ newMethods,
    replaceTypesInMethods (replaceTypes (H := reference.typesEnv))
      [examples.headMethod] examples.listOfInt examples.st0
    = Ok (newMethods, examples.st0)
    ∧ map f_obj newMethods = [examples.mainObj "Head"].
Proof.
  destruct (replaceTypesInMethods_plain (H := reference.typesEnv)
              examples.listOfInt [examples.headMethod] examples.st0)
    as (newMethods & Hrun & Hobjs & _); [reflexivity|].
  exists newMethods. split; [exact Hrun | exact Hobjs].
Defined.

Lemma replaceTypes_ConcreteNamed_records_witness :
  ∃ st',
    replaceTypes (H := reference.typesEnv)
      (ConcreteNamed examples.listT ["T"] examples.listOfU) examples.uToInt
      examples.declaredList
    = Ok (instantiate examples.listT ["T"] examples.listOfInt, st')
    ∧ usagesOf (n_obj examples.listT) st'
      = {[ "int" := {| u_typeMap := examples.listOfInt;
                       u_typ := instantiate examples.listT ["T"] examples.listOfInt |} ]}.
Proof.
  assert (Hmap : inheritTypeMap examples.listOfU examples.uToInt = examples.listOfInt)
    by (vm_compute; reflexivity).
  destruct (replaceTypes_ConcreteNamed_records (H := reference.typesEnv)
              examples.listT ["T"] examples.listOfU examples.uToInt "main"
              {| d_name := "List"; d_typ := Named examples.listT;
                 d_typeParams := ["T"]; d_usages := ∅ |}
              examples.declaredList)
    as (key & st' & Hkey & Hrun & Husages).
  - reflexivity.
  - reflexivity.
  - reflexivity.
  - reflexivity.
  - rewrite Hmap. intros k t Hk. unfold examples.listOfInt in Hk.
    apply lookup_singleton_Some in Hk as [_ <-]. reflexivity.
  - rewrite Hmap. intros p Hp. apply list_elem_of_singleton in Hp as ->. discriminate.
  - exists st'. rewrite Hmap in Hkey, Hrun, Husages.
    vm_compute in Hkey. injection Hkey as <-.
    split; [exact Hrun | exact Husages].
Defined.

Lemma replaceTypes_ConcreteNamed_partial_witness :
  replaceTypes (H := reference.typesEnv)
    (ConcreteNamed examples.listT ["T"] examples.listOfU) ∅ examples.st0
  = Ok (instantiate examples.listT ["T"] (inheritTypeMap examples.listOfU ∅),
        examples.st0).
Proof.
  apply (replaceTypes_ConcreteNamed_partial (H := reference.typesEnv)
           examples.listT ["T"] examples.listOfU ∅ "T" "U");
    reflexivity.
Defined.

Lemma replaceTypes_ConcreteNamed_undeclared_witness :
  replaceTypes (H := reference.typesEnv)
    (ConcreteNamed examples.listT ["T"] examples.listOfU) examples.uToInt
    examples.st0
  = Panic (DeclarationNotFound (Some "main") "List").
Proof.
  apply (replaceTypes_ConcreteNamed_undeclared (H := reference.typesEnv)
           examples.listT ["T"] examples.listOfU examples.uToInt "main").
  - reflexivity.
  - reflexivity.
  - reflexivity.
  - reflexivity.
  - assert (Hmap : inheritTypeMap examples.listOfU examples.uToInt
                   = examples.listOfInt) by (vm_compute; reflexivity).
    rewrite Hmap. intros k t Hk. unfold examples.listOfInt in Hk.
    apply lookup_singleton_Some in Hk as [_ <-]. reflexivity.
Defined.

Lemma createMethodTypeMap_rebinds_witness :
  createMethodTypeMap
    (ConcreteNamed examples.listT ["T"] examples.listOfU) examples.listOfInt
  !! "U" = Some (Basic Int)
  ∧ createMethodTypeMap
      (ConcreteNamed examples.listT ["T"] examples.listOfU) examples.listOfInt
    !! "T" = Some (Basic Int).
Proof.
  destruct (createMethodTypeMap_rebinds examples.listT ["T"] examples.listOfU
              examples.listOfInt) as [Hkeep Hrebind]; [discriminate|].
  split.
  - apply (Hrebind "T" "U"); [reflexivity|].
    intros name' Hn. unfold examples.listOfU in Hn.
    by apply lookup_singleton_Some in Hn as [<- _].
  - rewrite Hkeep; [reflexivity|].
    intros name Hn. unfold examples.listOfU in Hn.
    apply lookup_singleton_Some in Hn as [_ Hn]. discriminate.
Defined.

Lemma createTypeMap_binds_witness :
  ∃ typeMap,
    createTypeMap (H := reference.typesEnv)
      [examples.ident "int"; examples.ident "string"] ["K"; "V"] examples.st0
    = Ok (typeMap, examples.st0)
    ∧ index typeMap "K" = Basic Int ∧ index typeMap "V" = Basic String.
Proof.
  destruct (createTypeMap_binds (H := reference.typesEnv) reference.typeOfExpr
              [examples.ident "int"; examples.ident "string"] ["K"; "V"]
              examples.st0)
    as (typeMap & Hrun & Hidx & _).
  - reflexivity.
  - reflexivity.
  - apply NoDup_cons. split; [|apply NoDup_singleton].
    intros Hin. apply list_elem_of_singleton in Hin. discriminate.
  - exists typeMap. split; [exact Hrun|]. split.
    + apply (Hidx 0 "K" (examples.ident "int")); reflexivity.
    + apply (Hidx 1 "V" (examples.ident "string")); reflexivity.
Defined.

Lemma NoDup_KV : NoDup ["K"; "V"].
Proof.
  apply NoDup_cons. split; [|apply NoDup_singleton].
  intros Hin. apply list_elem_of_singleton in Hin. discriminate.
Qed.

Lemma concreteType_records_usage_witness :
  ∃ typeMap st',
    concreteType (H := reference.typesEnv) (examples.ident "Pair")
      [examples.ident "int"; examples.ident "string"] (Named examples.pairT)
      examples.declaredPair
    = Ok (instantiate examples.pairT ["K"; "V"] typeMap, st')
    ∧ typeMap !! "K" = Some (Basic Int) ∧ typeMap !! "V" = Some (Basic String)
    ∧ usagesOf (n_obj examples.pairT) st'
      = {[ "int,string" :=
             {| u_typeMap := typeMap;
                u_typ := instantiate examples.pairT ["K"; "V"] typeMap |} ]}.
Proof.
  destruct (concreteType_records_usage (H := reference.typesEnv)
              reference.typeOfExpr (examples.ident "Pair")
              [examples.ident "int"; examples.ident "string"] examples.pairT
              "main"
              {| d_name := "Pair"; d_typ := Named examples.pairT;
                 d_typeParams := ["K"; "V"]; d_usages := ∅ |}
              examples.declaredPair)
    as (typeMap & st' & Hrun & Hbound & _ & Husages & _).
  - reflexivity.
  - reflexivity.
  - reflexivity.
  - reflexivity.
  - exact NoDup_KV.
  - reflexivity.
  - reflexivity.
  - reflexivity.
  - intros e He. apply elem_of_cons in He as [->|He]; [by split|].
    apply list_elem_of_singleton in He as ->. by split.
  - exists typeMap, st'. split; [exact Hrun|]. split.
    + apply (Hbound 0 "K" (examples.ident "int")); reflexivity.
    + split; [apply (Hbound 1 "V" (examples.ident "string")); reflexivity|].
      exact Husages.
Defined.

Lemma concreteType_partial_witness :
  ∃ typeMap,
    concreteType (H := reference.typesEnv) (examples.ident "Pair")
      [examples.ident "int"; examples.ident "U"] (Named examples.pairT)
      examples.declaredPair
    = Ok (instantiate examples.pairT ["K"; "V"] typeMap, examples.declaredPair).
Proof.
  apply (concreteType_partial (H := reference.typesEnv) reference.typeOfExpr
           (examples.ident "Pair") [examples.ident "int"; examples.ident "U"]
           examples.pairT 1 (examples.ident "U") "U").
  - reflexivity.
  - reflexivity.
  - reflexivity.
  - reflexivity.
  - exact NoDup_KV.
  - reflexivity.
  - reflexivity.
Defined.

End generics_props.

(** * Further properties of the transformer *)

Module transform_props.
Import ast astutil transform.
Import types(Type_, GenericDecl, GenericUsage).
Import typexpr.

Section syntax_props.

(** X18: [anonymousFieldIdent] finds the name of an embedded field in
    exactly four forms of type expression, [T], [X.T], [*T] and [*X.T],
    and the name is [T]; on every other expression, a pointer to a
    pointer among them, it returns nil. *)
Theorem anonymousFieldIdent_forms (e : Expr) (id : Ident) :
  anonymousFieldIdent e = Some id
  ↔ e = EIdent id ∨ (∃ x, e = SelectorExpr x id)
    ∨ e = StarExpr (EIdent id) ∨ (∃ x, e = StarExpr (SelectorExpr x id)).
Proof.
  split.
  - destruct e as [i| | | |x s| | | |x| | | | | |]; simpl; try discriminate.
    + intros [= ->]. by left.
    + intros [= ->]. right. left. by exists x.
    + destruct x as [i| | | |y s| | | |y| | | | | |]; simpl; try discriminate.
      * intros [= ->]. right. right. by left.
      * intros [= ->]. right. right. right. by exists y.
  - intros [->|[[x ->]|[->|[x ->]]]]; reflexivity.
Qed.

(** X19: [Unparen] returns an expression that is no parenthesised
    expression, applying it again changes nothing, and its argument is the
    result inside some number of parentheses. *)
Theorem Unparen_strips (e : Expr) :
  (∀ x, Unparen e ≠ ParenExpr x)
  ∧ Unparen (Unparen e) = Unparen e
  ∧ ∃ n, e = Nat.iter n ParenExpr (Unparen e).
Proof.
  induction e using Expr_ind';
    try (split; [done|split; [done|by exists 0]]).
  destruct IHe as (Hne & Hidem & n & Hn).
  split; [exact Hne|]. split; [exact Hidem|].
  exists (S n). simpl. by rewrite <- Hn.
Qed.
End syntax_props.

Section mangling.
Context `{Env}.
Variable trans : Transformer.

Lemma append_assoc (a b c : string) : (a +:+ b) +:+ c = a +:+ (b +:+ c).
Proof.
  induction a as [|x a IH]; [done|].
  change (String x ((a +:+ b) +:+ c) = String x (a +:+ (b +:+ c))).
  by rewrite IH.
Qed.

Lemma append_empty_r (a : string) : a +:+ "" = a.
Proof.
  induction a as [|x a IH]; [done|].
  change (String x (a +:+ "") = String x a). by rewrite IH.
Qed.

Lemma concat_cons_acc (acc s : string) (ss : list string) :
  acc +:+ "__" +:+ String.concat "__" (s :: ss)
  = (acc +:+ "__" +:+ s)
    +:+ match ss with [] => "" | _ => "__" +:+ String.concat "__" ss end.
Proof.
  destruct ss as [|s' ss]; cbn [String.concat].
  - by rewrite append_empty_r.
  - by rewrite !append_assoc.
Qed.

Lemma formatTypeArgsFrom_join i args acc :
  formatTypeArgsFrom trans (S i) args acc
  = (ss ← mapM (typeArgString trans) args;
     Ok (acc +:+ match ss with [] => "" | _ => "__" +:+ String.concat "__" ss end)).
Proof.
  revert i acc. induction args as [|arg args IH]; intros i acc.
  - simpl. by rewrite append_empty_r.
  - cbn [formatTypeArgsFrom mapM].
    change (match arg with
            | EIdent ident =>
                match Uses (TInfo trans) ident with
                | Some (TypeName _ true typ) =>
                    typeToSafeString <$> types.Underlying typ
                | _ => Ok (exprToSafeString arg)
                end
            | _ => Ok (exprToSafeString arg)
            end) with (typeArgString trans arg).
    destruct (typeArgString trans arg) as [s|p]; [|done]. cbn [mbind result_bind].
    rewrite IH. destruct (mapM (typeArgString trans) args) as [ss|p]; [|done].
    cbn [mbind result_bind mret result_ret]. f_equal.
    change (S i =? 0)%nat with false. cbv iota.
    rewrite concat_cons_acc. by rewrite !append_assoc.
Qed.

Lemma formatTypeArgs_concat args :
  formatTypeArgs trans args
  = (ss ← mapM (typeArgString trans) args; Ok (String.concat "__" ss)).
Proof.
  unfold formatTypeArgs. destruct args as [|arg args]; [done|].
  cbn [formatTypeArgsFrom mapM].
  change (match arg with
          | EIdent ident =>
              match Uses (TInfo trans) ident with
              | Some (TypeName _ true typ) =>
                  typeToSafeString <$> types.Underlying typ
              | _ => Ok (exprToSafeString arg)
              end
          | _ => Ok (exprToSafeString arg)
          end) with (typeArgString trans arg).
  destruct (typeArgString trans arg) as [s|p]; [|done]. cbn [mbind result_bind].
  rewrite formatTypeArgsFrom_join.
  destruct (mapM (typeArgString trans) args) as [ss|p]; [|done].
  cbn [mbind result_bind mret result_ret]. f_equal.
  change (0 =? 0)%nat with true. cbv iota.
  change ("" +:+ "" +:+ s) with s.
  destruct ss as [|s' ss]; cbn [String.concat]; [apply append_empty_r|done].
Qed.

(** X20: [formatTypeArgs] is the strings of the type arguments joined by
    [__], where an identifier that names a type alias gives the string of
    the underlying type of the aliased type and every other argument its
    safe string; it panics when one of the arguments does. *)
Theorem formatTypeArgs_join args :
  formatTypeArgs trans args
  = (ss ← mapM (typeArgString trans) args; Ok (String.concat "__" ss)).
Proof. apply formatTypeArgs_concat. Qed.

Lemma mapM_Forall2 {A B} (f : A → result B) (l : list A) (k : list B) :
  Forall2 (fun x y => f x = Ok y) l k → mapM f l = Ok k.
Proof.
  induction 1 as [|x y l k Hx _ IH]; [done|].
  simpl. rewrite Hx. simpl. by rewrite IH.
Qed.

(** X21: a use of a generic declaration and the clone of the declaration
    get the same name: when each type argument of [x[args]] has the
    string of the type the usage binds to the type parameter at its
    place, [concreteTypeExpr] returns the identifier named
    [concreteTypeName]. *)
Theorem use_site_names_declaration (decl : GenericDecl) (usg : GenericUsage)
    (x : Ident) (args : list Expr) :
  types.d_name decl = Name x →
  types.d_typeParams decl ≠ [] →
  Forall2 (fun arg param =>
             typeArgString trans arg
             = Ok (typeToSafeString (types.index (types.u_typeMap usg) param)))
          args (types.d_typeParams decl) →
  concreteTypeExpr trans (EIdent x) args
  = Ok (NExpr (EIdent (NewIdent (concreteTypeName decl usg)))).
Proof.
  intros Hname Hne Hargs. unfold concreteTypeExpr, concreteTypeName.
  rewrite formatTypeArgs_concat.
  rewrite (mapM_Forall2 _ _
             (map (fun param => typeToSafeString
                                  (types.index (types.u_typeMap usg) param))
                  (types.d_typeParams decl))).
  - simpl. rewrite length_map.
    destruct (types.d_typeParams decl) as [|p ps] eqn:Hps; [done|].
    simpl. by rewrite Hname.
  - clear Hne. induction Hargs; simpl; by constructor.
Qed.
End mangling.

Section walk_equations.
Variables (pre : PreFunc) (po : PostFunc).

Lemma walkExpr_ParenExpr x :
  walkExpr pre po (ParenExpr x)
  = (x' ← (visitExpr pre po false x ≫= asExpr); Ok (ParenExpr x')).
Proof. done. Qed.

Lemma walkExpr_StarExpr x :
  walkExpr pre po (StarExpr x)
  = (x' ← (visitExpr pre po false x ≫= asExpr); Ok (StarExpr x')).
Proof. done. Qed.

Lemma walkExpr_ChanType dir x :
  walkExpr pre po (ChanType dir x)
  = (x' ← (visitExpr pre po false x ≫= asExpr); Ok (ChanType dir x')).
Proof. done. Qed.

Lemma walkExpr_IndexExpr x y :
  walkExpr pre po (IndexExpr x y)
  = (x' ← (visitExpr pre po false x ≫= asExpr);
     y' ← (visitExpr pre po false y ≫= asExpr); Ok (IndexExpr x' y')).
Proof. done. Qed.

Lemma walkExpr_KeyValueExpr x y :
  walkExpr pre po (KeyValueExpr x y)
  = (x' ← (visitExpr pre po false x ≫= asExpr);
     y' ← (visitExpr pre po false y ≫= asExpr); Ok (KeyValueExpr x' y')).
Proof. done. Qed.

Lemma walkExpr_MapType x y :
  walkExpr pre po (MapType x y)
  = (x' ← (visitExpr pre po false x ≫= asExpr);
     y' ← (visitExpr pre po false y ≫= asExpr); Ok (MapType x' y')).
Proof. done. Qed.
End walk_equations.

Section kept_walk.
Variable pre : PreFunc.
Variable ok : Node → bool.
Hypothesis Hok : ∀ n, ok n = true → keeps pre n.

Lemma visit_kept b n children :
  ok n = true → children = Ok n → visit pre noPost b n children = Ok [n].
Proof using Hok.
  intros Hn ->. unfold visit.
  destruct (Hok n Hn b) as (c & -> & Hi & Hd & Hr). simpl.
  unfold splice. simpl. by rewrite Hi, Hd, Hr.
Qed.

Lemma visitList_kept {A} (f : A → result (list Node)) (g : A → Node) (l : list A) :
  Forall (fun x => f x = Ok [g x]) l → visitList f l = Ok (map g l).
Proof. apply transform_spec.visitList_Ok. Qed.

Lemma walkIdents_kept ids :
  forallb (everyIdent ok) ids = true → walkIdents pre noPost ids = Ok ids.
Proof using Hok.
  intros Hall. unfold walkIdents.
  rewrite (visitList_kept _ (fun id => NExpr (EIdent id))).
  - simpl. apply transform_spec.mapM_identOf.
  - apply Forall_forall. intros id Hin. apply visit_kept; [|done].
    rewrite forallb_forall in Hall. by apply Hall, list_elem_of_In.
Qed.

Definition keptExpr (e : Expr) : Prop :=
  everyExpr ok e = true → walkExpr pre noPost e = Ok e.

Lemma visitExpr_kept b e :
  keptExpr e → everyExpr ok e = true → visitExpr pre noPost b e = Ok [NExpr e].
Proof using Hok.
  intros He Hall. unfold visitExpr. apply visit_kept.
  - destruct e; simpl in Hall; by apply andb_true_iff in Hall as [? _].
  - by rewrite (He Hall).
Qed.

Lemma slot_kept x :
  keptExpr x → everyExpr ok x = true →
  (visitExpr pre noPost false x ≫= asExpr) = Ok x.
Proof using Hok. intros Hx Hall. by rewrite (visitExpr_kept false x Hx Hall). Qed.

Lemma optSlot_kept o :
  POpt keptExpr o → everyOptExpr ok o = true →
  walkOptExpr pre noPost o = Ok o.
Proof using Hok.
  destruct o as [x|]; simpl; intros Hx Hall.
  - by rewrite (visitExpr_kept false x Hx Hall).
  - by rewrite (visit_kept false NNil (Ok NNil) Hall).
Qed.

Lemma exprs_kept l :
  Forall keptExpr l → forallb (everyExpr ok) l = true →
  walkExprs pre noPost l = Ok l.
Proof using Hok.
  intros Hall Hok'. unfold walkExprs.
  rewrite (visitList_kept _ NExpr).
  - simpl. apply transform_spec.mapM_exprOf.
  - rewrite forallb_forall in Hok'. rewrite Forall_forall in Hall |- *.
    intros x Hin. apply visitExpr_kept; [by apply Hall|].
    by apply Hok', list_elem_of_In.
Qed.

Lemma walkField_kept f :
  keptExpr (FType f) → everyField ok f = true → walkField pre noPost f = Ok f.
Proof using Hok.
  intros Hf Hall. unfold everyField in Hall.
  apply andb_true_iff in Hall as [Hall Ht]. apply andb_true_iff in Hall as [_ Hn].
  unfold walkField. rewrite (walkIdents_kept _ Hn). simpl.
  rewrite (visitExpr_kept false _ Hf Ht). simpl. by destruct f.
Qed.

Lemma walkFieldList_kept l :
  PFields keptExpr l → forallb (everyField ok) l = true →
  walkFieldList pre noPost l = Ok l.
Proof using Hok.
  intros Hall Hok'. unfold walkFieldList.
  rewrite (visitList_kept _ NField).
  - simpl. apply transform_spec.mapM_fieldOf.
  - rewrite forallb_forall in Hok'. unfold PFields in Hall.
    rewrite Forall_forall in Hall |- *.
    intros f Hin.
    assert (Hf : everyField ok f = true) by (by apply Hok', list_elem_of_In).
    apply visit_kept.
    + unfold everyField in Hf. apply andb_true_iff in Hf as [Hf _].
      by apply andb_true_iff in Hf as [? _].
    + by rewrite (walkField_kept f (Hall f Hin) Hf).
Qed.

Lemma visitFieldList_kept l :
  PFields keptExpr l → everyFieldList ok l = true →
  visitFieldList pre noPost l = Ok [NFieldList l].
Proof using Hok.
  intros Hall Hok'. unfold everyFieldList in Hok'.
  apply andb_true_iff in Hok' as [Hl Hfs].
  unfold visitFieldList. apply visit_kept; [done|].
  by rewrite (walkFieldList_kept l Hall Hfs).
Qed.

Lemma everyExpr_fields (l : list Field) :
  (ok (NFieldList l)
   && forallb (fun f => ok (NField f)
                        && forallb (fun id => ok (NExpr (EIdent id))) (Names f)
                        && everyExpr ok (FType f)) l) = everyFieldList ok l.
Proof. done. Qed.

Lemma walkExpr_kept e : keptExpr e.
Proof using Hok.
  induction e as
    [ id | v | typ elts IHt IHe | x IH | x sel IH | x i IHx IHi | x ts IHx IHts
    | f args IHf IHa | x IH | k v IHk IHv | len elt IHl IHe | fs IH
    | ps rs IHp IHr | k v IHk IHv | dir v IH ] using Expr_ind';
    intros Hall; simpl in Hall; apply andb_true_iff in Hall as [Hnode Hall];
    try done.
  - apply andb_true_iff in Hall as [Ht He].
    rewrite transform_spec.walkExpr_CompositeLit.
    rewrite (optSlot_kept typ IHt Ht). simpl.
    by rewrite (exprs_kept elts IHe He).
  - rewrite walkExpr_ParenExpr. by rewrite (slot_kept x IH Hall).
  - apply andb_true_iff in Hall as [Hx Hs].
    rewrite transform_spec.walkExpr_SelectorExpr.
    rewrite (slot_kept x IH Hx). simpl.
    unfold visitIdent. by rewrite (visit_kept false _ _ Hs eq_refl).
  - apply andb_true_iff in Hall as [Hx Hi]. rewrite walkExpr_IndexExpr.
    rewrite (slot_kept x IHx Hx). simpl. by rewrite (slot_kept i IHi Hi).
  - apply andb_true_iff in Hall as [Hx Hts].
    rewrite transform_spec.walkExpr_TypeArgExpr.
    rewrite (slot_kept x IHx Hx). simpl. by rewrite (exprs_kept ts IHts Hts).
  - apply andb_true_iff in Hall as [Hf Ha].
    rewrite transform_spec.walkExpr_CallExpr.
    rewrite (slot_kept f IHf Hf). simpl. by rewrite (exprs_kept args IHa Ha).
  - rewrite walkExpr_StarExpr. by rewrite (slot_kept x IH Hall).
  - apply andb_true_iff in Hall as [Hk Hv]. rewrite walkExpr_KeyValueExpr.
    rewrite (slot_kept k IHk Hk). simpl. by rewrite (slot_kept v IHv Hv).
  - apply andb_true_iff in Hall as [Hl He].
    rewrite transform_spec.walkExpr_ArrayType.
    rewrite (optSlot_kept len IHl Hl). simpl. by rewrite (slot_kept elt IHe He).
  - rewrite transform_spec.walkExpr_StructType.
    by rewrite (visitFieldList_kept fs IH Hall).
  - apply andb_true_iff in Hall as [Hp Hr].
    rewrite transform_spec.walkExpr_FuncType.
    rewrite (visitFieldList_kept ps IHp Hp). simpl.
    destruct rs as [rs|]; simpl.
    + by rewrite (visitFieldList_kept rs IHr Hr).
    + by rewrite (visit_kept false NNil (Ok NNil) Hr).
  - apply andb_true_iff in Hall as [Hk Hv]. rewrite walkExpr_MapType.
    rewrite (slot_kept k IHk Hk). simpl. by rewrite (slot_kept v IHv Hv).
  - rewrite walkExpr_ChanType. by rewrite (slot_kept v IH Hall).
Qed.

Lemma walkSpec_kept s : everySpec ok s = true → walkSpec pre noPost s = Ok s.
Proof using Hok.
  unfold everySpec. intros Hall. apply andb_true_iff in Hall as [_ Hall].
  destruct s as [path|names typ values|ts]; [done| |].
  - apply andb_true_iff in Hall as [Hall Hv]. apply andb_true_iff in Hall as [Hn Ht].
    unfold walkSpec. rewrite (walkIdents_kept _ Hn). simpl.
    rewrite (optSlot_kept typ); [|by destruct typ; simpl; [apply walkExpr_kept|]|done].
    simpl. rewrite (exprs_kept values); [done| |done].
    apply Forall_forall. intros x _. apply walkExpr_kept.
  - apply andb_true_iff in Hall as [Hn Ht].
    rewrite transform_spec.walkSpec_STypeSpec.
    unfold visitIdent. rewrite (visit_kept false _ _ Hn eq_refl). simpl.
    rewrite (visitExpr_kept false _ (walkExpr_kept _) Ht). simpl. by destruct ts.
Qed.

Lemma walkGenDecl_kept d :
  forallb (everySpec ok) (Specs d) = true → walkGenDecl pre noPost d = Ok d.
Proof using Hok.
  intros Hall. unfold walkGenDecl.
  rewrite (visitList_kept _ NSpec).
  - simpl. rewrite transform_spec.mapM_specOf. simpl. by destruct d.
  - rewrite forallb_forall in Hall. apply Forall_forall. intros sp Hin.
    assert (Hs : everySpec ok sp = true) by (by apply Hall, list_elem_of_In).
    apply visit_kept.
    + unfold everySpec in Hs. by apply andb_true_iff in Hs as [? _].
    + by rewrite (walkSpec_kept sp Hs).
Qed.

Lemma mapM_stmtOf (l : list Stmt) : mapM stmtOf (map NStmt l) = Ok l.
Proof. induction l as [|x l IH]; [done|]. simpl. by rewrite IH. Qed.

Lemma mapM_declOf (l : list Decl) : mapM declOf (map NDecl l) = Ok l.
Proof. induction l as [|x l IH]; [done|]. simpl. by rewrite IH. Qed.

Lemma everyStmt_node s : everyStmt ok s = true → ok (NStmt s) = true.
Proof. destruct s; simpl; intros Hs; by apply andb_true_iff in Hs as [? _]. Qed.

Lemma stmts_kept l :
  Forall (fun s => everyStmt ok s = true → walkStmt pre noPost s = Ok s) l →
  forallb (everyStmt ok) l = true →
  visitList (fun s => visit pre noPost true (NStmt s) (NStmt <$> walkStmt pre noPost s)) l
  = Ok (map NStmt l).
Proof using Hok.
  intros IH Hall. apply visitList_kept.
  rewrite forallb_forall in Hall. rewrite Forall_forall in IH |- *.
  intros s Hin.
  assert (Hs : everyStmt ok s = true) by (by apply Hall, list_elem_of_In).
  apply visit_kept; [by apply everyStmt_node|]. by rewrite (IH s Hin Hs).
Qed.

Lemma walkStmt_kept s : everyStmt ok s = true → walkStmt pre noPost s = Ok s.
Proof using Hok.
  induction s as [d|x|lhs define rhs|results|l IH] using Stmt_ind';
    intros Hall; simpl in Hall; apply andb_true_iff in Hall as [Hnode Hall].
  - unfold everyGenDecl in Hall. apply andb_true_iff in Hall as [Hd Hspecs].
    simpl. rewrite (visit_kept false _ _ Hd).
    + done.
    + by rewrite (walkGenDecl_kept d Hspecs).
  - simpl.
    change (visit pre noPost false (NExpr x) (NExpr <$> walkExpr pre noPost x))
      with (visitExpr pre noPost false x).
    by rewrite (visitExpr_kept false x (walkExpr_kept x) Hall).
  - apply andb_true_iff in Hall as [Hl Hr]. simpl.
    change (walkStmt pre noPost (AssignStmt lhs define rhs))
      with (lhs' ← walkExprs pre noPost lhs; rhs' ← walkExprs pre noPost rhs;
            Ok (AssignStmt lhs' define rhs')).
    rewrite (exprs_kept lhs); [|apply Forall_forall; intros; apply walkExpr_kept|done].
    simpl.
    by rewrite (exprs_kept rhs); [|apply Forall_forall; intros; apply walkExpr_kept|done].
  - change (walkStmt pre noPost (ReturnStmt results))
      with (results' ← walkExprs pre noPost results; Ok (ReturnStmt results')).
    by rewrite (exprs_kept results);
      [|apply Forall_forall; intros; apply walkExpr_kept|done].
  - cbn [walkStmt]. rewrite (stmts_kept l IH Hall). simpl.
    by rewrite mapM_stmtOf.
Qed.

Lemma walkStmts_kept l :
  forallb (everyStmt ok) l = true → walkStmts pre noPost l = Ok l.
Proof using Hok.
  intros Hall. unfold walkStmts. rewrite (stmts_kept l); [|by apply Forall_forall; intros; apply walkStmt_kept|done].
  simpl. apply mapM_stmtOf.
Qed.

Lemma optFieldList_kept o :
  everyOptFieldList ok o = true → walkOptFieldList pre noPost o = Ok o.
Proof using Hok.
  destruct o as [l|]; simpl; intros Hall.
  - rewrite (visitFieldList_kept l); [done| |done].
    apply Forall_forall. intros f _. apply walkExpr_kept.
  - by rewrite (visit_kept false NNil (Ok NNil) Hall).
Qed.

Lemma walkFuncDecl_kept d :
  everyFuncDecl ok d = true → walkFuncDecl pre noPost d = Ok d.
Proof using Hok.
  unfold everyFuncDecl. intros Hall.
  apply andb_true_iff in Hall as [Hall Hbody].
  apply andb_true_iff in Hall as [Hall Hres].
  apply andb_true_iff in Hall as [Hall Hparams].
  apply andb_true_iff in Hall as [Hall Hname].
  apply andb_true_iff in Hall as [_ Hrecv].
  assert (Hp : visitFieldList pre noPost (FParams d) = Ok [NFieldList (FParams d)]).
  { apply visitFieldList_kept; [|done].
    apply Forall_forall. intros f _. apply walkExpr_kept. }
  unfold walkFuncDecl.
  rewrite (optFieldList_kept _ Hrecv). simpl.
  unfold visitIdent. rewrite (visit_kept false _ _ Hname eq_refl). simpl.
  rewrite Hp. simpl. rewrite (optFieldList_kept _ Hres). simpl.
  destruct d as [recv name tps params results body]. simpl in *.
  destruct body as [l|].
  - apply andb_true_iff in Hbody as [Hblock Hstmts].
    rewrite (visit_kept false (NStmt (BlockStmt l)) _ Hblock); [done|].
    by rewrite (walkStmts_kept l Hstmts).
  - by rewrite (visit_kept false NNil (Ok NNil) Hbody).
Qed.

Lemma walkDecl_kept d : everyDecl ok d = true → walkDecl pre noPost d = Ok d.
Proof using Hok.
  destruct d as [g|f]; simpl; intros Hall.
  - unfold everyGenDecl in Hall. apply andb_true_iff in Hall as [_ Hs].
    by rewrite (walkGenDecl_kept g Hs).
  - by rewrite (walkFuncDecl_kept f Hall).
Qed.

Lemma everyDecl_node d : everyDecl ok d = true → ok (NDecl d) = true.
Proof.
  destruct d as [g|f]; simpl; unfold everyGenDecl, everyFuncDecl; intros Hall.
  - by apply andb_true_iff in Hall as [? _].
  - repeat (apply andb_true_iff in Hall as [Hall _]). done.
Qed.

(** [Apply] with a [pre] callback that keeps every node of a file
    returns the file. *)
Lemma Apply_kept f :
  everyFile ok f = true → Apply pre noPost (NFile f) = Ok (NFile f).
Proof using Hok.
  unfold everyFile. intros Hall.
  apply andb_true_iff in Hall as [Hall Hdecls].
  apply andb_true_iff in Hall as [Hfile Hname].
  unfold Apply. rewrite (visit_kept false (NFile f)); [done|done|].
  unfold walk, walkFile.
  unfold visitIdent. rewrite (visit_kept false _ _ Hname eq_refl). simpl.
  rewrite (visitList_kept _ NDecl).
  - simpl. rewrite mapM_declOf. simpl. by destruct f.
  - rewrite forallb_forall in Hdecls. apply Forall_forall. intros d Hin.
    assert (Hd : everyDecl ok d = true) by (by apply Hdecls, list_elem_of_In).
    apply visit_kept; [by apply everyDecl_node|]. by rewrite (walkDecl_kept d Hd).
Qed.
End kept_walk.

Section plain_files.
Context `{Env}.
Variable trans : Transformer.
Hypothesis Hempty : Generics trans = ∅.

Lemma pass1_keeps n : plainNode n = true → keeps (generateConcreteTypes trans) n.
Proof using Hempty.
  intros Hn b. unfold generateConcreteTypes. simpl.
  destruct n as [|e|f|l|s|s|d|f]; try (eexists; by repeat split).
  destruct d as [g|f]; simpl in Hn.
  - destruct g as [tok specs]. simpl in *.
    destruct specs as [|spec [|spec' specs]]; try discriminate.
    assert (Hc : collectSpecs trans [spec] [] false = Ok ([spec], true)).
    { simpl. destruct spec as [p|ns t vs|ts]; try done.
      by rewrite Hempty, lookup_empty. }
    rewrite Hc. simpl. eexists. by repeat split.
  - apply andb_true_iff in Hn as [Hr Ht].
    apply negb_true_iff, bool_decide_eq_false in Hr, Ht.
    destruct (Recv f) as [r|] eqn:Hrecv; [by destruct Hr|].
    destruct (FTypeParams f) as [tp|] eqn:Htp; [by destruct Ht|].
    unfold generateFuncDecls. rewrite Hrecv, Htp. simpl.
    rewrite Hempty, lookup_empty. simpl.
    eexists. by repeat split.
Qed.

Lemma pass2_keeps n : plainNode n = true → keeps (replaceGenericIdents trans) n.
Proof using Hempty.
  intros Hn b. unfold replaceGenericIdents. simpl.
  destruct n as [|e|f|l|s|s|d|f]; try (eexists; by repeat split).
  destruct e; try discriminate; try (eexists; by repeat split).
  destruct e1; try (eexists; by repeat split).
  - rewrite Hempty, lookup_empty. eexists; by repeat split.
  - destruct (Selections (TInfo trans) _) as [sel|]; [|eexists; by repeat split].
    destruct (negb _); [|eexists; by repeat split].
    rewrite Hempty, lookup_empty. eexists; by repeat split.
Qed.

(** X22: with an empty registry, [File] returns a file unchanged when the
    file has no type-argument expression, no method and no function or
    type with type parameters, and every declaration of it has one spec. *)
Theorem File_plain (f : ast.File) :
  everyFile plainNode f = true → File trans f = Ok f.
Proof using Hempty.
  intros Hall. unfold File.
  rewrite (Apply_kept _ plainNode pass1_keeps f Hall). simpl.
  by rewrite (Apply_kept _ plainNode pass2_keeps f Hall).
Qed.
End plain_files.

Section receiver.
Context `{Env}.

Lemma expandReceiverType_field (funcDecl : FuncDecl) (genDecl : GenericDecl)
    (usg : GenericUsage) (names : list Ident) (recvType : Expr) :
  Recv funcDecl = Some [mkField names recvType] →
  recvShape recvType = true →
  Forall (fun id => Name id ≠ types.d_name genDecl) names →
  expandReceiverType funcDecl (Some genDecl) usg
  = Ok (setRecv funcDecl
          (Some [mkField names (expandedRecv genDecl usg recvType)])).
Proof.
  intros Hrecv Hshape Hnames. unfold expandReceiverType. rewrite Hrecv.
  match goal with |- context [Apply ?p _ _] => set (pre := p) end.
  set (ok := fun n : Node =>
               match n with
               | NExpr (EIdent id) =>
                   negb (String.eqb (Name id) (types.d_name genDecl))
               | _ => false
               end).
  assert (Hok : ∀ n, ok n = true → keeps pre n).
  { intros n Hn b. destruct n as [|e| | | | | |]; try discriminate.
    destruct e as [id| | | | | | | | | | | | | |]; try discriminate.
    unfold pre. simpl. simpl in Hn. apply negb_true_iff in Hn. rewrite Hn.
    eexists. by repeat split. }
  assert (Hwalk : walkIdents pre noPost names = Ok names).
  { apply (walkIdents_kept pre ok Hok). apply forallb_forall.
    intros id Hin. unfold everyIdent, ok. apply negb_true_iff.
    apply String.eqb_neq. rewrite Forall_forall in Hnames.
    by apply Hnames, list_elem_of_In. }
  assert (Hident : ∀ id b,
            visitExpr pre noPost b (EIdent id)
            = Ok [NExpr (expandedRecv genDecl usg (EIdent id))]).
  { intros id b. unfold visitExpr, visit, pre. simpl.
    by destruct (String.eqb (Name id) (types.d_name genDecl)). }
  assert (Hslot : (visitExpr pre noPost false recvType ≫= asExpr)
                  = Ok (expandedRecv genDecl usg recvType)).
  { destruct recvType as [id| | | | | |x ts| |x| | | | | |]; try discriminate.
    - by rewrite Hident.
    - done.
    - destruct x as [id| | | | | |x ts| | | | | | | |]; try discriminate.
      + unfold visitExpr, visit at 1. simpl pre.
        rewrite walkExpr_StarExpr, Hident. simpl.
        by destruct (String.eqb (Name id) (types.d_name genDecl)).
      + done. }
  unfold Apply, visit. simpl.
  change (walkFieldList pre noPost [mkField names recvType])
    with (ns ← visitList
                 (fun f => visit pre noPost true (NField f)
                             (NField <$> walkField pre noPost f))
                 [mkField names recvType];
          mapM fieldOf ns).
  unfold visitList. cbn [mapM]. unfold visit at 1. simpl.
  unfold walkField. simpl. rewrite Hwalk. simpl.
  change (visit pre noPost false (NExpr recvType)
            (NExpr <$> walkExpr pre noPost recvType))
    with (visitExpr pre noPost false recvType).
  destruct (visitExpr pre noPost false recvType) as [ns|p] eqn:Hv; simpl in Hslot;
    [|done].
  simpl. rewrite Hslot. done.
Qed.
(** X23: on a method with one receiver of the form [T], [*T], [T[...]] or
    [*T[...]], whose receiver names differ from the name of the generic
    type, [expandReceiverType] changes only the receiver type: the type
    name gets the type arguments the usage binds to the type parameters
    when it names the generic type and carries none. *)
Theorem expandReceiverType_expands (funcDecl : FuncDecl) (genDecl : GenericDecl)
    (usg : GenericUsage) (names : list Ident) (recvType : Expr) :
  Recv funcDecl = Some [mkField names recvType] →
  recvShape recvType = true →
  Forall (fun id => Name id ≠ types.d_name genDecl) names →
  expandReceiverType funcDecl (Some genDecl) usg
  = Ok (setRecv funcDecl
          (Some [mkField names (expandedRecv genDecl usg recvType)])).
Proof. apply expandReceiverType_field. Qed.
End receiver.

Section scoped_rewrite_decls.
Context `{Env}.
Variable typeMap : gmap string Type_.

Lemma visit_other b (n walked : Node) children :
  (∀ id, walked ≠ NExpr (EIdent id)) → children = Ok walked →
  visit noPre (replaceIdent typeMap) b n children = Ok [walked].
Proof.
  intros Hne ->. unfold visit. simpl. unfold replaceIdent. simpl.
  destruct walked as [|e| | | | | |]; try done.
  destruct e; try done. by destruct (Hne id).
Qed.

Lemma fields_rewritten (l : list Field) :
  PFields (fun e => scopeOk typeMap e = true →
             ∀ b, visitExpr noPre (replaceIdent typeMap) b e = Ok [NExpr (substIdents typeMap e)]) l.
Proof.
  apply Forall_forall. intros f _. apply transform_spec.visitExpr_substIdents.
Qed.

Lemma exprs_rewritten l :
  forallb (scopeOk typeMap) l = true →
  walkExprs noPre (replaceIdent typeMap) l = Ok (map (substIdents typeMap) l).
Proof.
  intros Hok. apply transform_spec.exprs_Ok; [|done].
  apply Forall_forall. intros x _. apply transform_spec.visitExpr_substIdents.
Qed.

Lemma optExpr_rewritten o :
  match o with Some x => scopeOk typeMap x | None => true end = true →
  walkOptExpr noPre (replaceIdent typeMap) o = Ok (option_map (substIdents typeMap) o).
Proof.
  intros Hok. apply transform_spec.optSlot_Ok; [|done].
  destruct o; simpl; [apply transform_spec.visitExpr_substIdents|done].
Qed.

Lemma walkSpec_rewritten s :
  specOk typeMap s = true → walkSpec noPre (replaceIdent typeMap) s = Ok (substSpec typeMap s).
Proof.
  destruct s as [path|names typ values|ts]; intros Hok; simpl in Hok; [done| |].
  - apply andb_true_iff in Hok as [Hok Hv]. apply andb_true_iff in Hok as [Hn Ht].
    change (walkSpec noPre (replaceIdent typeMap) (ValueSpec names typ values))
      with (names' ← walkIdents noPre (replaceIdent typeMap) names;
            typ' ← walkOptExpr noPre (replaceIdent typeMap) typ;
            values' ← walkExprs noPre (replaceIdent typeMap) values;
            Ok (ValueSpec names' typ' values')).
    rewrite (transform_spec.walkIdents_Ok typeMap names Hn). simpl.
    rewrite (optExpr_rewritten typ Ht). simpl.
    by rewrite (exprs_rewritten values Hv).
  - apply andb_true_iff in Hok as [Hn Ht].
    rewrite transform_spec.walkSpec_STypeSpec.
    rewrite (transform_spec.visitIdent_slot typeMap (TSName ts) Hn). simpl.
    by rewrite (transform_spec.visitExpr_substIdents typeMap (TSType ts) Ht false).
Qed.

Lemma walkGenDecl_rewritten d :
  forallb (specOk typeMap) (Specs d) = true →
  walkGenDecl noPre (replaceIdent typeMap) d = Ok (substGenDecl typeMap d).
Proof.
  intros Hall. unfold walkGenDecl.
  rewrite (transform_spec.visitList_Ok _ (fun s => NSpec (substSpec typeMap s))).
  - simpl. rewrite <- (map_map (substSpec typeMap) NSpec).
    by rewrite transform_spec.mapM_specOf.
  - rewrite forallb_forall in Hall. apply Forall_forall. intros s Hin.
    apply visit_other; [done|].
    rewrite (walkSpec_rewritten s); [done|]. by apply Hall, list_elem_of_In.
Qed.

Lemma stmts_rewritten l :
  Forall (fun s => stmtOk typeMap s = true →
            walkStmt noPre (replaceIdent typeMap) s = Ok (substStmt typeMap s)) l →
  forallb (stmtOk typeMap) l = true →
  visitList (fun s => visit noPre (replaceIdent typeMap) true (NStmt s) (NStmt <$> walkStmt noPre (replaceIdent typeMap) s)) l
  = Ok (map (fun s => NStmt (substStmt typeMap s)) l).
Proof.
  intros IH Hall. apply transform_spec.visitList_Ok.
  rewrite forallb_forall in Hall. rewrite Forall_forall in IH |- *.
  intros s Hin. apply visit_other; [done|].
  rewrite (IH s Hin); [done|]. by apply Hall, list_elem_of_In.
Qed.

Lemma walkStmt_rewritten s :
  stmtOk typeMap s = true → walkStmt noPre (replaceIdent typeMap) s = Ok (substStmt typeMap s).
Proof.
  induction s as [d|x|lhs define rhs|results|l IH] using Stmt_ind';
    intros Hok; simpl in Hok.
  - simpl. rewrite (visit_other false _ (NDecl (DGen (substGenDecl typeMap d)))).
    + done.
    + done.
    + by rewrite (walkGenDecl_rewritten d Hok).
  - simpl.
    change (visit noPre (replaceIdent typeMap) false (NExpr x) (NExpr <$> walkExpr noPre (replaceIdent typeMap) x))
      with (visitExpr noPre (replaceIdent typeMap) false x).
    by rewrite (transform_spec.visitExpr_substIdents typeMap x Hok false).
  - apply andb_true_iff in Hok as [Hl Hr].
    change (walkStmt noPre (replaceIdent typeMap) (AssignStmt lhs define rhs))
      with (lhs' ← walkExprs noPre (replaceIdent typeMap) lhs; rhs' ← walkExprs noPre (replaceIdent typeMap) rhs;
            Ok (AssignStmt lhs' define rhs')).
    rewrite (exprs_rewritten lhs Hl). simpl. by rewrite (exprs_rewritten rhs Hr).
  - change (walkStmt noPre (replaceIdent typeMap) (ReturnStmt results))
      with (results' ← walkExprs noPre (replaceIdent typeMap) results; Ok (ReturnStmt results')).
    by rewrite (exprs_rewritten results Hok).
  - cbn [walkStmt]. rewrite (stmts_rewritten l IH Hok). simpl.
    rewrite <- (map_map (substStmt typeMap) NStmt). by rewrite mapM_stmtOf.
Qed.

Lemma walkStmts_rewritten l :
  forallb (stmtOk typeMap) l = true →
  walkStmts noPre (replaceIdent typeMap) l = Ok (map (substStmt typeMap) l).
Proof.
  intros Hall. unfold walkStmts.
  rewrite (stmts_rewritten l); [| |done].
  - simpl. rewrite <- (map_map (substStmt typeMap) NStmt). by rewrite mapM_stmtOf.
  - apply Forall_forall. intros s _. apply walkStmt_rewritten.
Qed.

Lemma optFieldList_rewritten o :
  fieldsOk typeMap o = true →
  walkOptFieldList noPre (replaceIdent typeMap) o = Ok (option_map (map (substField typeMap)) o).
Proof.
  destruct o as [l|]; simpl; intros Hok; [|done].
  by rewrite (transform_spec.visitFieldList_Ok typeMap l (fields_rewritten l) Hok).
Qed.

Lemma walkFuncDecl_rewritten f :
  funcOk typeMap f = true →
  walkFuncDecl noPre (replaceIdent typeMap) f = Ok (substFuncDecl typeMap f).
Proof.
  unfold funcOk. intros Hok.
  apply andb_true_iff in Hok as [Hok Hbody].
  apply andb_true_iff in Hok as [Hok Hres].
  apply andb_true_iff in Hok as [Hok Hparams].
  apply andb_true_iff in Hok as [Hrecv Hname].
  unfold walkFuncDecl.
  rewrite (optFieldList_rewritten _ Hrecv). simpl.
  pose proof (transform_spec.visitIdent_slot typeMap (FName f) Hname) as Hn.
  destruct (visitIdent noPre (replaceIdent typeMap) false (FName f)) as [ns|];
    simpl in Hn; [|done].
  simpl. rewrite Hn. simpl.
  rewrite (transform_spec.visitFieldList_Ok typeMap (FParams f)
             (fields_rewritten _) Hparams). simpl.
  rewrite (optFieldList_rewritten _ Hres). simpl.
  unfold substFuncDecl.
  destruct (Body f) as [l|].
  - rewrite (visit_other false _ (NStmt (BlockStmt (map (substStmt typeMap) l)))).
    + done.
    + done.
    + by rewrite (walkStmts_rewritten l Hbody).
  - done.
Qed.

Lemma replaceIdentsInScope_FuncDecl f :
  funcOk typeMap f = true →
  replaceIdentsInScope (NDecl (DFunc f)) typeMap
  = Ok (NDecl (DFunc (substFuncDecl typeMap f))).
Proof.
  intros Hok. unfold replaceIdentsInScope, Apply.
  rewrite (visit_other false _ (NDecl (DFunc (substFuncDecl typeMap f)))).
  - done.
  - done.
  - simpl. by rewrite (walkFuncDecl_rewritten f Hok).
Qed.
(** X24: [replaceIdentsInScope] on a function declaration rewrites the
    identifiers the map binds in the receiver, the parameters, the results
    and every statement of the body, and leaves the type parameters; no
    bound identifier may stand where only an identifier can. *)
Theorem replaceIdentsInScope_function f :
  funcOk typeMap f = true →
  replaceIdentsInScope (NDecl (DFunc f)) typeMap
  = Ok (NDecl (DFunc (substFuncDecl typeMap f))).
Proof. apply replaceIdentsInScope_FuncDecl. Qed.
End scoped_rewrite_decls.

Section clones.
Context `{Env}.
Variable trans : Transformer.

Lemma sortSlice_perm {A} (less : A → A → bool) (l : list A) :
  sortSlice less l ≡ₚ l.
Proof.
  unfold sortSlice. destruct l as [|x [|y l]]; [done|done|]. apply sortPerm_perm.
Qed.

Lemma expandReceiverType_function (f : FuncDecl) usg :
  Recv f = None → expandReceiverType f None usg = Ok f.
Proof. intros Hrecv. unfold expandReceiverType. by rewrite Hrecv. Qed.

Theorem generateFuncDecls_function (f : FuncDecl) (genFuncDecl : GenericDecl) :
  Recv f = None →
  Generics trans !! Name (FName f) = Some genFuncDecl →
  Forall (fun usg =>
            funcOk (types.u_typeMap usg)
              (setName f (concreteTypeName genFuncDecl usg)) = true)
         (usagesList genFuncDecl) →
  generateFuncDecls trans f
  = Ok (map (cloneFunc genFuncDecl f) (usagesList genFuncDecl), false).
Proof.
  intros Hrecv Hdecl Hok. unfold generateFuncDecls. rewrite Hrecv. simpl.
  rewrite Hdecl.
  rewrite (transform_spec.mapM_Ok _ (cloneFunc genFuncDecl f)); [done|].
  eapply Forall_impl; [exact Hok|]. intros usg Husg. simpl in Husg.
  unfold Clone. rewrite (expandReceiverType_function f usg Hrecv). simpl.
  by rewrite (replaceIdentsInScope_FuncDecl _ _ Husg).
Qed.

Lemma insertAll_inserted (c : Cursor) (newFuncs : list FuncDecl) :
  inSlice c = true →
  insertAll c newFuncs
  = Ok {| node := node c; inSlice := inSlice c; replaced := replaced c;
          deleted := deleted c;
          inserted := inserted c ++ map (fun f => NDecl (DFunc f)) newFuncs |}.
Proof.
  revert c. induction newFuncs as [|f fs IH]; intros c Hc.
  - simpl. rewrite app_nil_r. by destruct c.
  - simpl. unfold InsertBefore. rewrite Hc. simpl. rewrite IH by done. simpl.
    by rewrite <- app_assoc.
Qed.

(** X25: pass 1 on a registered generic function deletes it and inserts
    before it its clones, one per usage, each renamed to the mangled name,
    without type parameters and with the type parameters rewritten; the
    clones are inserted in the order [sortFuncs] gives, a permutation. *)
Theorem generic_function_replaced (f : FuncDecl) (genFuncDecl : GenericDecl)
    (typeParams : TypeParamDecl) :
  Recv f = None →
  FTypeParams f = Some typeParams →
  Generics trans !! Name (FName f) = Some genFuncDecl →
  Forall (fun usg =>
            funcOk (types.u_typeMap usg)
              (setName f (concreteTypeName genFuncDecl usg)) = true)
         (usagesList genFuncDecl) →
  let clones := map (cloneFunc genFuncDecl f) (usagesList genFuncDecl) in
  generateConcreteTypes trans (newCursor (NDecl (DFunc f)) true)
  = Ok ({| node := NDecl (DFunc f); inSlice := true; replaced := None;
           deleted := true;
           inserted := map (fun f => NDecl (DFunc f)) (sortFuncs clones) |},
        true)
  ∧ sortFuncs clones ≡ₚ clones
  ∧ length (sortFuncs clones) = size (types.d_usages genFuncDecl).
Proof.
  intros Hrecv Htp Hdecl Hok clones.
  assert (Hperm : sortFuncs clones ≡ₚ clones) by apply sortSlice_perm.
  split; [|split; [exact Hperm|]].
  - unfold generateConcreteTypes. simpl.
    rewrite (generateFuncDecls_function f genFuncDecl Hrecv Hdecl Hok). simpl.
    fold clones. unfold clones at 1. rewrite length_map.
    destruct (usagesList genFuncDecl) as [|usg usgs] eqn:Hus.
    + simpl. by rewrite Htp.
    + simpl length. simpl Nat.eqb. cbv iota.
      rewrite insertAll_inserted by done. simpl. done.
  - rewrite (Permutation_length Hperm). unfold clones. rewrite length_map.
    apply transform_spec.length_usagesList.
Qed.

Lemma generateFuncDecls_peel (f : FuncDecl) names recvType (T : Ident) :
  Recv f = Some [mkField names recvType] →
  recvBase recvType = Some T →
  generateFuncDecls trans f
  = (let genRecvDecl := Generics trans !! Name T in
     let hasArgs := match recvType with
                    | TypeArgExpr _ _ | StarExpr (TypeArgExpr _ _) => true
                    | _ => false
                    end in
     if negb (bool_decide (is_Some genRecvDecl)) && hasArgs
     then Panic (GenericNotFound (Name T))
     else
       let fkey := Name T +:+ "." +:+ Name (FName f) in
       match Generics trans !! fkey, FTypeParams f with
       | None, Some _ => Panic (GenericNotFound fkey)
       | Some genFuncDecl, _ =>
           newFuncs ←
             mapM (fun usg =>
                     newFunc ← expandReceiverType (Clone f) genRecvDecl usg;
                     let newFunc := setName newFunc (concreteTypeName genFuncDecl usg) in
                     n ← replaceIdentsInScope (NDecl (DFunc newFunc))
                           (types.u_typeMap usg);
                     funcDeclOf n)
                  (usagesList genFuncDecl);
           Ok (newFuncs, true)
       | None, None =>
           match genRecvDecl with
           | Some genRecv =>
               newFuncs ←
                 mapM (fun usg =>
                         newFunc ← expandReceiverType (Clone f) genRecvDecl usg;
                         n ← replaceIdentsInScope (NDecl (DFunc newFunc))
                               (types.u_typeMap usg);
                         funcDeclOf n)
                      (usagesList genRecv);
               Ok (newFuncs, true)
           | None => Ok ([], true)
           end
       end).
Proof.
  intros Hrecv Hbase. unfold generateFuncDecls. rewrite Hrecv.
  destruct recvType as [id| | | | | |x ts| |x| | | | | |]; try discriminate.
  - injection Hbase as ->. simpl. rewrite andb_false_r. simpl. done.
  - destruct x; try discriminate. injection Hbase as ->. simpl.
    destruct (negb _ && true); [done|]. simpl. done.
  - destruct x as [id| | | | | |x ts| | | | | | | |]; try discriminate.
    + injection Hbase as ->. simpl. rewrite andb_false_r. simpl. done.
    + destruct x; try discriminate. injection Hbase as ->. simpl.
      destruct (negb _ && true); [done|]. simpl. done.
Qed.

Lemma recvBase_shape e T : recvBase e = Some T → recvShape e = true.
Proof.
  destruct e as [id| | | | | |x ts| |x| | | | | |]; try discriminate; try done.
  destruct x as [id| | | | | |x ts| | | | | | | |]; try discriminate; done.
Qed.

(** X26: a method without type parameters of its own on a registered
    generic type is cloned once per usage of the type, with the receiver
    expanded and the type parameters rewritten, and is reported as a
    method of a generic receiver. *)
Theorem generateFuncDecls_method (f : FuncDecl) names recvType (T : Ident)
    (genRecvDecl : GenericDecl) :
  Recv f = Some [mkField names recvType] →
  recvBase recvType = Some T →
  Forall (fun id => Name id ≠ types.d_name genRecvDecl) names →
  FTypeParams f = None →
  Generics trans !! Name T = Some genRecvDecl →
  Generics trans !! (Name T +:+ "." +:+ Name (FName f)) = None →
  Forall (fun usg =>
            funcOk (types.u_typeMap usg)
              (setRecv f (Some [mkField names
                                  (expandedRecv genRecvDecl usg recvType)]))
            = true)
         (usagesList genRecvDecl) →
  generateFuncDecls trans f
  = Ok (map (cloneMethod genRecvDecl f names recvType) (usagesList genRecvDecl),
        true).
Proof.
  intros Hrecv Hbase Hnames Htp Hdecl Hmeth Hok.
  rewrite (generateFuncDecls_peel f names recvType T Hrecv Hbase). simpl.
  rewrite Hdecl, Hmeth, Htp.
  rewrite bool_decide_eq_true_2 by done. simpl.
  rewrite (transform_spec.mapM_Ok _ (cloneMethod genRecvDecl f names recvType));
    [done|].
  eapply Forall_impl; [exact Hok|]. intros usg Husg. simpl in Husg.
  unfold Clone.
  rewrite (expandReceiverType_field f genRecvDecl usg names recvType Hrecv
             (recvBase_shape _ _ Hbase) Hnames). simpl.
  by rewrite (replaceIdentsInScope_FuncDecl _ _ Husg).
Qed.

(** X27: a registered generic method on a registered generic type is
    cloned once per usage of the method: the receiver expanded with the
    usage's types, the name mangled, the type parameters dropped and
    rewritten. *)
Theorem generateFuncDecls_generic_method (f : FuncDecl) names recvType (T : Ident)
    (genRecvDecl genFuncDecl : GenericDecl) :
  Recv f = Some [mkField names recvType] →
  recvBase recvType = Some T →
  Forall (fun id => Name id ≠ types.d_name genRecvDecl) names →
  Generics trans !! Name T = Some genRecvDecl →
  Generics trans !! (Name T +:+ "." +:+ Name (FName f)) = Some genFuncDecl →
  Forall (fun usg =>
            funcOk (types.u_typeMap usg)
              (setName
                 (setRecv f (Some [mkField names
                                     (expandedRecv genRecvDecl usg recvType)]))
                 (concreteTypeName genFuncDecl usg))
            = true)
         (usagesList genFuncDecl) →
  generateFuncDecls trans f
  = Ok (map (fun usg =>
               cloneFunc genFuncDecl
                 (setRecv f (Some [mkField names
                                     (expandedRecv genRecvDecl usg recvType)]))
                 usg)
            (usagesList genFuncDecl),
        true).
Proof.
  intros Hrecv Hbase Hnames Hdecl Hmeth Hok.
  rewrite (generateFuncDecls_peel f names recvType T Hrecv Hbase). simpl.
  rewrite Hdecl, Hmeth.
  rewrite bool_decide_eq_true_2 by done. simpl.
  erewrite transform_spec.mapM_Ok; [done|].
  eapply Forall_impl; [exact Hok|]. intros usg Husg. simpl in Husg.
  unfold Clone.
  rewrite (expandReceiverType_field f genRecvDecl usg names recvType Hrecv
             (recvBase_shape _ _ Hbase) Hnames). simpl.
  by rewrite (replaceIdentsInScope_FuncDecl _ _ Husg).
Qed.

(** Generic type declarations *)
(** X28: pass 1 replaces a declaration whose one spec is a registered
    generic type that is used by a declaration of the clones, one per
    usage, in the order [sort.Slice] gives, a permutation. *)
Theorem generic_type_replaced (g : GenDecl) typeSpec genericDecl inSlice :
  Specs g = [STypeSpec typeSpec] →
  Generics trans !! Name (TSName typeSpec) = Some genericDecl →
  types.d_usages genericDecl ≠ ∅ →
  Forall (fun usg => cloneOk genericDecl typeSpec usg = true)
         (usagesList genericDecl) →
  let clones :=
    map (cloneTypeSpec genericDecl typeSpec) (usagesList genericDecl) in
  generateConcreteTypes trans (newCursor (NDecl (DGen g)) inSlice)
  = Ok (Replace (newCursor (NDecl (DGen g)) inSlice)
          (NDecl (DGen {| Tok := Tok g; Specs := sortSlice specLess clones |})),
        true)
  ∧ sortSlice specLess clones ≡ₚ clones
  ∧ length (sortSlice specLess clones) = size (types.d_usages genericDecl).
Proof.
  intros Hspecs Hdecl Hused Hok clones.
  assert (Hperm : sortSlice specLess clones ≡ₚ clones) by apply sortSlice_perm.
  split; [|split; [exact Hperm|]].
  - unfold generateConcreteTypes. simpl. rewrite Hspecs. simpl. rewrite Hdecl.
    rewrite (transform_spec.generateTypeSpecs_clones trans typeSpec genericDecl
               Hdecl Hok).
    simpl. fold clones. unfold clones at 1. rewrite length_map.
    destruct (usagesList genericDecl) as [|usg usgs] eqn:Hus; [|done].
    exfalso. apply Hused. apply map_to_list_empty_iff.
    unfold usagesList in Hus. by apply fmap_nil_inv in Hus.
  - rewrite (Permutation_length Hperm). unfold clones. rewrite length_map.
    apply transform_spec.length_usagesList.
Qed.
End clones.

(** ** Instances *)

Lemma use_site_names_declaration_witness :
  concreteTypeExpr (H := reference.transformEnv)
    {| Generics := files.printRegistry; TInfo := files.noInfo |}
    (files.ident "Print") [files.ident "int"]
  = Ok (NExpr (files.ident "Print__int"))
  ∧ concreteTypeName (H := reference.transformEnv) files.declPrint
      (files.usage {[ "T" := types.Basic types.Int ]}) = "Print__int".
Proof.
  split; [|vm_compute; reflexivity].
  etransitivity.
  - apply (use_site_names_declaration (H := reference.transformEnv)
             {| Generics := files.printRegistry; TInfo := files.noInfo |}
             files.declPrint (files.usage {[ "T" := types.Basic types.Int ]})
             (NewIdent "Print") [files.ident "int"]).
    + reflexivity.
    + discriminate.
    + repeat constructor.
  - vm_compute. reflexivity.
Defined.

Lemma File_plain_witness :
  File (H := reference.transformEnv)
    {| Generics := ∅; TInfo := files.noInfo |} files.plainProgram
  = Ok files.plainProgram.
Proof.
  apply (File_plain (H := reference.transformEnv)); reflexivity.
Defined.

Lemma expandReceiverType_expands_witness :
  expandReceiverType (H := reference.transformEnv) files.funcG
    (Some files.declA) files.boolUsage
  = Ok (setRecv files.funcG
          (Some [mkField [NewIdent "a"]
                   (StarExpr (TypeArgExpr (files.ident "A") [files.ident "bool"]))])).
Proof.
  apply (expandReceiverType_expands (H := reference.transformEnv) files.funcG
           files.declA files.boolUsage [NewIdent "a"]
           (StarExpr (files.ident "A"))).
  - reflexivity.
  - reflexivity.
  - repeat constructor. discriminate.
Defined.

Lemma replaceIdentsInScope_function_witness :
  replaceIdentsInScope (H := reference.transformEnv)
    (NDecl (DFunc files.funcF)) {[ "T" := types.Basic types.Bool ]}
  = Ok (NDecl
          (DFunc
             {| Recv := Some [mkField [NewIdent "a"]
                                (TypeArgExpr (files.ident "A") [files.ident "bool"])];
                FName := NewIdent "f"; FTypeParams := None; FParams := [];
                FResults := Some [mkField [] (files.ident "bool")];
                Body := Some [DeclStmt
                                {| Tok := VAR;
                                   Specs := [ValueSpec [NewIdent "x"]
                                               (Some (files.ident "bool")) []] |};
                              ReturnStmt [files.ident "x"]] |})).
Proof.
  etransitivity.
  - apply (replaceIdentsInScope_function (H := reference.transformEnv)
             {[ "T" := types.Basic types.Bool ]} files.funcF).
    vm_compute. reflexivity.
  - vm_compute. reflexivity.
Defined.

Lemma generic_function_replaced_witness :
  generateConcreteTypes (H := reference.transformEnv)
    {| Generics := files.printRegistry; TInfo := files.noInfo |}
    (newCursor (NDecl (DFunc files.funcPrint)) true)
  = Ok ({| node := NDecl (DFunc files.funcPrint); inSlice := true;
           replaced := None; deleted := true;
           inserted := [NDecl (DFunc (files.printCloneFunc "Print__int" "int"));
                        NDecl (DFunc (files.printCloneFunc "Print__string" "string"))] |},
        true).
Proof.
  destruct (generic_function_replaced (H := reference.transformEnv)
              {| Generics := files.printRegistry; TInfo := files.noInfo |}
              files.funcPrint files.declPrint {| TPNames := [NewIdent "T"] |})
    as (Hrun & _ & _).
  - reflexivity.
  - reflexivity.
  - vm_compute. reflexivity.
  - vm_compute. repeat constructor.
  - etransitivity; [exact Hrun|]. vm_compute. reflexivity.
Defined.

Lemma generateFuncDecls_method_witness :
  generateFuncDecls (H := reference.transformEnv)
    {| Generics := files.genericTypeRegistry; TInfo := files.noInfo |}
    files.funcF
  = Ok ([{| Recv := Some [mkField [NewIdent "a"]
                            (TypeArgExpr (files.ident "A") [files.ident "bool"])];
            FName := NewIdent "f"; FTypeParams := None; FParams := [];
            FResults := Some [mkField [] (files.ident "bool")];
            Body := Some [DeclStmt
                            {| Tok := VAR;
                               Specs := [ValueSpec [NewIdent "x"]
                                           (Some (files.ident "bool")) []] |};
                          ReturnStmt [files.ident "x"]] |}], true).
Proof.
  etransitivity.
  - apply (generateFuncDecls_method (H := reference.transformEnv)
             {| Generics := files.genericTypeRegistry; TInfo := files.noInfo |}
             files.funcF [NewIdent "a"]
             (TypeArgExpr (files.ident "A") [files.ident "T"]) (NewIdent "A")
             files.declA).
    + reflexivity.
    + reflexivity.
    + repeat constructor. discriminate.
    + reflexivity.
    + vm_compute. reflexivity.
    + vm_compute. reflexivity.
    + vm_compute. repeat constructor.
  - vm_compute. reflexivity.
Defined.

Lemma generateFuncDecls_generic_method_witness :
  generateFuncDecls (H := reference.transformEnv)
    {| Generics := files.chainedRegistry; TInfo := files.chainedInfo |}
    files.funcF0
  = Ok ([{| Recv := Some [mkField [NewIdent "b"]
                            (TypeArgExpr (files.ident "B")
                               [files.ident "int"; files.ident "string"])];
            FName := NewIdent "f0__string"; FTypeParams := None; FParams := [];
            FResults := None; Body := Some [] |}], true).
Proof.
  etransitivity.
  - apply (generateFuncDecls_generic_method (H := reference.transformEnv)
             {| Generics := files.chainedRegistry; TInfo := files.chainedInfo |}
             files.funcF0 [NewIdent "b"]
             (TypeArgExpr (files.ident "B") [files.ident "T"; files.ident "U"])
             (NewIdent "B") files.declB files.declF0).
    + reflexivity.
    + reflexivity.
    + repeat constructor. discriminate.
    + vm_compute. reflexivity.
    + vm_compute. reflexivity.
    + vm_compute. repeat constructor.
  - vm_compute. reflexivity.
Defined.

Lemma generic_type_replaced_witness :
  generateConcreteTypes (H := reference.transformEnv)
    {| Generics := files.genericTypeRegistry; TInfo := files.noInfo |}
    (newCursor (NDecl (files.typeDecl "A" ["T"] (files.ident "T"))) true)
  = Ok (Replace
          (newCursor (NDecl (files.typeDecl "A" ["T"] (files.ident "T"))) true)
          (NDecl (files.typeDecl "A__bool" [] (files.ident "bool"))), true).
Proof.
  destruct (generic_type_replaced (H := reference.transformEnv)
              {| Generics := files.genericTypeRegistry; TInfo := files.noInfo |}
              {| Tok := TYPE;
                 Specs := [STypeSpec
                             {| TSName := NewIdent "A";
                                TSTypeParams := Some {| TPNames := [NewIdent "T"] |};
                                TSAssign := false; TSType := files.ident "T" |}] |}
              {| TSName := NewIdent "A";
                 TSTypeParams := Some {| TPNames := [NewIdent "T"] |};
                 TSAssign := false; TSType := files.ident "T" |}
              files.declA true)
    as (Hrun & _ & _).
  - reflexivity.
  - vm_compute. reflexivity.
  - vm_compute. discriminate.
  - vm_compute. repeat constructor.
  - etransitivity; [exact Hrun|]. vm_compute. reflexivity.
Defined.

End transform_props.
